(** * notescan: the colour-reduction engine, embedded from the Go sources

    The development follows the two library files of the package:
    the pixel file (conversion of colours, [Pixel], [Pixels]) and
    [shrink.go] (sampling, background selection, foreground mask,
    k-means and the application of the palette, and the generic k-means
    over the interface [Value]), and the name of the output file in the
    command.

    Conventions of the embedding.
    - [uint8] and [int] are carried in [Z]; a [uint8] result is reduced
      modulo 256 where the Go expression can wrap.  Go's [int] is 64 bits
      wide and every length met here is far below that, so [int]
      arithmetic is written without wrap-around.
    - [float64] is Rocq's primitive binary64 [float]; the operations used
      by the sources ([+], [-], [*], [/], comparisons) are the IEEE 754
      ones in both languages.  The one exception is the squared RGB
      distance, an integer below 2^18 that [float64] holds exactly: it
      is carried in [Z].
    - A pointer to a [Pixel] is an [option Pixel]: [None] is the nil
      pointer.  The interface [Value] is a type class, a value of the
      interface an [option] of the carrier.  A Go string is the list of
      its bytes.
    - A Go function that can return an error or panic returns a
      [result]: [Ok v], [Err e] for a returned [error], [Panic p] for a
      run-time panic that unwinds the whole call.
    - What the package takes from outside (the YCbCr conversion of the
      standard library, the draws of [math/rand], the order of a [range]
      over a map, the conversions the language leaves to the
      implementation) is a variable of the section, so every statement
      holds whatever these are. *)

From Stdlib Require Import ZArith Bool List Lia Floats Uint63.
From stdpp Require Import base option list gmap.

Open Scope Z_scope.

(** ** Results of Go calls *)

(** The errors the package creates with [fmt.Errorf], by message. *)
Inductive error : Type :=
| ErrShiftOver8          (* "Shift can't be over 8" *)
| ErrPixelsNil           (* "Pixels is nil" *)
| ErrPixelsLengthZero    (* "Pixels length is zero" *)
| ErrNotSupportedColor   (* "Not supported color: [%v]" *)
| ErrPaletteNil.         (* "Palette is nil" *)

(** The error kinds of the specification. *)
Inductive error_kind : Type :=
| InvalidParameter | EmptyInput | UnsupportedColorFormat | PaletteUnavailable.

Definition kind_of (e : error) : error_kind :=
  match e with
  | ErrShiftOver8 => InvalidParameter
  | ErrPixelsNil | ErrPixelsLengthZero => EmptyInput
  | ErrNotSupportedColor => UnsupportedColorFormat
  | ErrPaletteNil => PaletteUnavailable
  end.

(** Run-time panics of the Go runtime and of [math/rand]. *)
Inductive panic : Type :=
| NilDereference         (* invalid memory address or nil pointer dereference *)
| IndexOutOfRange        (* index out of range *)
| MakeSliceLen           (* makeslice: len out of range *)
| IntnArgument.          (* invalid argument to Intn *)

Inductive result (A : Type) : Type :=
| Ok (a : A)
| Err (e : error)
| Panic (p : panic).

Arguments Ok {A} a.
Arguments Err {A} e.
Arguments Panic {A} p.

Definition bind {A B : Type} (c : result A) (k : A -> result B) : result B :=
  match c with
  | Ok a => k a
  | Err e => Err e
  | Panic p => Panic p
  end.

Notation "'do' x <- c ; k" := (bind c (fun x => k))
  (at level 10, x name, c at level 100, k at level 200).
Notation "'do' ' pat <- c ; k" := (bind c (fun x => match x with pat => k end))
  (at level 10, pat pattern, c at level 100, k at level 200).

(** Dereference of a pointer. *)
Definition deref {A : Type} (p : option A) : result A :=
  match p with
  | Some a => Ok a
  | None => Panic NilDereference
  end.

(** [len(s)]. *)
Definition len {A : Type} (s : list A) : Z := Z.of_nat (length s).

(** [s[i]] on a slice: panics out of range. *)
Definition slice_index {A : Type} (s : list A) (i : Z) : result A :=
  if i <? 0 then Panic IndexOutOfRange
  else match s !! Z.to_nat i with
       | Some a => Ok a
       | None => Panic IndexOutOfRange
       end.

(** [s[i] = v] on a slice: panics out of range. *)
Definition slice_store {A : Type} (s : list A) (i : Z) (v : A) : result (list A) :=
  if (i <? 0) || (len s <=? i) then Panic IndexOutOfRange
  else Ok (<[Z.to_nat i := v]> s).

(** [make([]T, n)]: a slice of [n] zero values. *)
Definition slice_make {A : Type} (zero : A) (n : Z) : result (list A) :=
  if n <? 0 then Panic MakeSliceLen else Ok (replicate (Z.to_nat n) zero).

(** A [for] loop over a list of indices or elements that threads a
    state and stops at the first error or panic. *)
Fixpoint for_each {A St : Type} (body : St -> A -> result St)
    (st : St) (l : list A) : result St :=
  match l with
  | [] => Ok st
  | x :: l' => do st' <- body st x; for_each body st' l'
  end.

(** [for i := 0; i < n; i++]. *)
Definition upto (n : Z) : list Z := seqZ 0 n.

(** [for idx, x := range s]. *)
Definition enumerate {A : Type} (s : list A) : list (Z * A) :=
  zip (seqZ 0 (len s)) s.

(** ** float64 *)

Definition float64_of_Z (z : Z) : float :=
  if z <? 0 then (- PrimFloat.of_uint63 (Uint63.of_Z (- z)))%float
  else PrimFloat.of_uint63 (Uint63.of_Z z).

(** The integer part of a finite float, rounded toward zero; [None] for
    NaN and the infinities. *)
Definition float_trunc (x : float) : option Z :=
  match Prim2SF x with
  | S754_zero _ => Some 0
  | S754_finite s m e =>
      let a := if 0 <=? e then Z.shiftl (Z.pos m) e else Z.shiftr (Z.pos m) (- e) in
      Some (if s then - a else a)
  | _ => None
  end.

(** [math.Floor]. *)
Definition math_Floor (x : float) : float :=
  match Prim2SF x with
  | S754_finite s m e =>
      if 0 <=? e then x
      else
        let q := Z.shiftr (Z.pos m) (- e) in
        if Z.shiftl q (- e) =? Z.pos m then x
        else if s then float64_of_Z (- (q + 1)) else float64_of_Z q
  | _ => x
  end.

Definition math_Abs (x : float) : float := PrimFloat.abs x.

(** [math.Max] and [math.Min], with their special cases. *)
Definition math_Max (x y : float) : float :=
  if PrimFloat.eqb x infinity || PrimFloat.eqb y infinity then infinity
  else if PrimFloat.is_nan x || PrimFloat.is_nan y then nan
  else if PrimFloat.eqb x 0 && PrimFloat.eqb x y then
         (if PrimFloat.get_sign x then y else x)
  else if PrimFloat.ltb y x then x else y.

Definition math_Min (x y : float) : float :=
  if PrimFloat.eqb x neg_infinity || PrimFloat.eqb y neg_infinity then neg_infinity
  else if PrimFloat.is_nan x || PrimFloat.is_nan y then nan
  else if PrimFloat.eqb x 0 && PrimFloat.eqb x y then
         (if PrimFloat.get_sign x then x else y)
  else if PrimFloat.ltb x y then x else y.

(** [math.Mod x y]: the remainder of the truncated division, computed
    exactly; it has the sign of [x]. *)
Definition math_Mod (x y : float) : float :=
  match Prim2SF x, Prim2SF y with
  | S754_nan, _ | _, S754_nan => nan
  | S754_infinity _, _ => nan
  | _, S754_zero _ => nan
  | _, S754_infinity _ => x
  | S754_zero _, _ => x
  | S754_finite sx mx ex, S754_finite _ my ey =>
      let e := Z.min ex ey in
      let r := Z.rem (Z.shiftl (Z.pos mx) (ex - e)) (Z.shiftl (Z.pos my) (ey - e)) in
      if r =? 0 then (if sx then neg_zero else zero)
      else
        let k := Z.max 0 (Z.log2 r - 52) in
        let f := Z.ldexp (PrimFloat.of_uint63 (Uint63.of_Z (Z.shiftr r k))) (e + k) in
        if sx then (- f)%float else f
  end.

(** [math.MaxFloat64] is the integer 2^1024 - 2^971. *)
Definition MaxFloat64 : Z := 2 ^ 1024 - 2 ^ 971.

(** ** Colours of the standard image library *)

(** [color.RGBA]. *)
Record RGBA : Type := mkRGBA { cR : Z; cG : Z; cB : Z; cA : Z }.

(** The dynamic types of a [color.Color] that the package can meet: the
    three it converts, and two of the standard ones it does not. *)
Inductive Color : Type :=
| ColorYCbCr (y cb cr : Z)        (* color.YCbCr *)
| ColorRGBA (c : RGBA)            (* color.RGBA *)
| ColorRGBAPtr (c : RGBA)         (* pointer to color.RGBA *)
| ColorNRGBA (r g b a : Z)        (* color.NRGBA *)
| ColorGray (y : Z).              (* color.Gray *)

(** [image.Rectangle], [image.Rect], [Dx] and [Dy]. *)
Record Rectangle : Type := mkRect { MinX : Z; MinY : Z; MaxX : Z; MaxY : Z }.

Definition image_Rect (x0 y0 x1 y1 : Z) : Rectangle :=
  let '(x0, x1) := if x1 <? x0 then (x1, x0) else (x0, x1) in
  let '(y0, y1) := if y1 <? y0 then (y1, y0) else (y0, y1) in
  mkRect x0 y0 x1 y1.

Definition Dx (r : Rectangle) : Z := MaxX r - MinX r.
Definition Dy (r : Rectangle) : Z := MaxY r - MinY r.

Definition point_in (x y : Z) (r : Rectangle) : bool :=
  (MinX r <=? x) && (x <? MaxX r) && (MinY r <=? y) && (y <? MaxY r).

(** [image.Image]: the bounds and the colour at each point. *)
Record Image : Type := mkImage { Bounds : Rectangle; At : Z -> Z -> Color }.

(** An RGBA image ([image.RGBA]): its rectangle and its pixels; a point that was never
    set holds the zero colour, as in the array [image.NewRGBA] allocates. *)
Record RGBAImage : Type := mkRGBAImage { Rect : Rectangle; Pix : gmap (Z * Z) RGBA }.

Definition image_NewRGBA (r : Rectangle) : RGBAImage := mkRGBAImage r ∅.

Definition RGBAAt (img : RGBAImage) (x y : Z) : RGBA :=
  if point_in x y (Rect img) then default (mkRGBA 0 0 0 0) (Pix img !! (x, y))
  else mkRGBA 0 0 0 0.

(** The method [Set] of an RGBA image with a pointer to a [color.RGBA]
    as argument: outside the rectangle it does nothing, inside it
    stores the colour, whose four channels the RGBA colour model keeps
    as they are. *)
Definition RGBASet (img : RGBAImage) (x y : Z) (c : RGBA) : RGBAImage :=
  if point_in x y (Rect img) then mkRGBAImage (Rect img) (<[(x, y) := c]> (Pix img))
  else img.

Section Notescan.

Set Default Proof Using "Type".

(** What the Go implementation and its standard library leave outside
    the package: the YCbCr conversion of [image/color], the result of a
    float-to-integer conversion whose value does not fit (the language
    leaves it to the implementation), the draws of [math/rand], and the
    order in which a [range] visits a map. *)
Variable color_YCbCrToRGB : Z -> Z -> Z -> Z * Z * Z.
Variable uint8_unspecified : float -> Z.
Variable int_unspecified : float -> Z.
Variable rand_Intn : nat -> Z -> Z.
Variable range_order : gmap Z Z -> list (Z * Z).
Hypothesis range_order_perm : forall m, range_order m ≡ₚ map_to_list m.

(** [uint8(x)] and [int(x)] for a float [x]. *)
Definition uint8_of_float (x : float) : Z :=
  match float_trunc x with
  | Some z => if (0 <=? z) && (z <? 256) then z else uint8_unspecified x mod 256
  | None => uint8_unspecified x mod 256
  end.

Definition int_of_float (x : float) : Z :=
  match float_trunc x with
  | Some z => if (- 2 ^ 63 <=? z) && (z <? 2 ^ 63) then z else int_unspecified x
  | None => int_unspecified x
  end.

(** ** Conversion of colours *)

(** create RGBA from uint RGB values *)
Definition UIntRGBA (r g b : Z) : RGBA := mkRGBA r g b 255.

(** create RGBA from float RGB values *)
Definition FloatRGBA (r g b : float) : RGBA :=
  let ur := uint8_of_float r in
  let ug := uint8_of_float g in
  let ub := uint8_of_float b in
  let ur := if (r <? 255)%float then uint8_of_float (math_Floor (r + 0.5)) else ur in
  let ug := if (g <? 255)%float then uint8_of_float (math_Floor (g + 0.5)) else ug in
  let ub := if (b <? 255)%float then uint8_of_float (math_Floor (b + 0.5)) else ub in
  UIntRGBA ur ug ub.

(** convert color to RGBA format *)
Definition convertColor (c : Color) : result RGBA :=
  match c with
  | ColorYCbCr y cb cr =>
      let '(r, g, b) := color_YCbCrToRGB y cb cr in Ok (UIntRGBA r g b)
  | ColorRGBA newColor => Ok newColor
  | ColorRGBAPtr newColor => Ok newColor
  | _ => Err ErrNotSupportedColor
  end.

Definition RGB2HSV (or og ob : Z) : float * float * float :=
  let r := (float64_of_Z or / float64_of_Z 255)%float in
  let g := (float64_of_Z og / float64_of_Z 255)%float in
  let b := (float64_of_Z ob / float64_of_Z 255)%float in
  let max := math_Max (math_Max r g) b in
  let min := math_Min (math_Min r g) b in
  let d := (max - min)%float in
  let h :=
    if (d =? 0)%float then 0%float
    else if (max =? r)%float then math_Mod ((g - b) / d) 6
    else if (max =? g)%float then ((b - r) / d + 2)%float
    else if (max =? b)%float then ((r - g) / d + 4)%float
    else 0%float in
  let h := (h / 6)%float in
  let h := if (h <? 0)%float then (h + 1)%float else h in
  let s := if negb (max =? 0)%float then (d / max)%float else 0%float in
  let v := max in
  (h, s, v).

Definition HSV2RGBA (h s v : float) : RGBA :=
  let hd := (h * 360)%float in
  let hd := if (360 <=? hd)%float then 359%float else hd in
  let hh := (hd / 60)%float in
  let c := (v * s)%float in
  let x := (c * (1 - math_Abs (math_Mod hh 2 - 1)))%float in
  let '(r, g, b) :=
    if (hh <? 1)%float then (c, x, 0%float)
    else if (hh <? 2)%float then (x, c, 0%float)
    else if (hh <? 3)%float then (0%float, c, x)
    else if (hh <? 4)%float then (0%float, x, c)
    else if (hh <? 5)%float then (x, 0%float, c)
    else (c, 0%float, x) in
  let m := (v - c)%float in
  let r := (r + m)%float in
  let g := (g + m)%float in
  let b := (b + m)%float in
  FloatRGBA (r * 255) (g * 255) (b * 255).

(** ** Pixel *)

(** The struct [Pixel]; the fields are [R], [G], [B], [H], [S], [V] in
    the source ([S] is taken by the successor of [nat] here, so all six
    are written with a prefix). *)
Record Pixel : Type := mkPixel {
  pxR : Z; pxG : Z; pxB : Z;
  pxH : float; pxS : float; pxV : float
}.

(** A slice of pointers to [Pixel]. *)
Definition Pixels : Type := list (option Pixel).

(** pack pixel data into an integer *)
Definition Pack (p : option Pixel) : result Z :=
  do p <- deref p;
  Ok (Z.lor (Z.lor (Z.shiftl (pxR p) 16) (Z.shiftl (pxG p) 8)) (pxB p)).

(** restore to original rgb format *)
Definition UnPack (v : Z) : Z * Z * Z :=
  let r := Z.land (Z.shiftr v 16) 255 in
  let g := Z.land (Z.shiftr v 8) 255 in
  let b := Z.land v 255 in
  (r, g, b).

(** generate pixel from RGB *)
Definition NewPixelRGB (r g b : Z) : option Pixel :=
  let '(h, s, v) := RGB2HSV r g b in
  Some (mkPixel r g b h s v).

(** generate pixel from color *)
Definition NewPixel (c : Color) : option Pixel :=
  match convertColor c with
  | Ok cc => NewPixelRGB (cR cc) (cG cc) (cB cc)
  | _ => None
  end.

(** generate pixel from HSV *)
Definition NewPixelHSV (h s v : float) : option Pixel :=
  let c := HSV2RGBA h s v in
  NewPixelRGB (cR c) (cG c) (cB c).

(** get HSV space distance *)
Definition Pixel_DistanceHSV (p : Pixel) (src : option Pixel)
  : result (float * float * float) :=
  do src <- deref src;
  let h := math_Abs (pxH src - pxH p) in
  let s := math_Abs (pxS src - pxS p) in
  let v := math_Abs (pxV src - pxV p) in
  Ok (h, s, v).

(** get RGB space distance.  The source computes it in [float64]; the
    channels are integers below 2^8, so every intermediate value is an
    integer below 2^18, which [float64] represents and adds exactly:
    the distance is carried in [Z]. *)
Definition Pixel_DistanceRGB (p : Pixel) (src : option Pixel) : result Z :=
  do src <- deref src;
  let all := 0 in
  let r := pxR src - pxR p in
  let g := pxG src - pxG p in
  let b := pxB src - pxB p in
  let all := all + r * r in
  let all := all + g * g in
  let all := all + b * b in
  Ok all.

(** The same distance in [float64], statement by statement as the
    source writes it; the examples at the end compare the two. *)
Definition DistanceRGB_float64 (p src : Pixel) : float :=
  let all := 0%float in
  let r := (float64_of_Z (pxR src) - float64_of_Z (pxR p))%float in
  let g := (float64_of_Z (pxG src) - float64_of_Z (pxG p))%float in
  let b := (float64_of_Z (pxB src) - float64_of_Z (pxB p))%float in
  let all := (all + r * r)%float in
  let all := (all + g * g)%float in
  let all := (all + b * b)%float in
  all.

(** [>>] and [<<] on a [uint8] by an unsigned count: a count of 8 or
    more leaves no bit. *)
Definition uint8_shr (v s : Z) : Z := if 8 <=? s then 0 else Z.shiftr v s.
Definition uint8_shl (v s : Z) : Z := if 8 <=? s then 0 else Z.shiftl v s mod 256.

(** shift operation *)
Definition Pixel_Shift (p : Pixel) (shift : Z) : option Pixel :=
  let r := uint8_shl (uint8_shr (pxR p) shift) shift in
  let g := uint8_shl (uint8_shr (pxG p) shift) shift in
  let b := uint8_shl (uint8_shr (pxB p) shift) shift in
  NewPixelRGB r g b.

(** generate color *)
Definition Pixel_Color (p : Pixel) : RGBA := UIntRGBA (pxR p) (pxG p) (pxB p).

(** ** Pixels *)

(** get the most populous color *)
Definition Pixels_Most (p : Pixels) : result (option Pixel) :=
  do counter <-
    for_each (fun (counter : gmap Z Z) pix =>
                do val <- Pack pix;
                Ok (<[val := default 0 (counter !! val) + 1]> counter))
             ∅ p;
  let '(max, val) :=
    foldl (fun '(max, val) '(key, count) =>
             if max <? count then (count, key) else (max, val))
          (0, 0) (range_order counter) in
  let '(r, g, b) := UnPack val in
  Ok (NewPixelRGB r g b).

(** get the color that rounds all data *)
Definition Pixels_Quantize (p : Pixels) (s : Z) : result Pixels :=
  if 8 <=? s then Err ErrShiftOver8
  else
    let shift := s mod 2 ^ 64 in
    do quantize <- slice_make None (len p);
    for_each (fun quantize '(idx, pix) =>
                do pix <- deref pix;
                slice_store quantize idx (Pixel_Shift pix shift))
             quantize (enumerate p).

(** get the average color.  A nil slice and an empty one are both the
    empty list here: the source answers the first with [ErrPixelsNil]
    and the second with [ErrPixelsLengthZero], two errors of the same
    kind. *)
Definition Pixels_Average (p : Pixels) : result (option Pixel) :=
  let length := len p in
  if length =? 0 then Err ErrPixelsLengthZero
  else
    do '(r, g, b) <-
      for_each (fun '(r, g, b) d =>
                  do d <- deref d;
                  Ok ((r + float64_of_Z (pxR d))%float,
                      (g + float64_of_Z (pxG d))%float,
                      (b + float64_of_Z (pxB d))%float))
               (0%float, 0%float, 0%float) p;
    let avg := (1 / float64_of_Z length)%float in
    let r := (r * avg)%float in
    let g := (g * avg)%float in
    let b := (b * avg)%float in
    let c := FloatRGBA r g b in
    Ok (NewPixel (ColorRGBAPtr c)).

(** create image *)
Definition Pixels_ToImage (p : Pixels) (cols rows : Z) : result RGBAImage :=
  let idx := 0 in
  let img := image_NewRGBA (image_Rect 0 0 cols rows) in
  do '(idx, img) <-
    for_each (fun st col =>
      for_each (fun '(idx, img) row =>
                  do pix <- slice_index p idx;
                  do pix <- deref pix;
                  Ok (idx + 1, RGBASet img col row (Pixel_Color pix)))
               st (upto rows))
      (idx, img) (upto cols);
  Ok img.

(** The comparison [Sort] hands to [sort.Slice]: the pixels at [i] and
    [j] by the sum of the three channels of their packed values. *)
Definition Sort_less (p : Pixels) (i j : Z) : result bool :=
  do pixi <- slice_index p i;
  do pi <- Pack pixi;
  do pixj <- slice_index p j;
  do pj <- Pack pixj;
  let iRGB := Z.land (Z.shiftr pi 16) 255 + Z.land (Z.shiftr pi 8) 255 + Z.land pi 255 in
  let jRGB := Z.land (Z.shiftr pj 16) 255 + Z.land (Z.shiftr pj 8) 255 + Z.land pj 255 in
  Ok (iRGB <? jRGB).

(** convert image into pixels *)
Definition convertPixels (img : Image) : result Pixels :=
  let rect := Bounds img in
  let cols := Dx rect in
  let rows := Dy rect in
  do rtn <- slice_make None (cols * rows);
  let idx := 0 in
  do '(idx, rtn) <-
    for_each (fun st col =>
      for_each (fun '(idx, rtn) row =>
                  let color := At img col row in
                  do rtn <- slice_store rtn idx (NewPixel color);
                  Ok (idx + 1, rtn))
               st (upto rows))
      (idx, rtn) (upto cols);
  Ok rtn.

(** Creation of gif palette to do color reduction: the value the global
    [gifPalette] takes. *)
Definition setGIFPalette (bg : option Pixel) (fg : Pixels) : result (list RGBA) :=
  do gifPalette <- slice_make (mkRGBA 0 0 0 0) (len fg + 1);
  do bg <- deref bg;
  do gifPalette <- slice_store gifPalette 0 (Pixel_Color bg);
  for_each (fun gifPalette '(i, pixel) =>
              do pixel <- deref pixel;
              slice_store gifPalette (i + 1) (Pixel_Color pixel))
           gifPalette (enumerate fg).

(** ** shrink.go *)

Record Option : Type := mkOption {
  SamplingRate : float;
  Brightness : float;
  Saturation : float;
  ForegroundNum : Z;
  Shift : Z;
  KMeansIterations : Z
}.

Definition DefaultOption : Option :=
  {| SamplingRate := 0x1.999999999999ap-5;      (* 0.050 *)
     Brightness := 0x1.3333333333333p-2;        (* 0.300 *)
     Saturation := 0x1.999999999999ap-3;        (* 0.200 *)
     Shift := 2;
     ForegroundNum := 6;
     KMeansIterations := 40 |}.

Definition closest (p : option Pixel) (labels : Pixels) : result Z :=
  let idx := -1 in
  let d := MaxFloat64 in
  do '(idx, d) <-
    for_each (fun '(idx, d) i =>
                do p <- deref p;
                do label <- slice_index labels i;
                do val <- Pixel_DistanceRGB p label;
                Ok (if val <? d then (i, val) else (idx, d)))
             (idx, d) (upto (len labels));
  Ok idx.

Definition getForegroundMask (p : Pixels) (bg : option Pixel) (op : Option)
  : result (list bool) :=
  do rtn <- slice_make false (len p);
  for_each (fun rtn '(idx, pix) =>
              do pix <- deref pix;
              do '(_, ds, dv) <- Pixel_DistanceHSV pix bg;
              slice_store rtn idx
                ((Brightness op <=? dv)%float || (Saturation op <=? ds)%float))
           rtn (enumerate p).

Definition getBackgroundColor (p : Pixels) (op : Option) : result (option Pixel) :=
  do q <- Pixels_Quantize p (Shift op);
  do col <- Pixels_Most q;
  Ok col.

Definition createSample (p : Pixels) (num : Z) : result Pixels :=
  do samples <- slice_make None num;
  let length := len p in
  for_each (fun samples idx =>
              do r <- (if length <=? 0 then Panic IntnArgument
                       else Ok (rand_Intn (Z.to_nat idx) length));
              do pix <- slice_index p r;
              slice_store samples idx pix)
           samples (upto num).

(** The three loops of one round of [kmeans]: the groups of the current
    assignment, the update of the centers, and the new assignment with
    its number of changes. *)
Definition kmeans_groups (p : Pixels) (labels : Pixels) (index : list Z)
  : result (list Pixels) :=
  do groups <- slice_make [] (len labels);
  for_each (fun groups '(i, pix) =>
              do label <- slice_index index i;
              do group <- slice_index groups label;
              slice_store groups label (group ++ [pix]))
           groups (enumerate p).

Definition kmeans_update (labels : Pixels) (groups : list Pixels) : result Pixels :=
  for_each (fun labels i =>
              do group <- slice_index groups i;
              match Pixels_Average group with
              | Ok (Some newLabel) => slice_store labels i (Some newLabel)
              | Ok None => Ok labels
              | Err _ => Ok labels
              | Panic pn => Panic pn
              end)
           labels (upto (len labels)).

Definition kmeans_reassign (p : Pixels) (labels : Pixels) (index : list Z)
  : result (Z * list Z) :=
  for_each (fun '(changes, index) '(i, pix) =>
              do newIdx <- closest pix labels;
              do old <- slice_index index i;
              if negb (newIdx =? old) then
                do index <- slice_store index i newIdx;
                Ok (changes + 1, index)
              else Ok (changes, index))
           (0, index) (enumerate p).

Definition kmeans_round (p : Pixels) (labels : Pixels) (index : list Z)
  : result (Pixels * list Z * Z) :=
  do groups <- kmeans_groups p labels index;
  do labels <- kmeans_update labels groups;
  do '(changes, index) <- kmeans_reassign p labels index;
  Ok (labels, index, changes).

(** The loop [for idx := 0; idx < itr; idx++] with its [break]. *)
Fixpoint kmeans_iterate (itr : nat) (p : Pixels) (labels : Pixels) (index : list Z)
  : result Pixels :=
  match itr with
  | O => Ok labels
  | S itr' =>
      do '(labels, index, changes) <- kmeans_round p labels index;
      if changes =? 0 then Ok labels
      else kmeans_iterate itr' p labels index
  end.

(** [kmeans] once the centers are initialised. *)
Definition kmeans_from (labels : Pixels) (p : Pixels) (itr : Z) : result Pixels :=
  do index <- slice_make 0 (len p);
  do index <-
    for_each (fun index '(idx, pix) =>
                do c <- closest pix labels;
                slice_store index idx c)
             index (enumerate p);
  kmeans_iterate (Z.to_nat itr) p labels index.

Definition kmeans_init (k : Z) : result Pixels :=
  do labels <- slice_make None k;
  for_each (fun labels i =>
              let h := (float64_of_Z i / float64_of_Z (k - 1))%float in
              let pixel := NewPixelHSV h 1 1 in
              slice_store labels i pixel)
           labels (upto k).

Definition kmeans (p : Pixels) (op : Option) : result Pixels :=
  let k := ForegroundNum op - 1 in
  let itr := KMeansIterations op in
  do labels <- kmeans_init k;
  kmeans_from labels p itr.

Definition createPalette (p : Pixels) (op : Option)
  : result (option Pixel * Pixels) :=
  do bg <- getBackgroundColor p op;
  do mask <- getForegroundMask p bg op;
  do target <-
    for_each (fun target '(i, pix) =>
                do m <- slice_index mask i;
                Ok (if m : bool then target ++ [pix] else target))
             [] (enumerate p);
  do labels <- kmeans target op;
  Ok (bg, labels).

Definition apply (data : Pixels) (bg : option Pixel) (labels : Pixels) (op : Option)
  : result Pixels :=
  do flag <- getForegroundMask data bg op;
  do rtn <- slice_make None (len data);
  for_each (fun rtn idx =>
              do f <- slice_index flag idx;
              do newPix <-
                (if f : bool then
                   do pix <- slice_index data idx;
                   do wk <- closest pix labels;
                   slice_index labels wk
                 else Ok bg);
              slice_store rtn idx newPix)
           rtn (upto (len data)).

(** [Shrink]; beside the image, the value it leaves in the global
    [gifPalette]. *)
Definition Shrink (img : Image) (op : option Option)
  : result (RGBAImage * list RGBA) :=
  let op := default DefaultOption op in
  do data <- convertPixels img;
  let num := int_of_float (float64_of_Z (len data) * SamplingRate op) in
  do samples <- createSample data num;
  do '(bg, palette) <- createPalette samples op;
  do shrink <- apply data bg palette op;
  do gifPalette <- setGIFPalette bg palette;
  let rect := Bounds img in
  let cols := Dx rect in
  let rows := Dy rect in
  do out <- Pixels_ToImage shrink cols rows;
  Ok (out, gifPalette).

(** [math.MaxFloat64]. *)
Definition math_MaxFloat64 : float := 0x1.fffffffffffffp+1023.

(** The interface [Value].  A value of the interface is a pointer, nil
    or not; a method is a function of its receiver and its arguments
    that returns or panics.  [Average] returns a value and an error:
    [Err] stands for an error that is not nil, whatever the value. *)
Class Value (V : Type) : Type := {
  Distance : V -> option V -> result float;
  Average : V -> list (option V) -> result (option V)
}.

Definition closestIndex {V : Type} `{Value V} (val : option V) (labels : list (option V))
  : result Z :=
  let rtn := -1 in
  let min := math_MaxFloat64 in
  do '(rtn, min) <-
    for_each (fun '(rtn, min) '(idx, elm) =>
                do v <- deref val;
                do vd <- Distance v elm;
                Ok (if (vd <? min)%float then (idx, vd) else (rtn, min)))
             (rtn, min) (enumerate labels);
  Ok rtn.

(** One round of [kmeansValue]: the groups, the update of the centers
    and the new assignment with its number of changes. *)
Definition kmeansValue_round {V : Type} `{Value V}
    (data rtn : list (option V)) (index : list Z)
  : result (list (option V) * list Z * Z) :=
  do groups <- slice_make [] (len rtn);
  do groups <-
    for_each (fun groups i => slice_store groups i []) groups (upto (len rtn));
  do groups <-
    for_each (fun groups '(i, elm) =>
                do idx <- slice_index index i;
                do group <- slice_index groups idx;
                slice_store groups idx (group ++ [elm]))
             groups (enumerate data);
  do rtn <-
    for_each (fun rtn i =>
                do label <- slice_index rtn i;
                do valSlice <- slice_index groups i;
                do label <- deref label;
                match Average label valSlice with
                | Ok (Some ave) => slice_store rtn i (Some ave)
                | Ok None => Ok rtn
                | Err _ => Ok rtn
                | Panic pn => Panic pn
                end)
             rtn (upto (len rtn));
  do '(changes, index) <-
    for_each (fun '(changes, index) '(i, pix) =>
                do newIdx <- closestIndex pix rtn;
                do old <- slice_index index i;
                if negb (newIdx =? old) then
                  do index <- slice_store index i newIdx;
                  Ok (changes + 1, index)
                else Ok (changes, index))
             (0, index) (enumerate data);
  Ok (rtn, index, changes).

Fixpoint kmeansValue_iterate {V : Type} `{Value V} (itr : nat)
    (data rtn : list (option V)) (index : list Z) : result (list (option V)) :=
  match itr with
  | O => Ok rtn
  | S itr' =>
      do '(rtn, index, changes) <- kmeansValue_round data rtn index;
      if changes =? 0 then Ok rtn
      else kmeansValue_iterate itr' data rtn index
  end.

Definition kmeansValue {V : Type} `{Value V} (data labels : list (option V)) (itr : Z)
  : result (list (option V)) :=
  do index <- slice_make 0 (len data);
  do index <-
    for_each (fun index '(idx, datum) =>
                do c <- closestIndex datum labels;
                slice_store index idx c)
             index (enumerate data);
  do rtn <- slice_make None (len labels);
  do rtn <-
    for_each (fun rtn '(idx, label) => slice_store rtn idx label)
             rtn (enumerate labels);
  kmeansValue_iterate (Z.to_nat itr) data rtn index.

(** ** cmd/notescan *)

(** A Go string: a sequence of bytes. *)
Definition gostring : Type := list Byte.byte.

(** [strings.LastIndex(s, sep)] for a separator of the one byte [c]:
    the index of the last [c] in [s], or -1. *)
Definition strings_LastIndex (s : gostring) (c : Byte.byte) : Z :=
  foldl (fun found ib => if Byte.eqb ib.2 c then ib.1 else found) (-1) (enumerate s).

(** The extension [run] chooses, ".gif" or ".png", and the name it
    gives to the output file from the name of the input and the flags
    [suffix] and [gif]. *)
Definition run_extension (gif : bool) : gostring :=
  if gif then [Byte.x2e; Byte.x67; Byte.x69; Byte.x66]
  else [Byte.x2e; Byte.x70; Byte.x6e; Byte.x67].

Definition run_output (f suffix : gostring) (gif : bool) : gostring :=
  let extension := run_extension gif in
  let idx := strings_LastIndex f Byte.x2e in
  if idx =? -1 then f ++ suffix ++ extension
  else take (Z.to_nat idx) f ++ suffix ++ extension.

(** ** Well-formed values and the functions the statements refer to *)

(** The range of a [uint8]. *)
Definition is_uint8 (v : Z) : Prop := 0 <= v < 256.

(** A [Pixel] whose channels are in the range of their type. *)
Definition wf_pixel (p : Pixel) : Prop :=
  is_uint8 (pxR p) /\ is_uint8 (pxG p) /\ is_uint8 (pxB p).

(** The (R, G, B) triple of a pixel: its colour. *)
Definition rgb_of (p : Pixel) : Z * Z * Z := (pxR p, pxG p, pxB p).

(** Squared Euclidean distance of two pixels in RGB space. *)
Definition distRGB (p q : Pixel) : Z :=
  (pxR q - pxR p) * (pxR q - pxR p) + (pxG q - pxG p) * (pxG q - pxG p)
  + (pxB q - pxB p) * (pxB q - pxB p).

(** The members of the group of center [i]: the points whose current
    assignment is [i], in the order of the buffer. *)
Definition members {A : Type} (index : list Z) (p : list A) (i : Z) : list A :=
  (filter (fun ip : Z * A => ip.1 = i) (zip index p)).*2.

(** The state of a loop that fills [acc] from the left with the values
    [vs]: the first [k] slots are written. *)
Definition filled {B : Type} (vs acc : list B) (k : nat) : list B :=
  take k vs ++ drop k acc.

(** The struct that [NewPixelRGB] allocates. *)
Definition pixelRGB (r g b : Z) : Pixel :=
  mkPixel r g b (RGB2HSV r g b).1.1 (RGB2HSV r g b).1.2 (RGB2HSV r g b).2.

(** The pixel [Shift] allocates, as a value. *)
Definition shifted (shift : Z) (p : Pixel) : Pixel :=
  pixelRGB (uint8_shl (uint8_shr (pxR p) shift) shift)
           (uint8_shl (uint8_shr (pxG p) shift) shift)
           (uint8_shl (uint8_shr (pxB p) shift) shift).

(** The rounding of one channel in [FloatRGBA]. *)
Definition round_channel (r : float) : Z :=
  if (r <? 255)%float then uint8_of_float (math_Floor (r + 0.5))
  else uint8_of_float r.

(** The sums of the three channels, as [Average] accumulates them. *)
Definition channel_sums (ps : list Pixel) : float * float * float :=
  foldl (fun '(r, g, b) d =>
           ((r + float64_of_Z (pxR d))%float,
            (g + float64_of_Z (pxG d))%float,
            (b + float64_of_Z (pxB d))%float))
        (0%float, 0%float, 0%float) ps.

(** The pixel [Average] returns for a non-empty buffer of pixels. *)
Definition average_of (ps : list Pixel) : Pixel :=
  let '(r, g, b) := channel_sums ps in
  let avg := (1 / float64_of_Z (len ps))%float in
  pixelRGB (round_channel (r * avg)) (round_channel (g * avg)) (round_channel (b * avg)).

(** The test of [getForegroundMask] on one pixel. *)
Definition foreground (op : Option) (bg pix : Pixel) : bool :=
  (Brightness op <=? math_Abs (pxV bg - pxV pix))%float
  || (Saturation op <=? math_Abs (pxS bg - pxS pix))%float.

(** One iteration of the loop of [closest], and the state after the
    whole loop: the index of the nearest center so far and its
    distance. *)
Definition closest_step (p : Pixel) (st : Z * Z) (il : Z * Pixel) : Z * Z :=
  if distRGB p il.2 <? st.2 then (il.1, distRGB p il.2) else st.

Definition closest_state (p : Pixel) (labels : list Pixel) : Z * Z :=
  foldl (closest_step p) (-1, MaxFloat64) (enumerate labels).

(** The index [closest] returns. *)
Definition nearest (p : Pixel) (labels : list Pixel) : Z := (closest_state p labels).1.

(** What the state of the loop of [closest] knows after the centers
    [ls]: no center is nearer than the chosen one, the centers before it
    are strictly farther, and the choice is -1 only when there was no
    center. *)
Definition nearest_inv (p : Pixel) (ls : list Pixel) (st : Z * Z) : Prop :=
  (forall (j : nat) (c : Pixel), ls !! j = Some c ->
     st.2 <= distRGB p c /\ (Z.of_nat j < st.1 -> st.2 < distRGB p c)) /\
  ((ls = [] /\ st = (-1, MaxFloat64)) \/
   (exists c, 0 <= st.1 /\ ls !! Z.to_nat st.1 = Some c /\ st.2 = distRGB p c)).

(** The pixel [apply] writes for one pixel of the buffer. *)
Definition recolor (op : Option) (bg : Pixel) (labels : list Pixel) (pix : Pixel) : Pixel :=
  if foreground op bg pix
  then default bg (labels !! Z.to_nat (nearest pix labels))
  else bg.

(** The groups after the first [k] points. *)
Definition groups_after {A : Type} (index : list Z) (p : list A) (n : Z) (k : nat)
  : list (list A) :=
  (fun i => members (take k index) (take k p) i) <$> upto n.

(** An assignment of the points [p] to centers [0 .. n-1]. *)
Definition assignment {A : Type} (index : list Z) (p : list A) (n : Z) : Prop :=
  length index = length p /\ Forall (fun i => 0 <= i < n) index.

(** The center after the update of a round, from its value before and
    its group. *)
Definition update_center (l : Pixel) (g : list Pixel) : Pixel :=
  match g with
  | [] => l
  | _ :: _ => average_of g
  end.

(** The number of points whose assignment differs between [old] and
    [new]. *)
Definition count_changes (old new : list Z) : Z :=
  len (filter (fun ab : Z * Z => ab.1 <> ab.2) (zip old new)).

(** The centers after the update of a round. *)
Definition round_centers (ps ls : list Pixel) (index : list Z) : list Pixel :=
  zip_with update_center ls ((fun i => members index ps i) <$> upto (len ls)).

(** The states in which a run of [kmeans] over the points [ps] from the
    initial centers [ls0] starts a round: the initial centers with the
    first assignment, and the state a round leaves when it has changed
    an assignment. *)
Inductive in_run (ps ls0 : list Pixel) : list Pixel -> list Z -> Prop :=
| run_start :
    in_run ps ls0 ls0 ((fun pix => nearest pix ls0) <$> ps)
| run_next (ls : list Pixel) (index : list Z) (ls' : list Pixel) (index' : list Z)
    (changes : Z) :
    in_run ps ls0 ls index ->
    kmeans_round (Some <$> ps) (Some <$> ls) index = Ok (Some <$> ls', index', changes) ->
    changes <> 0 ->
    in_run ps ls0 ls' index'.

(** The pixel [NewPixelHSV] allocates. *)
Definition pixelHSV (h s v : float) : Pixel :=
  pixelRGB (cR (HSV2RGBA h s v)) (cG (HSV2RGBA h s v)) (cB (HSV2RGBA h s v)).

(** The centers [kmeans] starts from. *)
Definition initial_centers (k : Z) : list Pixel :=
  (fun i => pixelHSV (float64_of_Z i / float64_of_Z (k - 1)) 1 1) <$> upto k.

(** Every error [c] can return satisfies [P]. *)
Definition returns_only {A : Type} (P : error -> Prop) (c : result A) : Prop :=
  forall e, c = Err e -> P e.

Definition no_error (e : error) : Prop := False.

(** The points of a [cols] x [rows] raster in the order of the two
    nested loops: the outer one over the columns, the inner one over the
    rows. *)
Definition traversal (cols rows : Z) : list (Z * Z) :=
  upto cols ≫= fun col => pair col <$> upto rows.

(** The buffer [convertPixels] builds. *)
Definition scanned (img : Image) : Pixels :=
  (fun xy : Z * Z => NewPixel (At img xy.1 xy.2))
    <$> traversal (Dx (Bounds img)) (Dy (Bounds img)).

(** The image after the pixels [cps] are set at their points, in order. *)
Definition painted (img : RGBAImage) (cps : list ((Z * Z) * Pixel)) : RGBAImage :=
  foldl (fun img cp => RGBASet img cp.1.1 cp.1.2 (Pixel_Color cp.2)) img cps.

(** The pixel [NewPixel] allocates for a colour that converts. *)
Definition converted (img : Image) (xy : Z * Z) : Pixel :=
  match convertColor (At img xy.1 xy.2) with
  | Ok c => pixelRGB (cR c) (cG c) (cB c)
  | _ => pixelRGB 0 0 0
  end.

(** The integer [Pack] returns for a pixel. *)
Definition packed (p : Pixel) : Z :=
  Z.lor (Z.lor (Z.shiftl (pxR p) 16) (Z.shiftl (pxG p) 8)) (pxB p).

(** The table [Most] counts in, after the pixels [ps]. *)
Definition counter_of (ps : list Pixel) : gmap Z Z :=
  foldl (fun m q => <[packed q := default 0 (m !! packed q) + 1]> m) ∅ ps.

(** The scan of [Most] over the entries of the table: the greatest
    count so far and the key that has it. *)
Definition most_scan (l : list (Z * Z)) : Z * Z :=
  foldl (fun '(max, val) '(key, count) =>
           if max <? count then (count, key) else (max, val))
        (0, 0) l.

(** The number of pixels of the colour [c] in a buffer. *)
Definition occurrences (c : Z * Z * Z) (ps : list Pixel) : nat :=
  length (filter (fun q => rgb_of q = c) ps).

(** What the state of the loop of [closestIndex] knows after the
    distances [ds]: either nothing was below [math.MaxFloat64] and the
    index is -1, or the index is that of a distance below it that no
    distance undercuts and that no earlier distance equals. *)
Definition nearest_index_inv (ds : list float) (st : Z * float) : Prop :=
  (st = (-1, math_MaxFloat64) /\
   forall d, d ∈ ds -> (d <? math_MaxFloat64)%float = false) \/
  (0 <= st.1 /\ ds !! Z.to_nat st.1 = Some st.2 /\
   (st.2 <? math_MaxFloat64)%float = true /\
   (forall d, d ∈ ds -> (d <? st.2)%float = false) /\
   (forall (j : nat) (d : float), ds !! j = Some d -> Z.of_nat j < st.1 -> d <> st.2)).

(** Whether [HSV2RGBA] gives the colour [(r, g, b)] back from the hue,
    saturation and value [RGB2HSV] computes for it. *)
Definition hsv_inverts (r g b : Z) : bool :=
  let c := HSV2RGBA (RGB2HSV r g b).1.1 (RGB2HSV r g b).1.2 (RGB2HSV r g b).2 in
  (cR c =? r) && (cG c =? g) && (cB c =? b).



(** ** Concrete inputs of the examples *)

(** An instance of what the package takes from outside: a YCbCr
    conversion that keeps the luma only, conversions that answer 0 out
    of range, draws that walk through the buffer, and the keys of a map
    in the order of [map_to_list]. *)
Definition luma_YCbCrToRGB (y cb cr : Z) : Z * Z * Z := (y, y, y).
Definition zero_unspecified (x : float) : Z := 0.
Definition walking_Intn (i : nat) (n : Z) : Z := Z.of_nat i mod n.
Definition listed_order (m : gmap Z Z) : list (Z * Z) := map_to_list m.

Definition white : Pixel := pixelRGB 255 255 255.
Definition black : Pixel := pixelRGB 0 0 0.
Definition paper : Pixel := pixelRGB 200 200 200.
Definition red : Pixel := pixelRGB 255 0 0.
Definition blue : Pixel := pixelRGB 0 0 250.
Definition ink : Pixel := pixelRGB 203 101 54.

Definition one_center : Option :=
  {| SamplingRate := 1; Brightness := 0.5; Saturation := 0.5;
     ForegroundNum := 2; Shift := 2; KMeansIterations := 40 |}.

(** A 3 x 2 image of opaque colours at the origin. *)
Definition opaque_image : Image :=
  mkImage (mkRect 0 0 3 2) (fun x y => ColorRGBA (mkRGBA (40 * x) (90 * y) 7 255)).

(** A translucent pixel, and an image whose bounds do not start at the
    origin. *)
Definition translucent_image : Image :=
  mkImage (mkRect 0 0 1 1) (fun _ _ => ColorRGBA (mkRGBA 10 20 30 128)).
Definition offset_image : Image :=
  mkImage (mkRect 5 5 6 6)
          (fun x y => if point_in x y (mkRect 5 5 6 6)
                      then ColorRGBA (mkRGBA 200 0 0 255)
                      else ColorRGBA (mkRGBA 0 0 0 0)).

(** A page of 10 x 10 pixels, eight columns of paper and two of red,
    sampled whole and reduced to two colours: the background is the
    paper, the one center ends on the red, and the image comes back
    the same. *)
Definition page : Image :=
  mkImage (mkRect 0 0 10 10)
          (fun x y => if x <? 8 then ColorRGBA (mkRGBA 200 200 200 255)
                      else ColorRGBA (mkRGBA 255 0 0 255)).

(** An instance of the interface [Value]: the integers, with the
    absolute difference as distance (a nil integer counting as 0) and
    no average. *)
Definition line_Value : Value Z :=
  {| Distance := fun a b => Ok (float64_of_Z (Z.abs (a - default 0 b)));
     Average := fun _ _ => Err ErrPixelsLengthZero |}.


(** ** Loops *)

Lemma for_each_app {A St : Type} (body : St -> A -> result St) st l1 l2 :
  for_each body st (l1 ++ l2) = do st' <- for_each body st l1; for_each body st' l2.
Proof.
  revert st; induction l1 as [|x l1 IH]; intros st; simpl; [done|].
  destruct (body st x); simpl; auto.
Qed.

(** A loop whose [k]-th iteration takes the state [sts k] to
    [sts (S k)] ends in [sts (length l)]. *)
Lemma for_each_states {A St : Type} (body : St -> A -> result St)
    (l : list A) (sts : nat -> St) :
  (forall k x, l !! k = Some x -> body (sts k) x = Ok (sts (S k))) ->
  for_each body (sts O) l = Ok (sts (length l)).
Proof.
  revert sts; induction l as [|x l IH]; intros sts Hstep; simpl; [done|].
  rewrite (Hstep O x eq_refl); simpl.
  apply (IH (fun k => sts (S k))).
  intros k y Hk. apply (Hstep (S k) y Hk).
Qed.

(** A loop in which some iteration panics with [pn] in every state, and
    every iteration either goes on within the invariant [I] or panics
    with [pn], ends in that panic. *)
Lemma for_each_panics {A St : Type} (I : St -> Prop) (body : St -> A -> result St)
    (l : list A) (st : St) (pn : panic) :
  I st ->
  (forall st x, I st -> x ∈ l ->
     (exists st', body st x = Ok st' /\ I st') \/ body st x = Panic pn) ->
  (exists x, x ∈ l /\ forall st, body st x = Panic pn) ->
  for_each body st l = Panic pn.
Proof.
  revert st; induction l as [|y l IH]; intros st HI Hstep (x & Hx & Hpanic).
  { by apply elem_of_nil in Hx. }
  simpl. apply elem_of_cons in Hx as [->|Hx]; [by rewrite Hpanic|].
  destruct (Hstep st y HI ltac:(left)) as [(st' & -> & HI')| ->]; [|done].
  simpl. apply IH; [done| |by exists x].
  intros st'' z HI'' Hz. apply Hstep; [done|by right].
Qed.

Lemma len_nonneg {A : Type} (s : list A) : 0 <= len s.
Proof. unfold len; lia. Qed.

Lemma slice_make_len {A B : Type} (zero : A) (s : list B) :
  slice_make zero (len s) = Ok (replicate (length s) zero).
Proof.
  unfold slice_make, len. destruct (Z.ltb_spec (Z.of_nat (length s)) 0); [lia|].
  by rewrite Nat2Z.id.
Qed.

Lemma slice_index_nat {A : Type} (s : list A) (k : nat) (a : A) :
  s !! k = Some a -> slice_index s (Z.of_nat k) = Ok a.
Proof.
  intros H. unfold slice_index. destruct (Z.ltb_spec (Z.of_nat k) 0); [lia|].
  by rewrite Nat2Z.id, H.
Qed.

Lemma slice_store_nat {A : Type} (s : list A) (k : nat) (v : A) :
  (k < length s)%nat -> slice_store s (Z.of_nat k) v = Ok (<[k := v]> s).
Proof.
  intros H. unfold slice_store, len.
  destruct (Z.ltb_spec (Z.of_nat k) 0); [lia|].
  destruct (Z.leb_spec (Z.of_nat (length s)) (Z.of_nat k)); [lia|].
  simpl. by rewrite Nat2Z.id.
Qed.

Lemma upto_lookup (n : Z) (k : nat) (i : Z) :
  upto n !! k = Some i <-> i = Z.of_nat k /\ Z.of_nat k < n.
Proof. unfold upto. rewrite lookup_seqZ. lia. Qed.

Lemma upto_length (n : Z) : length (upto n) = Z.to_nat n.
Proof. unfold upto. by rewrite length_seqZ. Qed.

Lemma upto_len_length {A : Type} (s : list A) : length (upto (len s)) = length s.
Proof. rewrite upto_length. unfold len. lia. Qed.

Lemma enumerate_lookup {A : Type} (s : list A) (k : nat) (i : Z) (x : A) :
  enumerate s !! k = Some (i, x) <-> i = Z.of_nat k /\ s !! k = Some x.
Proof.
  unfold enumerate. rewrite lookup_zip_with_Some. split.
  - intros (i' & x' & [= <- <-] & Hi & Hx). apply lookup_seqZ in Hi. split; [lia|done].
  - intros [-> Hx]. exists (Z.of_nat k), x. split; [done|]. split; [|done].
    apply lookup_seqZ. apply lookup_lt_Some in Hx. unfold len. lia.
Qed.

Lemma enumerate_length {A : Type} (s : list A) : length (enumerate s) = length s.
Proof.
  unfold enumerate. rewrite length_zip_with, length_seqZ. unfold len. lia.
Qed.

Lemma filled_start {B : Type} (vs acc : list B) : filled vs acc O = acc.
Proof. unfold filled. by rewrite take_0, drop_0. Qed.

Lemma filled_end {B : Type} (vs acc : list B) (n : nat) :
  length vs = n -> length acc = n -> filled vs acc n = vs.
Proof.
  intros Hv Ha. unfold filled.
  rewrite take_ge, drop_ge by lia. by rewrite app_nil_r.
Qed.

Lemma filled_length {B : Type} (vs acc : list B) (k : nat) :
  length vs = length acc -> length (filled vs acc k) = length acc.
Proof.
  intros H. unfold filled. rewrite length_app, length_take, length_drop. lia.
Qed.

Lemma filled_step {B : Type} (vs acc : list B) (k : nat) (v : B) :
  length vs = length acc -> vs !! k = Some v ->
  <[k := v]> (filled vs acc k) = filled vs acc (S k).
Proof.
  intros Hlen Hv. unfold filled.
  assert (k < length vs)%nat as Hk by (by eapply lookup_lt_Some).
  rewrite insert_app_r_alt by (rewrite length_take; lia).
  rewrite length_take, Nat.min_l, Nat.sub_diag by lia.
  rewrite (take_S_r vs k v Hv).
  destruct (drop k acc) as [|a rest] eqn:Hd.
  - apply (f_equal length) in Hd. rewrite length_drop in Hd. simpl in Hd. lia.
  - simpl. rewrite <- app_assoc. simpl. do 2 f_equal.
    change rest with (drop 1 (a :: rest)). rewrite <- Hd, drop_drop. f_equal; lia.
Qed.

Lemma filled_keep {B : Type} (vs acc : list B) (k : nat) (v : B) :
  length vs = length acc -> vs !! k = Some v -> acc !! k = Some v ->
  filled vs acc k = filled vs acc (S k).
Proof.
  intros Hlen Hv Ha. rewrite <- (filled_step vs acc k v Hlen Hv).
  symmetry. apply list_insert_id. unfold filled.
  assert (k < length vs)%nat as Hk by (by eapply lookup_lt_Some).
  rewrite lookup_app_r by (rewrite length_take; lia).
  rewrite length_take, Nat.min_l, Nat.sub_diag by lia.
  rewrite lookup_drop. by rewrite Nat.add_0_r.
Qed.

Lemma filled_lookup_ge {B : Type} (vs acc : list B) (k j : nat) :
  length vs = length acc -> (k <= j)%nat -> filled vs acc k !! j = acc !! j.
Proof.
  intros Hlen Hj. unfold filled.
  destruct (decide (k <= length vs)%nat) as [Hk|Hk].
  - rewrite lookup_app_r by (rewrite length_take; lia).
    rewrite length_take, Nat.min_l by lia. rewrite lookup_drop. f_equal; lia.
  - rewrite take_ge, drop_ge by lia. rewrite app_nil_r.
    rewrite !lookup_ge_None_2; [done|lia|lia].
Qed.

(** The loop [for idx, x := range s { acc[idx] = f(x) }]. *)
Lemma for_each_fill {A B : Type} (f : A -> result B) (g : A -> B)
    (s : list A) (acc : list B) :
  length acc = length s ->
  (forall x, x ∈ s -> f x = Ok (g x)) ->
  for_each (fun acc '(idx, x) => do v <- f x; slice_store acc idx v) acc (enumerate s)
  = Ok (g <$> s).
Proof.
  intros Hlen Hf.
  pose (sts := filled (g <$> s) acc).
  rewrite <- (filled_start (g <$> s) acc). fold (sts O).
  rewrite (for_each_states _ (enumerate s) sts).
  - f_equal. rewrite enumerate_length. unfold sts.
    apply filled_end; [by rewrite length_fmap|done].
  - intros k [i x] Hk. apply enumerate_lookup in Hk as [-> Hx].
    rewrite (Hf x) by (by eapply list_elem_of_lookup_2). simpl.
    unfold sts. rewrite slice_store_nat.
    + f_equal. apply filled_step; [by rewrite length_fmap|].
      by rewrite list_lookup_fmap, Hx.
    + rewrite filled_length by (by rewrite length_fmap).
      apply lookup_lt_Some in Hx. lia.
Qed.

Lemma for_each_ext {A St : Type} (body1 body2 : St -> A -> result St) st l :
  (forall st x, body1 st x = body2 st x) ->
  for_each body1 st l = for_each body2 st l.
Proof.
  intros H. revert st; induction l as [|x l IH]; intros st; simpl; [done|].
  rewrite H. destruct (body2 st x); simpl; auto.
Qed.

(** ** Pixel: construction and quantization *)

Lemma NewPixelRGB_Some (r g b : Z) : NewPixelRGB r g b = Some (pixelRGB r g b).
Proof. unfold NewPixelRGB, pixelRGB. by destruct (RGB2HSV r g b) as [[h s] v]. Qed.

Lemma uint8_shift_in_range (v s : Z) :
  0 <= s < 8 -> is_uint8 v ->
  uint8_shl (uint8_shr v s) s = Z.shiftl (Z.shiftr v s) s.
Proof.
  intros Hs Hv. unfold uint8_shl, uint8_shr, is_uint8 in *.
  destruct (Z.leb_spec 8 s); [lia|].
  rewrite Z.shiftl_mul_pow2, Z.shiftr_div_pow2 by lia.
  apply Z.mod_small.
  assert (0 < 2 ^ s) by (apply Z.pow_pos_nonneg; lia).
  pose proof (Z.mul_div_le v (2 ^ s) ltac:(lia)).
  assert (0 <= v / 2 ^ s) by (apply Z.div_pos; lia).
  nia.
Qed.

Lemma shift_low_bits_zero (v s : Z) :
  0 <= s -> Z.land (Z.shiftl (Z.shiftr v s) s) (Z.ones s) = 0.
Proof.
  intros Hs. apply Z.bits_inj'. intros n Hn.
  rewrite Z.land_spec, Z.bits_0.
  destruct (Z.lt_ge_cases n s).
  - rewrite Z.shiftl_spec_low by lia. done.
  - rewrite Z.ones_spec_high by lia. apply andb_false_r.
Qed.

Lemma shift_high_bits_kept (v s : Z) :
  0 <= s -> Z.shiftr (Z.shiftl (Z.shiftr v s) s) s = Z.shiftr v s.
Proof.
  intros Hs. rewrite Z.shiftr_shiftl_l by lia.
  by rewrite Z.sub_diag, Z.shiftl_0_r.
Qed.

Lemma Pixel_Shift_Some (p : Pixel) (shift : Z) :
  Pixel_Shift p shift = Some (shifted shift p).
Proof. unfold Pixel_Shift, shifted. apply NewPixelRGB_Some. Qed.

Lemma Quantize_fails (p : Pixels) (s : Z) :
  8 <= s -> Pixels_Quantize p s = Err ErrShiftOver8.
Proof. intros H. unfold Pixels_Quantize. by destruct (Z.leb_spec 8 s); [|lia]. Qed.

Lemma Quantize_values (ps : list Pixel) (s : Z) :
  s < 8 ->
  Pixels_Quantize (Some <$> ps) s = Ok (Some <$> (shifted (s mod 2 ^ 64) <$> ps)).
Proof.
  intros H. unfold Pixels_Quantize. destruct (Z.leb_spec 8 s); [lia|].
  rewrite slice_make_len. simpl.
  rewrite (for_each_ext _
    (fun acc '(idx, x) =>
       do v <- (do pix <- deref x; Ok (Pixel_Shift pix (s mod 2 ^ 64)));
       slice_store acc idx v))
    by (intros st [idx [px|]]; done).
  rewrite (for_each_fill _
    (fun pix => pix ≫= fun px => Some (shifted (s mod 2 ^ 64) px))).
  - rewrite <- !list_fmap_compose. done.
  - by rewrite length_replicate.
  - intros x Hx. apply list_elem_of_fmap in Hx as (px & -> & _). simpl.
    by rewrite Pixel_Shift_Some.
Qed.

(** C5.  [Quantize] returns the InvalidParameter error for every shift
    of 8 or more, whatever the buffer; for a shift in 0..7 it succeeds
    on a buffer of pixels with a result of the same length in which
    each channel of each element is [(v >> shift) << shift]: its low
    [shift] bits are zero and the bits above are those of [v]; the HSV
    fields are recomputed from the new channels. *)
Theorem Quantize_shift_range (p : Pixels) (ps : list Pixel) (s : Z) :
  (8 <= s ->
   exists e, Pixels_Quantize p s = Err e /\ kind_of e = InvalidParameter) /\
  (0 <= s < 8 -> Forall wf_pixel ps ->
   exists qs : list Pixel,
     Pixels_Quantize (Some <$> ps) s = Ok (Some <$> qs) /\
     length qs = length ps /\
     forall (i : nat) (px : Pixel), ps !! i = Some px ->
       exists q : Pixel, qs !! i = Some q /\
         pxR q = Z.shiftl (Z.shiftr (pxR px) s) s /\
         pxG q = Z.shiftl (Z.shiftr (pxG px) s) s /\
         pxB q = Z.shiftl (Z.shiftr (pxB px) s) s /\
         Z.land (pxR q) (Z.ones s) = 0 /\
         Z.land (pxG q) (Z.ones s) = 0 /\
         Z.land (pxB q) (Z.ones s) = 0 /\
         Z.shiftr (pxR q) s = Z.shiftr (pxR px) s /\
         Z.shiftr (pxG q) s = Z.shiftr (pxG px) s /\
         Z.shiftr (pxB q) s = Z.shiftr (pxB px) s /\
         (pxH q, pxS q, pxV q) = RGB2HSV (pxR q) (pxG q) (pxB q)).
Proof.
  split.
  - intros H. exists ErrShiftOver8. split; [by apply Quantize_fails|done].
  - intros Hs Hwf. exists (shifted (s mod 2 ^ 64) <$> ps).
    split; [apply Quantize_values; lia|].
    split; [by rewrite length_fmap|].
    intros i px Hi. exists (shifted (s mod 2 ^ 64) px).
    split; [by rewrite list_lookup_fmap, Hi|].
    rewrite Z.mod_small by lia.
    eapply Forall_lookup_1 in Hwf as (HR & HG & HB); [|exact Hi].
    unfold shifted, pixelRGB; simpl.
    rewrite !uint8_shift_in_range by (done || lia).
    rewrite !shift_low_bits_zero, !shift_high_bits_kept by lia.
    repeat split; try done.
Qed.

Lemma uint8_shift_twice (v s : Z) :
  0 <= s < 8 ->
  uint8_shl (uint8_shr (uint8_shl (uint8_shr v s) s) s) s
  = uint8_shl (uint8_shr v s) s.
Proof.
  clear. intros Hs. unfold uint8_shl, uint8_shr.
  destruct (Z.leb_spec 8 s); [lia|].
  rewrite !Z.shiftl_mul_pow2, !Z.shiftr_div_pow2 by lia.
  assert (s = 0 \/ s = 1 \/ s = 2 \/ s = 3 \/ s = 4 \/ s = 5 \/ s = 6 \/ s = 7)
    as Hcases by lia.
  destruct Hcases as [->|[->|[->|[->|[->|[->|[->| ->]]]]]]];
    cbn [Z.pow Z.pow_pos Pos.iter Z.mul Pos.mul]; Z.div_mod_to_equations; lia.
Qed.

Lemma shifted_twice (s : Z) (p : Pixel) :
  0 <= s < 8 -> shifted s (shifted s p) = shifted s p.
Proof.
  intros Hs. unfold shifted at 1 3. unfold shifted, pixelRGB; simpl.
  by rewrite !uint8_shift_twice.
Qed.

(** C9.  For every buffer of pixels and every shift in 0..7 the
    quantization succeeds, and quantizing its result again at the same
    shift succeeds with the very same buffer: no element changes. *)
Theorem Quantize_idempotent (ps : list Pixel) (s : Z) :
  0 <= s < 8 ->
  exists q : Pixels,
    Pixels_Quantize (Some <$> ps) s = Ok q /\
    (do q' <- Pixels_Quantize (Some <$> ps) s; Pixels_Quantize q' s) = Ok q.
Proof.
  intros Hs. eexists. split; [apply Quantize_values; lia|].
  rewrite Quantize_values by lia. simpl.
  rewrite Quantize_values by lia. do 2 f_equal.
  rewrite <- list_fmap_compose. apply list_fmap_ext.
  intros i x _. simpl. rewrite Z.mod_small by lia. by apply shifted_twice.
Qed.

(** ** Average *)

Lemma FloatRGBA_channels (r g b : float) :
  FloatRGBA r g b = UIntRGBA (round_channel r) (round_channel g) (round_channel b).
Proof. reflexivity. Qed.

Lemma uint8_of_float_range (x : float) : is_uint8 (uint8_of_float x).
Proof.
  unfold uint8_of_float, is_uint8.
  destruct (float_trunc x) as [z|].
  - destruct (Z.leb_spec 0 z), (Z.ltb_spec z 256); simpl;
      try lia; apply Z.mod_pos_bound; lia.
  - apply Z.mod_pos_bound; lia.
Qed.

Lemma round_channel_range (r : float) : is_uint8 (round_channel r).
Proof. unfold round_channel. destruct (r <? 255)%float; apply uint8_of_float_range. Qed.

(** A property of every [uint8] that a computation settles on the 256
    values. *)
Lemma uint8_enum (f : Z -> bool) :
  forallb f (seqZ 0 256) = true -> forall v, is_uint8 v -> f v = true.
Proof.
  intros H v Hv. rewrite forallb_forall in H. apply H.
  apply list_elem_of_In, elem_of_seqZ. unfold is_uint8 in Hv. lia.
Qed.

(** The mean of one value: the sum [0 + v], the factor [1 / 1] and the
    rounding give [v] back. *)
Lemma round_channel_single (v : Z) :
  is_uint8 v ->
  round_channel ((0 + float64_of_Z v) * (1 / float64_of_Z 1)) = v.
Proof.
  intros Hv. apply Z.eqb_eq.
  apply (uint8_enum (fun v =>
    round_channel ((0 + float64_of_Z v) * (1 / float64_of_Z 1)) =? v)); [|done].
  vm_compute. reflexivity.
Qed.

Lemma Average_sums (ps : list Pixel) (acc : float * float * float) :
  for_each (fun '(r, g, b) d =>
              do d <- deref d;
              Ok ((r + float64_of_Z (pxR d))%float,
                  (g + float64_of_Z (pxG d))%float,
                  (b + float64_of_Z (pxB d))%float))
           acc (Some <$> ps)
  = Ok (foldl (fun '(r, g, b) d =>
                 ((r + float64_of_Z (pxR d))%float,
                  (g + float64_of_Z (pxG d))%float,
                  (b + float64_of_Z (pxB d))%float)) acc ps).
Proof.
  revert acc; induction ps as [|x ps IH]; intros [[r g] b]; simpl; [done|].
  apply IH.
Qed.

Lemma Average_nonempty (ps : list Pixel) :
  ps <> [] -> Pixels_Average (Some <$> ps) = Ok (Some (average_of ps)).
Proof.
  intros Hne. unfold Pixels_Average.
  assert (len (Some <$> ps) = len ps) as -> by (unfold len; by rewrite length_fmap).
  destruct (Z.eqb_spec (len ps) 0) as [H0|H0].
  { destruct ps; [done|]. unfold len in H0. simpl in H0. lia. }
  rewrite Average_sums. unfold average_of, channel_sums.
  destruct (foldl _ _ ps) as [[r g] b]. cbn [bind].
  unfold NewPixel. cbn [convertColor]. rewrite FloatRGBA_channels.
  unfold UIntRGBA. cbn [cR cG cB].
  by rewrite NewPixelRGB_Some.
Qed.

Lemma Average_empty : Pixels_Average [] = Err ErrPixelsLengthZero.
Proof. reflexivity. Qed.

Lemma average_of_wf (ps : list Pixel) : wf_pixel (average_of ps).
Proof.
  unfold average_of. destruct (channel_sums ps) as [[r g] b].
  repeat split; apply round_channel_range.
Qed.

(** C7.  [Average] of a buffer with exactly one element returns a
    pixel with the R, G and B of that element, and [Average] of a
    buffer with no element fails with an error of kind EmptyInput. *)
Theorem Average_single_and_empty (x : Pixel) :
  wf_pixel x ->
  (exists a : Pixel,
     Pixels_Average [Some x] = Ok (Some a) /\
     pxR a = pxR x /\ pxG a = pxG x /\ pxB a = pxB x) /\
  (exists e, Pixels_Average [] = Err e /\ kind_of e = EmptyInput).
Proof.
  intros (HR & HG & HB). split.
  - exists (average_of [x]). split; [by apply (Average_nonempty [x])|].
    unfold average_of, channel_sums; simpl.
    change (len [x]) with 1.
    by rewrite !round_channel_single.
  - exists ErrPixelsLengthZero. by rewrite Average_empty.
Qed.

(** ** The foreground mask *)

Lemma getForegroundMask_values (ps : list Pixel) (bg : Pixel) (op : Option) :
  getForegroundMask (Some <$> ps) (Some bg) op = Ok (foreground op bg <$> ps).
Proof.
  unfold getForegroundMask. rewrite slice_make_len. cbn [bind].
  rewrite (for_each_ext _
    (fun acc '(idx, x) =>
       do v <- (do pix <- deref x; Ok (foreground op bg pix));
       slice_store acc idx v))
    by (intros st [idx [px|]]; done).
  rewrite (for_each_fill _ (fun pix => from_option (foreground op bg) false pix)).
  - by rewrite <- list_fmap_compose.
  - by rewrite length_replicate.
  - intros x Hx. by apply list_elem_of_fmap in Hx as (px & -> & _).
Qed.

(** C2.  On every buffer of pixels and every background colour
    [getForegroundMask] returns one flag per pixel, and the flag is true
    exactly when |dV| >= Brightness or |dS| >= Saturation, where dS and
    dV are the differences of the S and V fields of the background and
    the pixel; the hue has no influence: a buffer and a background with
    the same S and V fields, whatever their hues (and channels), get the
    same mask. *)
Theorem ForegroundMask_classifies (ps : list Pixel) (bg : Pixel) (op : Option) :
  exists mask : list bool,
    getForegroundMask (Some <$> ps) (Some bg) op = Ok mask /\
    length mask = length ps /\
    (forall (i : nat) (pix : Pixel), ps !! i = Some pix ->
       exists m : bool, mask !! i = Some m /\
         (m = true <->
            (Brightness op <=? math_Abs (pxV bg - pxV pix))%float = true \/
            (Saturation op <=? math_Abs (pxS bg - pxS pix))%float = true)) /\
    (forall (ps' : list Pixel) (bg' : Pixel),
       pxS bg' = pxS bg -> pxV bg' = pxV bg ->
       Forall2 (fun p p' => pxS p' = pxS p /\ pxV p' = pxV p) ps ps' ->
       getForegroundMask (Some <$> ps') (Some bg') op = Ok mask).
Proof.
  exists (foreground op bg <$> ps).
  split; [apply getForegroundMask_values|].
  split; [by rewrite length_fmap|]. split.
  - intros i pix Hi. exists (foreground op bg pix).
    split; [by rewrite list_lookup_fmap, Hi|].
    unfold foreground. by rewrite orb_true_iff.
  - intros ps' bg' HS HV Hps. rewrite getForegroundMask_values. f_equal.
    induction Hps as [|p p' ps ps' [HpS HpV] _ IH]; [done|].
    simpl. f_equal; [|done].
    unfold foreground. by rewrite HS, HV, HpS, HpV.
Qed.

(** ** closest *)

Lemma for_each_fmap {A B St : Type} (body : St -> B -> result St) (f : A -> B) st l :
  for_each body st (f <$> l) = for_each (fun st x => body st (f x)) st l.
Proof.
  revert st; induction l as [|x l IH]; intros st; simpl; [done|].
  destruct (body st (f x)); simpl; auto.
Qed.

Lemma for_each_ext_in {A St : Type} (body1 body2 : St -> A -> result St) st l :
  (forall st x, x ∈ l -> body1 st x = body2 st x) ->
  for_each body1 st l = for_each body2 st l.
Proof.
  revert st; induction l as [|x l IH]; intros st H; simpl; [done|].
  rewrite H by left. destruct (body2 st x); simpl; [|done|done].
  apply IH. intros st' y Hy. apply H. by right.
Qed.

Lemma for_each_pure {A St : Type} (body : St -> A -> result St) (f : St -> A -> St) st l :
  (forall st x, x ∈ l -> body st x = Ok (f st x)) ->
  for_each body st l = Ok (foldl f st l).
Proof.
  revert st; induction l as [|x l IH]; intros st H; simpl; [done|].
  rewrite H by left. simpl. apply IH. intros st' y Hy. apply H. by right.
Qed.

Lemma enumerate_fst {A : Type} (s : list A) : (enumerate s).*1 = upto (len s).
Proof.
  unfold enumerate, upto. apply fst_zip. rewrite length_seqZ. unfold len. lia.
Qed.

Lemma enumerate_elem {A : Type} (s : list A) (i : Z) (x : A) :
  (i, x) ∈ enumerate s -> 0 <= i /\ s !! Z.to_nat i = Some x.
Proof.
  intros H. apply list_elem_of_lookup in H as [k Hk].
  apply enumerate_lookup in Hk as [-> Hx].
  rewrite Nat2Z.id. split; [lia|done].
Qed.

(** A loop over the indices of a slice that reads the element at the
    index is a [range] loop over the slice. *)
Lemma for_each_upto_range {A St : Type} (s : list A) (body : St -> Z -> A -> result St) st :
  for_each (fun st i => do x <- slice_index s i; body st i x) st (upto (len s))
  = for_each (fun st '(i, x) => body st i x) st (enumerate s).
Proof.
  rewrite <- enumerate_fst, for_each_fmap.
  apply for_each_ext_in. intros st' [i x] Hix. simpl.
  apply enumerate_elem in Hix as [Hi Hx].
  rewrite <- (Z2Nat.id i) at 1 by done. by rewrite (slice_index_nat s _ x).
Qed.

Lemma enumerate_snoc {A : Type} (s : list A) (x : A) :
  enumerate (s ++ [x]) = enumerate s ++ [(len s, x)].
Proof.
  unfold enumerate, len. rewrite length_app. simpl.
  replace (Z.of_nat (length s + 1)) with (Z.of_nat (length s) + 1) by lia.
  rewrite seqZ_app by lia. simpl.
  rewrite zip_with_app by (rewrite length_seqZ; lia).
  done.
Qed.

Lemma enumerate_fmap {A B : Type} (f : A -> B) (s : list A) :
  enumerate (f <$> s) = prod_map id f <$> enumerate s.
Proof.
  induction s as [|x s IH] using rev_ind; [done|].
  rewrite fmap_app. simpl. rewrite !enumerate_snoc, fmap_app, IH. simpl.
  unfold len. by rewrite length_fmap.
Qed.

Lemma closest_value (p : Pixel) (labels : list Pixel) :
  closest (Some p) (Some <$> labels) = Ok (nearest p labels).
Proof.
  unfold closest, nearest, closest_state.
  rewrite (for_each_ext _
    (fun st i => do label <- slice_index (Some <$> labels) i;
                 (fun st i label => do val <- Pixel_DistanceRGB p label;
                    Ok (if val <? st.2 then (i, val) else st)) st i label))
    by (intros [idx d] i; simpl; by destruct (slice_index _ i)).
  rewrite for_each_upto_range, enumerate_fmap, for_each_fmap.
  rewrite (for_each_pure _ (closest_step p)).
  - cbn [bind]. by destruct (foldl _ _ _).
  - intros [idx d] [i l] _. reflexivity.
Qed.

Lemma square_diff_bound (a b : Z) :
  is_uint8 a -> is_uint8 b -> 0 <= (b - a) * (b - a) <= 65025.
Proof.
  unfold is_uint8. intros Ha Hb.
  assert (-255 <= b - a <= 255) as H by lia.
  generalize dependent (b - a). intros d Hd. nia.
Qed.

Lemma distRGB_bound (p c : Pixel) :
  wf_pixel p -> wf_pixel c -> 0 <= distRGB p c < MaxFloat64.
Proof.
  intros (HR & HG & HB) (HR' & HG' & HB').
  pose proof (square_diff_bound _ _ HR HR').
  pose proof (square_diff_bound _ _ HG HG').
  pose proof (square_diff_bound _ _ HB HB').
  assert (0 <= distRGB p c <= 195075) as Hd by (unfold distRGB; lia).
  assert (195075 < MaxFloat64) by (by apply Z.ltb_lt).
  lia.
Qed.

Lemma closest_state_inv (p : Pixel) (ls : list Pixel) :
  (forall c, c ∈ ls -> distRGB p c < MaxFloat64) ->
  nearest_inv p ls (closest_state p ls).
Proof.
  induction ls as [|l ls IH] using rev_ind; intros Hbound.
  { split; [intros j c Hj; by rewrite lookup_nil in Hj|by left]. }
  unfold closest_state. rewrite enumerate_snoc, foldl_app. simpl.
  fold (closest_state p ls).
  destruct IH as [Hmin Hsel].
  { intros c Hc. apply Hbound. apply elem_of_app. by left. }
  assert (distRGB p l < MaxFloat64) as Hl.
  { apply Hbound. apply elem_of_app. right. by apply list_elem_of_singleton. }
  unfold closest_step. simpl.
  destruct (Z.ltb_spec (distRGB p l) (closest_state p ls).2) as [Hlt|Hge].
  - split; simpl.
    + intros j c Hj. apply lookup_app_Some in Hj as [Hj|[Hlen Hj]].
      * specialize (Hmin j c Hj) as [Hle _]. split; [lia|lia].
      * apply list_lookup_singleton_Some in Hj as [_ ->].
        split; [lia|]. unfold len. lia.
    + right. exists l. split; [apply len_nonneg|]. split; [|done].
      unfold len. rewrite Nat2Z.id. apply list_lookup_middle. done.
  - split.
    + intros j c Hj. apply lookup_app_Some in Hj as [Hj|[Hlen Hj]].
      * by apply Hmin.
      * apply list_lookup_singleton_Some in Hj as [Hj0 ->].
        split; [done|]. intros Hidx.
        destruct Hsel as [[-> Hst]|(c0 & Hpos & Hc & _)].
        { rewrite Hst in Hge. simpl in Hge. lia. }
        apply lookup_lt_Some in Hc. lia.
    + right. destruct Hsel as [[-> Hst]|(c & Hpos & Hc & Hd)].
      { rewrite Hst in Hge. simpl in Hge. lia. }
      exists c. split; [done|]. split; [|done].
      apply lookup_app_l_Some. done.
Qed.

Lemma nearest_empty (p : Pixel) : nearest p [] = -1.
Proof. reflexivity. Qed.

(** The index [closest] returns among at least one center: the first
    center at minimal distance. *)
Lemma nearest_spec (p : Pixel) (ls : list Pixel) :
  wf_pixel p -> Forall wf_pixel ls -> ls <> [] ->
  exists c : Pixel,
    0 <= nearest p ls < len ls /\
    ls !! Z.to_nat (nearest p ls) = Some c /\
    forall (j : nat) (c' : Pixel), ls !! j = Some c' ->
      distRGB p c <= distRGB p c' /\
      (Z.of_nat j < nearest p ls -> distRGB p c < distRGB p c').
Proof.
  intros Hp Hls Hne.
  destruct (closest_state_inv p ls) as [Hmin Hsel].
  { intros c Hc. eapply Forall_forall in Hls; [|exact Hc].
    by apply distRGB_bound. }
  destruct Hsel as [[-> _]|(c & Hpos & Hc & Hd)]; [done|].
  exists c. unfold nearest. split.
  - split; [done|]. apply lookup_lt_Some in Hc. unfold len. lia.
  - split; [done|]. intros j c' Hj. rewrite <- Hd. by apply Hmin.
Qed.

(** ** apply *)

Lemma apply_values (data : list Pixel) (bg : Pixel) (labels : list Pixel) (op : Option) :
  Forall wf_pixel data -> Forall wf_pixel labels -> labels <> [] ->
  apply (Some <$> data) (Some bg) (Some <$> labels) op
  = Ok (Some <$> (recolor op bg labels <$> data)).
Proof.
  intros Hdata Hlabels Hne. unfold apply.
  rewrite getForegroundMask_values, slice_make_len. cbn [bind].
  set (vs := Some <$> (recolor op bg labels <$> data)).
  set (acc := replicate (length (Some <$> data)) (@None Pixel)).
  assert (length vs = length data) as Hvs by (unfold vs; by rewrite !length_fmap).
  assert (length acc = length data) as Hacc
    by (unfold acc; by rewrite length_replicate, length_fmap).
  rewrite <- (filled_start vs acc).
  rewrite (for_each_states _ _ (filled vs acc)).
  - f_equal. rewrite upto_len_length, length_fmap. apply filled_end; done.
  - intros k i Hk. apply upto_lookup in Hk as [-> Hk].
    unfold len in Hk. rewrite length_fmap in Hk.
    destruct (lookup_lt_is_Some_2 data k ltac:(lia)) as [pix Hpix].
    rewrite (slice_index_nat _ k (foreground op bg pix))
      by (by rewrite list_lookup_fmap, Hpix).
    cbn [bind].
    assert (vs !! k = Some (Some (recolor op bg labels pix))) as Hv
      by (unfold vs; by rewrite !list_lookup_fmap, Hpix).
    assert (slice_store (filled vs acc k) (Z.of_nat k) (Some (recolor op bg labels pix))
            = Ok (filled vs acc (S k))) as Hstore.
    { rewrite slice_store_nat by (rewrite filled_length; lia).
      f_equal. apply filled_step; [lia|done]. }
    unfold recolor in *. destruct (foreground op bg pix); [|exact Hstore].
    rewrite (slice_index_nat _ k (Some pix)) by (by rewrite list_lookup_fmap, Hpix).
    cbn [bind]. rewrite closest_value. cbn [bind].
    destruct (nearest_spec pix labels) as (c & [Hpos _] & Hc & _); [|done|done|].
    { eapply Forall_lookup_1; [exact Hdata|exact Hpix]. }
    rewrite Hc in *. simpl in Hstore.
    rewrite <- (Z2Nat.id (nearest pix labels)) at 1 by done.
    rewrite (slice_index_nat _ _ (Some c)) by (by rewrite list_lookup_fmap, Hc).
    exact Hstore.
Qed.

(** The palette applied to a non-empty palette.  For every buffer of
    pixels, background colour and non-empty palette, [apply] returns a
    buffer of the same length in which the element of a pixel that is
    not foreground against the background is the background colour
    itself, and the element of a foreground pixel is a center of the
    palette at minimal RGB distance from the pixel; so every element is
    the background or a center, and the colours of the output are at
    most one more than the centers: at most ForegroundNum for a palette
    of ForegroundNum - 1 centers.  (C1, amended to non-empty palettes.) *)
Theorem apply_palette (data : list Pixel) (bg : Pixel) (labels : list Pixel) (op : Option) :
  Forall wf_pixel data -> Forall wf_pixel labels -> labels <> [] ->
  exists out : list Pixel,
    apply (Some <$> data) (Some bg) (Some <$> labels) op = Ok (Some <$> out) /\
    length out = length data /\
    (forall (i : nat) (pix : Pixel), data !! i = Some pix ->
       exists o : Pixel, out !! i = Some o /\
         (foreground op bg pix = false -> o = bg) /\
         (foreground op bg pix = true ->
            o ∈ labels /\ forall c, c ∈ labels -> distRGB pix o <= distRGB pix c)) /\
    (forall o, o ∈ out -> o = bg \/ o ∈ labels) /\
    (length (remove_dups (rgb_of <$> out)) <= S (length labels))%nat /\
    (len labels = ForegroundNum op - 1 ->
     len (remove_dups (rgb_of <$> out)) <= ForegroundNum op).
Proof.
  intros Hdata Hlabels Hne.
  exists (recolor op bg labels <$> data).
  split; [by apply apply_values|].
  split; [by rewrite length_fmap|].
  assert (forall pix, pix ∈ data ->
            (foreground op bg pix = false -> recolor op bg labels pix = bg) /\
            (foreground op bg pix = true ->
               recolor op bg labels pix ∈ labels /\
               forall c, c ∈ labels ->
                 distRGB pix (recolor op bg labels pix) <= distRGB pix c)) as Hrec.
  { intros pix Hpix. unfold recolor. split; intros Hf; rewrite Hf; [done|].
    destruct (nearest_spec pix labels) as (c & _ & Hc & Hmin); [|done|done|].
    { eapply Forall_forall; [exact Hdata|exact Hpix]. }
    rewrite Hc. simpl. split; [by eapply list_elem_of_lookup_2|].
    intros c' Hc'. apply list_elem_of_lookup in Hc' as [j Hj].
    by apply (Hmin j c'). }
  assert (forall o, o ∈ recolor op bg labels <$> data -> o = bg \/ o ∈ labels) as Hout.
  { intros o Ho. apply list_elem_of_fmap in Ho as (pix & -> & Hpix).
    destruct (Hrec pix Hpix) as [Hb Hf].
    destruct (foreground op bg pix); [right; by apply Hf|left; by apply Hb]. }
  assert (length (remove_dups (rgb_of <$> (recolor op bg labels <$> data)))
          <= S (length labels))%nat as Hcount.
  { change (S (length labels)) with (length (bg :: labels)).
    rewrite <- (length_fmap rgb_of (bg :: labels)).
    apply submseteq_length, NoDup_submseteq; [apply NoDup_remove_dups|].
    intros x Hx. apply elem_of_remove_dups, list_elem_of_fmap in Hx as (o & -> & Ho).
    apply list_elem_of_fmap. exists o. split; [done|].
    destruct (Hout o Ho) as [->|Hl]; [by left|by right]. }
  split; [|split; [done|split; [done|]]].
  - intros i pix Hi. exists (recolor op bg labels pix).
    split; [by rewrite list_lookup_fmap, Hi|].
    apply Hrec. by eapply list_elem_of_lookup_2.
  - intros Hk. unfold len in *. lia.
Qed.

(** ** One round of kmeans *)

Lemma members_snoc {A : Type} (index : list Z) (p : list A) (k : nat)
    (label : Z) (x : A) (i : Z) :
  index !! k = Some label -> p !! k = Some x ->
  members (take (S k) index) (take (S k) p) i
  = members (take k index) (take k p) i ++ (if decide (label = i) then [x] else []).
Proof.
  intros Hl Hx. unfold members.
  rewrite (take_S_r index k label Hl), (take_S_r p k x Hx).
  rewrite zip_with_app; last first.
  { rewrite !length_take. apply lookup_lt_Some in Hl, Hx. lia. }
  rewrite filter_app, fmap_app. f_equal. simpl.
  rewrite filter_cons, filter_nil. simpl. by destruct (decide (label = i)).
Qed.

Lemma members_all {A : Type} (index : list Z) (p : list A) (i : Z) :
  length index = length p ->
  members (take (length p) index) (take (length p) p) i = members index p i.
Proof. intros H. by rewrite <- H at 1; rewrite !firstn_all. Qed.

Lemma groups_after_length {A : Type} (index : list Z) (p : list A) (n : Z) (k : nat) :
  length (groups_after index p n k) = Z.to_nat n.
Proof. unfold groups_after. by rewrite length_fmap, upto_length. Qed.

Lemma groups_after_lookup {A : Type} (index : list Z) (p : list A) (n : Z) (k j : nat) :
  Z.of_nat j < n ->
  groups_after index p n k !! j
  = Some (members (take k index) (take k p) (Z.of_nat j)).
Proof.
  intros Hj. unfold groups_after. rewrite list_lookup_fmap.
  by rewrite (proj2 (upto_lookup n j (Z.of_nat j))).
Qed.

Lemma groups_after_step {A : Type} (index : list Z) (p : list A) (n : Z) (k : nat)
    (label : Z) (x : A) :
  index !! k = Some label -> p !! k = Some x -> 0 <= label < n ->
  <[Z.to_nat label := members (take k index) (take k p) label ++ [x]]>
    (groups_after index p n k)
  = groups_after index p n (S k).
Proof.
  intros Hl Hx Hrange. apply list_eq. intros j.
  destruct (decide (Z.of_nat j < n)) as [Hj|Hj].
  - rewrite (groups_after_lookup _ _ _ (S k)) by done.
    rewrite (members_snoc index p k label x) by done.
    destruct (decide (j = Z.to_nat label)) as [->|Hne].
    + rewrite list_lookup_insert_eq by (rewrite groups_after_length; lia).
      rewrite Z2Nat.id by lia. by rewrite decide_True.
    + rewrite list_lookup_insert_ne by done.
      rewrite groups_after_lookup by done.
      rewrite decide_False by lia. by rewrite app_nil_r.
  - rewrite !lookup_ge_None_2; [done| |].
    + rewrite groups_after_length. lia.
    + rewrite length_insert, groups_after_length. lia.
Qed.

Lemma kmeans_groups_values (p : Pixels) (labels : Pixels) (index : list Z) :
  assignment index p (len labels) ->
  kmeans_groups p labels index
  = Ok ((fun i => members index p i) <$> upto (len labels)).
Proof.
  intros [Hlen Hrange]. unfold kmeans_groups. rewrite slice_make_len. cbn [bind].
  assert (replicate (length labels) [] = groups_after index p (len labels) O) as ->.
  { unfold groups_after. rewrite !take_0.
    apply list_eq. intros j. rewrite list_lookup_fmap.
    destruct (decide (j < length labels)%nat) as [Hj|Hj].
    - rewrite lookup_replicate_2 by done.
      rewrite (proj2 (upto_lookup (len labels) j (Z.of_nat j))); [done|].
      unfold len. split; [done|lia].
    - rewrite !lookup_ge_None_2; [done| |].
      + rewrite upto_len_length. lia.
      + rewrite length_replicate. lia. }
  rewrite (for_each_states _ _ (groups_after index p (len labels))).
  - f_equal. rewrite enumerate_length. unfold groups_after.
    apply list_fmap_ext. intros j i _. by apply members_all.
  - intros k [i x] Hk. apply enumerate_lookup in Hk as [-> Hx].
    destruct (lookup_lt_is_Some_2 index k) as [label Hl].
    { apply lookup_lt_Some in Hx. lia. }
    rewrite (slice_index_nat _ _ _ Hl). cbn [bind].
    assert (0 <= label < len labels) as Hlabel
      by (eapply Forall_lookup_1 in Hrange; [|exact Hl]; done).
    assert (slice_index (groups_after index p (len labels) k) label
            = Ok (members (take k index) (take k p) label)) as ->.
    { rewrite <- (Z2Nat.id label) at 1 by lia. apply slice_index_nat.
      rewrite groups_after_lookup by lia. by rewrite Z2Nat.id by lia. }
    cbn [bind]. rewrite <- (Z2Nat.id label) at 1 by lia.
    rewrite slice_store_nat by (rewrite groups_after_length; lia).
    f_equal. by apply groups_after_step.
Qed.

Lemma kmeans_update_values (ls : list Pixel) (gss : list (list Pixel)) :
  length gss = length ls ->
  kmeans_update (Some <$> ls) ((fun g : list Pixel => Some <$> g) <$> gss)
  = Ok (Some <$> zip_with update_center ls gss).
Proof.
  intros Hlen. unfold kmeans_update.
  set (vs := Some <$> zip_with update_center ls gss).
  set (acc := Some <$> ls).
  assert (length acc = length ls) as Hacc by (unfold acc; by rewrite length_fmap).
  assert (length vs = length ls) as Hvs.
  { unfold vs. rewrite length_fmap, length_zip_with. lia. }
  rewrite <- (filled_start vs acc) at 1.
  rewrite (for_each_states _ _ (filled vs acc)).
  - f_equal. rewrite upto_len_length. apply filled_end; lia.
  - intros k i Hk. apply upto_lookup in Hk as [-> Hk].
    unfold len in Hk. rewrite Hacc in Hk.
    destruct (lookup_lt_is_Some_2 ls k ltac:(lia)) as [l Hl].
    destruct (lookup_lt_is_Some_2 gss k ltac:(lia)) as [g Hg].
    rewrite (slice_index_nat _ k (Some <$> g)) by (by rewrite list_lookup_fmap, Hg).
    cbn [bind].
    assert (vs !! k = Some (Some (update_center l g))) as Hv.
    { unfold vs. rewrite list_lookup_fmap.
      by rewrite (proj2 (lookup_zip_with_Some update_center ls gss k _)
                    (ex_intro _ l (ex_intro _ g (conj eq_refl (conj Hl Hg))))). }
    destruct g as [|x g].
    + simpl. f_equal. apply (filled_keep vs acc k (Some l)); [lia|done|].
      unfold acc. by rewrite list_lookup_fmap, Hl.
    + rewrite (Average_nonempty (x :: g)) by done.
      rewrite slice_store_nat by (rewrite filled_length; lia).
      f_equal. apply filled_step; [lia|done].
Qed.

Lemma kmeans_reassign_values (ps : list Pixel) (ls : list Pixel) (index : list Z) :
  length index = length ps ->
  kmeans_reassign (Some <$> ps) (Some <$> ls) index
  = Ok (count_changes index ((fun pix => nearest pix ls) <$> ps),
        (fun pix => nearest pix ls) <$> ps).
Proof.
  intros Hlen. unfold kmeans_reassign.
  set (new := (fun pix => nearest pix ls) <$> ps).
  assert (length new = length ps) as Hnew by (unfold new; by rewrite length_fmap).
  pose (sts := fun k : nat =>
    (len (filter (fun ab : Z * Z => ab.1 <> ab.2) (take k (zip index new))),
     filled new index k)).
  change (0, index) with (0, index).
  replace (0, index) with (sts O)
    by (unfold sts; by rewrite take_0, filled_start).
  rewrite (for_each_states _ _ sts).
  - f_equal. rewrite enumerate_length, length_fmap. unfold sts, count_changes.
    rewrite filled_end by lia. f_equal. f_equal. f_equal.
    apply take_ge. rewrite length_zip_with. lia.
  - intros k [i x] Hk. apply enumerate_lookup in Hk as [-> Hx].
    rewrite list_lookup_fmap in Hx.
    destruct (ps !! k) as [pix|] eqn:Hpix; [|done]. injection Hx as <-.
    unfold sts at 1. rewrite closest_value. cbn [bind].
    destruct (lookup_lt_is_Some_2 index k) as [old Hold].
    { apply lookup_lt_Some in Hpix. lia. }
    rewrite (slice_index_nat _ k old)
      by (rewrite filled_lookup_ge by lia; done).
    cbn [bind].
    assert (new !! k = Some (nearest pix ls)) as Hn
      by (unfold new; by rewrite list_lookup_fmap, Hpix).
    assert (take (S k) (zip index new) = take k (zip index new) ++ [(old, nearest pix ls)])
      as Htake.
    { apply take_S_r. apply lookup_zip_with_Some. by exists old, (nearest pix ls). }
    unfold sts. rewrite Htake, filter_app, filter_cons, filter_nil. simpl.
    destruct (Z.eqb_spec (nearest pix ls) old) as [Heq|Hne]; simpl.
    + rewrite decide_False by lia. rewrite app_nil_r. f_equal. f_equal.
      apply (filled_keep new index k old); [lia| |done]. by rewrite Hn, Heq.
    + rewrite decide_True by lia.
      pose proof (lookup_lt_Some _ _ _ Hold) as Hk.
      rewrite slice_store_nat by (rewrite filled_length; lia).
      cbn [bind]. f_equal. f_equal.
      * unfold len. rewrite length_app. simpl. lia.
      * apply filled_step; [lia|done].
Qed.

Lemma members_fmap {A B : Type} (f : A -> B) (index : list Z) (p : list A) (i : Z) :
  members index (f <$> p) i = f <$> members index p i.
Proof.
  unfold members. revert p; induction index as [|j index IH]; intros [|x p]; try done.
  simpl. rewrite !filter_cons. simpl.
  destruct (decide (j = i)); simpl; by rewrite IH.
Qed.

Lemma round_centers_length (ps ls : list Pixel) (index : list Z) :
  length (round_centers ps ls index) = length ls.
Proof.
  unfold round_centers. rewrite length_zip_with, length_fmap, upto_len_length. lia.
Qed.

Lemma round_centers_lookup (ps ls : list Pixel) (index : list Z) (i : nat) (l : Pixel) :
  ls !! i = Some l ->
  round_centers ps ls index !! i
  = Some (update_center l (members index ps (Z.of_nat i))).
Proof.
  intros Hl. unfold round_centers. apply lookup_zip_with_Some.
  exists l, (members index ps (Z.of_nat i)). split; [done|]. split; [done|].
  rewrite list_lookup_fmap.
  rewrite (proj2 (upto_lookup (len ls) i (Z.of_nat i))); [done|].
  split; [done|]. apply lookup_lt_Some in Hl. unfold len. lia.
Qed.

Lemma kmeans_round_values (ps ls : list Pixel) (index : list Z) :
  assignment index ps (len ls) ->
  kmeans_round (Some <$> ps) (Some <$> ls) index
  = Ok (Some <$> round_centers ps ls index,
        (fun pix => nearest pix (round_centers ps ls index)) <$> ps,
        count_changes index
          ((fun pix => nearest pix (round_centers ps ls index)) <$> ps)).
Proof.
  intros [Hlen Hrange]. unfold kmeans_round.
  assert (len (Some <$> ls) = len ls) as Hl by (unfold len; by rewrite length_fmap).
  rewrite kmeans_groups_values; last first.
  { split; [by rewrite length_fmap|by rewrite Hl]. }
  cbn [bind]. rewrite Hl.
  assert ((fun i => members index (Some <$> ps) i) <$> upto (len ls)
          = (fun g : list Pixel => Some <$> g)
              <$> ((fun i => members index ps i) <$> upto (len ls))) as ->.
  { rewrite <- list_fmap_compose. apply list_fmap_ext. intros j i _.
    apply members_fmap. }
  rewrite kmeans_update_values by (by rewrite length_fmap, upto_len_length).
  cbn [bind]. fold (round_centers ps ls index).
  by rewrite kmeans_reassign_values.
Qed.

Lemma nearest_in_range (pix : Pixel) (ls : list Pixel) :
  wf_pixel pix -> Forall wf_pixel ls -> ls <> [] -> 0 <= nearest pix ls < len ls.
Proof.
  intros Hp Hls Hne. by destruct (nearest_spec pix ls Hp Hls Hne) as (c & H & _).
Qed.

Lemma assignment_nearest (ps ls : list Pixel) :
  Forall wf_pixel ps -> Forall wf_pixel ls -> ls <> [] ->
  assignment ((fun pix => nearest pix ls) <$> ps) ps (len ls).
Proof.
  intros Hps Hls Hne. split; [by rewrite length_fmap|].
  apply Forall_fmap. eapply Forall_impl; [exact Hps|].
  intros pix Hpix. simpl. by apply nearest_in_range.
Qed.

Lemma update_center_wf (l : Pixel) (g : list Pixel) :
  wf_pixel l -> wf_pixel (update_center l g).
Proof. intros Hl. destruct g; [done|apply average_of_wf]. Qed.

Lemma round_centers_wf (ps ls : list Pixel) (index : list Z) :
  Forall wf_pixel ls -> Forall wf_pixel (round_centers ps ls index).
Proof.
  intros Hls. apply Forall_lookup. intros i l' Hl'.
  unfold round_centers in Hl'. apply lookup_zip_with_Some in Hl' as (l & g & -> & Hl & _).
  apply update_center_wf. by eapply Forall_lookup_1.
Qed.

(** ** The runs of kmeans *)

Lemma in_run_invariant (ps ls0 ls : list Pixel) (index : list Z) :
  Forall wf_pixel ps -> Forall wf_pixel ls0 -> ls0 <> [] ->
  in_run ps ls0 ls index ->
  Forall wf_pixel ls /\ ls <> [] /\ assignment index ps (len ls).
Proof.
  intros Hps Hls0 Hne Hrun. induction Hrun as [|ls index ls' index' changes _ IH Hround _].
  - split; [done|]. split; [done|]. by apply assignment_nearest.
  - destruct IH as (Hls & Hnel & Hassign).
    rewrite kmeans_round_values in Hround by done.
    injection Hround as Heq <- _.
    apply (inj (fmap Some)) in Heq. subst ls'.
    assert (round_centers ps ls index <> []) as Hne'.
    { intros H0. apply (f_equal length) in H0.
      rewrite round_centers_length in H0. by destruct ls. }
    split; [by apply round_centers_wf|]. split; [done|].
    apply assignment_nearest; [done|by apply round_centers_wf|done].
Qed.

(** C8.  In every round of every run of kmeans (over pixels, from at
    least one center) the round completes, the centers keep their
    number, a center whose group of assigned points is empty keeps
    exactly its previous value, and a center with at least one member
    becomes the [Average] of its members. *)
Theorem kmeans_update_rule (ps ls0 ls : list Pixel) (index : list Z) :
  Forall wf_pixel ps -> Forall wf_pixel ls0 -> ls0 <> [] ->
  in_run ps ls0 ls index ->
  exists (ls' : list Pixel) (index' : list Z) (changes : Z),
    kmeans_round (Some <$> ps) (Some <$> ls) index = Ok (Some <$> ls', index', changes) /\
    length ls' = length ls /\
    forall (i : nat) (l : Pixel), ls !! i = Some l ->
      exists l' : Pixel, ls' !! i = Some l' /\
        (members index ps (Z.of_nat i) = [] -> l' = l) /\
        (members index ps (Z.of_nat i) <> [] ->
         Pixels_Average (Some <$> members index ps (Z.of_nat i)) = Ok (Some l')).
Proof.
  intros Hps Hls0 Hne Hrun.
  destruct (in_run_invariant ps ls0 ls index Hps Hls0 Hne Hrun) as (Hls & Hnel & Hassign).
  eexists _, _, _. split; [by apply kmeans_round_values|].
  split; [apply round_centers_length|].
  intros i l Hl. exists (update_center l (members index ps (Z.of_nat i))).
  split; [by apply round_centers_lookup|]. split.
  - by intros ->.
  - intros Hg. rewrite Average_nonempty by done.
    by destruct (members index ps (Z.of_nat i)).
Qed.

(** ** The initial centers and the first assignment *)

Lemma NewPixelHSV_Some (h s v : float) : NewPixelHSV h s v = Some (pixelHSV h s v).
Proof. unfold NewPixelHSV, pixelHSV. apply NewPixelRGB_Some. Qed.

Lemma pixelHSV_wf (h s v : float) : wf_pixel (pixelHSV h s v).
Proof.
  unfold pixelHSV, HSV2RGBA.
  destruct (if (_ <? 1)%float then _ else _) as [[r g] b].
  rewrite FloatRGBA_channels. repeat split; apply round_channel_range.
Qed.

Lemma kmeans_init_values (k : Z) :
  0 <= k -> kmeans_init k = Ok (Some <$> initial_centers k).
Proof.
  intros Hk. unfold kmeans_init, slice_make.
  destruct (Z.ltb_spec k 0); [lia|]. cbn [bind].
  set (vs := Some <$> initial_centers k).
  set (acc := replicate (Z.to_nat k) (@None Pixel)).
  assert (length acc = Z.to_nat k) as Hacc by (unfold acc; by rewrite length_replicate).
  assert (length vs = Z.to_nat k) as Hvs
    by (unfold vs, initial_centers; by rewrite !length_fmap, upto_length).
  rewrite <- (filled_start vs acc) at 1.
  rewrite (for_each_states _ _ (filled vs acc)).
  - f_equal. rewrite upto_length. by apply filled_end.
  - intros j i Hj. apply upto_lookup in Hj as [-> Hj]. simpl.
    rewrite slice_store_nat by (rewrite filled_length; lia).
    f_equal. apply filled_step; [lia|].
    unfold vs, initial_centers. rewrite !list_lookup_fmap.
    rewrite (proj2 (upto_lookup k j (Z.of_nat j))) by done.
    simpl. by rewrite NewPixelHSV_Some.
Qed.

Lemma initial_centers_wf (k : Z) : Forall wf_pixel (initial_centers k).
Proof. apply Forall_fmap, Forall_forall. intros i _. apply pixelHSV_wf. Qed.

Lemma kmeans_from_start (ls ps : list Pixel) (itr : Z) :
  kmeans_from (Some <$> ls) (Some <$> ps) itr
  = kmeans_iterate (Z.to_nat itr) (Some <$> ps) (Some <$> ls)
      ((fun pix => nearest pix ls) <$> ps).
Proof.
  unfold kmeans_from. rewrite slice_make_len. cbn [bind].
  rewrite (for_each_fill (fun x => closest x (Some <$> ls))
             (fun pix => from_option (fun px => nearest px ls) 0 pix)).
  - cbn [bind]. by rewrite <- list_fmap_compose.
  - by rewrite length_replicate.
  - intros x Hx. apply list_elem_of_fmap in Hx as (px & -> & _).
    apply closest_value.
Qed.

(** [kmeans] is the iteration from the initial centers and the first
    assignment, and an iteration that goes on is a round followed by the
    iteration from the state the round leaves: the states of [in_run]. *)
Lemma kmeans_start (ps : list Pixel) (op : Option) :
  0 <= ForegroundNum op - 1 ->
  kmeans (Some <$> ps) op
  = kmeans_iterate (Z.to_nat (KMeansIterations op)) (Some <$> ps)
      (Some <$> initial_centers (ForegroundNum op - 1))
      ((fun pix => nearest pix (initial_centers (ForegroundNum op - 1))) <$> ps).
Proof.
  intros Hk. unfold kmeans. rewrite kmeans_init_values by done. cbn [bind].
  apply kmeans_from_start.
Qed.

Lemma kmeans_iterate_round (n : nat) (ps ls : list Pixel) (index : list Z) :
  assignment index ps (len ls) ->
  kmeans_iterate (S n) (Some <$> ps) (Some <$> ls) index
  = if count_changes index ((fun pix => nearest pix (round_centers ps ls index)) <$> ps) =? 0
    then Ok (Some <$> round_centers ps ls index)
    else kmeans_iterate n (Some <$> ps) (Some <$> round_centers ps ls index)
           ((fun pix => nearest pix (round_centers ps ls index)) <$> ps).
Proof.
  intros Hassign. cbn [kmeans_iterate]. by rewrite kmeans_round_values.
Qed.

(** ** kmeans with one center *)










(** ** Most and the background colour *)

Lemma range_order_empty : range_order ∅ = [].
Proof using range_order_perm.
  apply Permutation_nil_r. rewrite range_order_perm. by rewrite map_to_list_empty.
Qed.

Lemma Most_empty : Pixels_Most [] = Ok (Some (pixelRGB 0 0 0)).
Proof using range_order_perm.
  unfold Pixels_Most. cbn [for_each bind]. rewrite range_order_empty.
  vm_compute. reflexivity.
Qed.

Lemma Most_returns_pixel (p : Pixels) (col : option Pixel) :
  Pixels_Most p = Ok col -> is_Some col.
Proof.
  unfold Pixels_Most. destruct (for_each _ _ p) as [counter| |]; [|done|done].
  cbn [bind]. destruct (foldl _ _ _) as [max val].
  destruct (UnPack val) as [[r g] b]. rewrite NewPixelRGB_Some.
  intros [= <-]. by eexists.
Qed.

Lemma createSample_none (p : Pixels) : createSample p 0 = Ok [].
Proof. reflexivity. Qed.

(** C10.  [Most] of an empty buffer does not fail: it returns the black
    pixel (R = G = B = 0, and so H = S = V = 0).  So the background
    selection on an empty sample, as a sampling count of zero or an
    image without pixels gives, returns black whenever the shift is
    valid, and no error. *)
Theorem Most_empty_is_black :
  exists black : Pixel,
    Pixels_Most [] = Ok (Some black) /\
    pxR black = 0 /\ pxG black = 0 /\ pxB black = 0 /\
    black = mkPixel 0 0 0 0 0 0 /\
    (forall p : Pixels, createSample p 0 = Ok []) /\
    (forall img : Image, Dx (Bounds img) = 0 -> convertPixels img = Ok []) /\
    (forall op : Option, Shift op < 8 -> getBackgroundColor [] op = Ok (Some black)).
Proof using range_order_perm.
  exists (pixelRGB 0 0 0). split; [apply Most_empty|].
  repeat split.
  - intros img H. unfold convertPixels. by rewrite H.
  - intros op Hs. unfold getBackgroundColor.
    pose proof (Quantize_values [] (Shift op) Hs) as Hq.
    change (Some <$> []) with (@nil (option Pixel)) in Hq. rewrite Hq.
    cbn [bind fmap list_fmap]. by rewrite Most_empty.
Qed.

(** ** The errors a call can return *)

Lemma returns_only_Ok {A : Type} P (a : A) : returns_only P (Ok a).
Proof. by intros e H. Qed.

Lemma returns_only_Panic {A : Type} P (p : panic) : returns_only P (@Panic A p).
Proof. by intros e H. Qed.

Lemma returns_only_bind {A B : Type} P (c : result A) (k : A -> result B) :
  returns_only P c -> (forall a, returns_only P (k a)) -> returns_only P (bind c k).
Proof.
  intros Hc Hk e. destruct c as [a|e'|p]; simpl; [apply Hk| |done].
  intros [= ->]. by apply Hc.
Qed.

Lemma returns_only_for_each {A St : Type} P (body : St -> A -> result St) st l :
  (forall st x, returns_only P (body st x)) -> returns_only P (for_each body st l).
Proof.
  intros Hbody. revert st; induction l as [|x l IH]; intros st; simpl.
  - apply returns_only_Ok.
  - apply returns_only_bind; [apply Hbody|apply IH].
Qed.

Lemma returns_only_weaken {A : Type} (P : error -> Prop) (c : result A) :
  returns_only no_error c -> returns_only P c.
Proof. intros H e He. by destruct (H e He). Qed.

Lemma deref_no_error {A : Type} P (p : option A) : returns_only P (deref p).
Proof. destruct p; [apply returns_only_Ok|apply returns_only_Panic]. Qed.

Lemma slice_index_no_error {A : Type} P (s : list A) i : returns_only P (slice_index s i).
Proof.
  unfold slice_index. destruct (i <? 0); [apply returns_only_Panic|].
  destruct (s !! Z.to_nat i); [apply returns_only_Ok|apply returns_only_Panic].
Qed.

Lemma slice_store_no_error {A : Type} P (s : list A) i v :
  returns_only P (slice_store s i v).
Proof.
  unfold slice_store. destruct (_ || _); [apply returns_only_Panic|apply returns_only_Ok].
Qed.

Lemma slice_make_no_error {A : Type} P (zero : A) n : returns_only P (slice_make zero n).
Proof.
  unfold slice_make. destruct (n <? 0); [apply returns_only_Panic|apply returns_only_Ok].
Qed.

(** The steps that settle [returns_only] on the calls of the package. *)
Ltac returns_only_step :=
  match goal with
  | |- forall _, _ => intro
  | |- returns_only _ (Ok _) => apply returns_only_Ok
  | |- returns_only _ (Panic _) => apply returns_only_Panic
  | |- returns_only _ (bind _ _) => apply returns_only_bind
  | |- returns_only _ (for_each _ _ _) => apply returns_only_for_each
  | |- returns_only _ (deref _) => apply deref_no_error
  | |- returns_only _ (slice_index _ _) => apply slice_index_no_error
  | |- returns_only _ (slice_store _ _ _) => apply slice_store_no_error
  | |- returns_only _ (slice_make _ _) => apply slice_make_no_error
  | |- returns_only _ (match ?x with (_, _) => _ end) => destruct x
  | |- returns_only _ (if ?b then _ else _) => destruct b
  | |- returns_only _ ?c =>
      match c with
      | context [match ?x with (_, _) => _ end] => is_var x; destruct x
      end
  end.

Ltac returns_only_auto := repeat returns_only_step.

Lemma closest_no_error p labels : returns_only no_error (closest p labels).
Proof.
  unfold closest, Pixel_DistanceRGB. returns_only_auto.
Qed.

Lemma getForegroundMask_no_error p bg op :
  returns_only no_error (getForegroundMask p bg op).
Proof. unfold getForegroundMask, Pixel_DistanceHSV. returns_only_auto. Qed.

Lemma kmeans_no_error p op : returns_only no_error (kmeans p op).
Proof.
  assert (forall n p labels index, returns_only no_error (kmeans_iterate n p labels index))
    as Hiter.
  { induction n as [|n IH]; intros p' labels index; simpl; [apply returns_only_Ok|].
    apply returns_only_bind.
    - unfold kmeans_round, kmeans_groups, kmeans_update, kmeans_reassign.
      returns_only_auto; try apply closest_no_error.
      destruct (Pixels_Average _) as [[newLabel|]|e|pn]; returns_only_auto.
    - intros [[labels' index'] changes]. destruct (changes =? 0); [apply returns_only_Ok|].
      apply IH. }
  unfold kmeans, kmeans_init, kmeans_from.
  returns_only_auto; try apply closest_no_error. apply Hiter.
Qed.

Lemma apply_no_error data bg labels op : returns_only no_error (apply data bg labels op).
Proof.
  unfold apply. returns_only_auto;
    try apply closest_no_error; try apply getForegroundMask_no_error.
Qed.

Lemma Most_no_error p : returns_only no_error (Pixels_Most p).
Proof.
  unfold Pixels_Most, Pack. returns_only_auto.
Qed.

Lemma Quantize_only_shift p s : returns_only (eq ErrShiftOver8) (Pixels_Quantize p s).
Proof.
  unfold Pixels_Quantize. destruct (8 <=? s); [by intros e [= <-]|].
  apply returns_only_weaken. returns_only_auto.
Qed.

Lemma ToImage_no_error p cols rows : returns_only no_error (Pixels_ToImage p cols rows).
Proof. unfold Pixels_ToImage. returns_only_auto. Qed.

Lemma convertPixels_no_error img : returns_only no_error (convertPixels img).
Proof. unfold convertPixels. returns_only_auto. Qed.

Lemma createSample_no_error p num : returns_only no_error (createSample p num).
Proof. unfold createSample. returns_only_auto. Qed.

Lemma setGIFPalette_no_error bg fg : returns_only no_error (setGIFPalette bg fg).
Proof. unfold setGIFPalette. returns_only_auto. Qed.

(** The only error [Shrink] returns is the one of [Quantize]. *)
Lemma Shrink_only_shift img op : returns_only (eq ErrShiftOver8) (Shrink img op).
Proof.
  unfold Shrink, createPalette, getBackgroundColor.
  repeat first
    [ apply Quantize_only_shift
    | apply returns_only_weaken;
      first [ apply convertPixels_no_error | apply createSample_no_error
            | apply Most_no_error | apply getForegroundMask_no_error
            | apply kmeans_no_error | apply apply_no_error
            | apply setGIFPalette_no_error | apply ToImage_no_error ]
    | returns_only_step ].
Qed.

(** ** The traversal of an image *)

Lemma for_each_nested {A B St : Type} (body : A -> St -> B -> result St)
    (inner : list B) st (outer : list A) :
  for_each (fun st x => for_each (body x) st inner) st outer
  = for_each (fun st xy => body xy.1 st xy.2) st (outer ≫= fun x => pair x <$> inner).
Proof.
  revert st; induction outer as [|x outer IH]; intros st; [done|].
  rewrite bind_cons, for_each_app, for_each_fmap. simpl.
  destruct (for_each (body x) st inner); simpl; auto.
Qed.

Lemma traversal_elem (cols rows x y : Z) :
  (x, y) ∈ traversal cols rows <-> (0 <= x < cols) /\ (0 <= y < rows).
Proof.
  unfold traversal, upto. rewrite list_elem_of_bind. split.
  - intros (col & Hxy & Hcol). apply list_elem_of_fmap in Hxy as (row & [= -> ->] & Hrow).
    apply elem_of_seqZ in Hcol, Hrow. lia.
  - intros [Hx Hy]. exists x. split; [|apply elem_of_seqZ; lia].
    apply list_elem_of_fmap. exists y. split; [done|apply elem_of_seqZ; lia].
Qed.

Lemma traversal_NoDup (cols rows : Z) : NoDup (traversal cols rows).
Proof.
  unfold traversal, upto. apply NoDup_bind.
  - intros x1 x2 [x y] _ _ H1 H2.
    apply list_elem_of_fmap in H1 as (? & [= -> _] & _).
    by apply list_elem_of_fmap in H2 as (? & [= -> _] & _).
  - intros x _. apply NoDup_fmap_2; [|apply NoDup_seqZ]. by intros y1 y2 [= ->].
  - apply NoDup_seqZ.
Qed.

Lemma traversal_length (cols rows : Z) :
  0 <= cols -> 0 <= rows -> Z.of_nat (length (traversal cols rows)) = cols * rows.
Proof.
  intros Hc Hr. unfold traversal, upto.
  assert (forall l : list Z,
            Z.of_nat (length (l ≫= fun col => pair col <$> seqZ 0 rows))
            = Z.of_nat (length l) * rows) as H.
  { induction l as [|c l IH]; [done|].
    rewrite bind_cons, length_app, length_fmap, length_seqZ. simpl length. lia. }
  rewrite H, length_seqZ. lia.
Qed.

Lemma convertPixels_values (img : Image) :
  0 <= Dx (Bounds img) -> 0 <= Dy (Bounds img) ->
  convertPixels img = Ok (scanned img).
Proof.
  intros Hc Hr. unfold convertPixels, slice_make.
  set (cols := Dx (Bounds img)) in *. set (rows := Dy (Bounds img)) in *.
  destruct (Z.ltb_spec (cols * rows) 0); [lia|]. cbn [bind].
  rewrite (for_each_nested
    (fun col '(idx, rtn) row =>
       do rtn <- slice_store rtn idx (NewPixel (At img col row)); Ok (idx + 1, rtn))).
  fold (traversal cols rows).
  set (acc := replicate (Z.to_nat (cols * rows)) (@None Pixel)).
  pose proof (traversal_length cols rows Hc Hr) as Hlen.
  assert (length acc = length (traversal cols rows)) as Hacc
    by (unfold acc; rewrite length_replicate; lia).
  assert (length (scanned img) = length (traversal cols rows)) as Hvs
    by (unfold scanned; by rewrite length_fmap).
  pose (sts := fun k : nat => (Z.of_nat k, filled (scanned img) acc k)).
  replace (0, acc) with (sts O) by (unfold sts; by rewrite filled_start).
  rewrite (for_each_states _ _ sts).
  - unfold sts. cbn [bind]. f_equal. apply filled_end; lia.
  - intros k [x y] Hk. unfold sts. simpl.
    rewrite slice_store_nat by (rewrite filled_length; [|lia]; apply lookup_lt_Some in Hk; lia).
    cbn [bind]. f_equal. f_equal; [lia|].
    apply filled_step; [lia|]. unfold scanned.
    rewrite list_lookup_fmap. fold cols rows. by rewrite Hk.
Qed.

Lemma RGBASet_Rect (img : RGBAImage) (x y : Z) (c : RGBA) :
  Rect (RGBASet img x y c) = Rect img.
Proof. unfold RGBASet. by destruct (point_in x y (Rect img)). Qed.

Lemma painted_Rect (img : RGBAImage) cps : Rect (painted img cps) = Rect img.
Proof.
  induction cps as [|cp cps IH] using rev_ind; [done|].
  unfold painted. rewrite foldl_app. simpl. by rewrite RGBASet_Rect.
Qed.

Lemma RGBAAt_Set_same (img : RGBAImage) (x y : Z) (c : RGBA) :
  point_in x y (Rect img) = true -> RGBAAt (RGBASet img x y c) x y = c.
Proof.
  intros Hin. unfold RGBAAt, RGBASet. rewrite Hin. simpl. rewrite Hin.
  by rewrite lookup_insert_eq.
Qed.

Lemma RGBAAt_Set_other (img : RGBAImage) (x y x' y' : Z) (c : RGBA) :
  (x, y) <> (x', y') -> RGBAAt (RGBASet img x y c) x' y' = RGBAAt img x' y'.
Proof.
  intros Hne. unfold RGBAAt, RGBASet.
  destruct (point_in x y (Rect img)); [|done]. simpl.
  by rewrite lookup_insert_ne.
Qed.

Lemma painted_lookup (img : RGBAImage) (cps : list ((Z * Z) * Pixel))
    (j : nat) (x y : Z) (pix : Pixel) :
  NoDup cps.*1 -> point_in x y (Rect img) = true ->
  cps !! j = Some ((x, y), pix) ->
  RGBAAt (painted img cps) x y = Pixel_Color pix.
Proof.
  revert j. induction cps as [|cp cps IH] using rev_ind; intros j Hnd Hin Hj; [done|].
  unfold painted. rewrite foldl_app. simpl. fold (painted img cps).
  rewrite fmap_app in Hnd. apply NoDup_app in Hnd as (Hnd & Hfresh & _).
  apply lookup_app_Some in Hj as [Hj|[_ Hj]].
  - rewrite RGBAAt_Set_other; [by eapply IH|].
    destruct cp as [[x' y'] pix']. simpl. intros [= -> ->].
    apply (Hfresh (x, y)); [|by left].
    apply list_elem_of_fmap. exists (x, y, pix). split; [done|].
    by eapply list_elem_of_lookup_2.
  - apply list_lookup_singleton_Some in Hj as [_ ->]. simpl.
    apply RGBAAt_Set_same. by rewrite painted_Rect.
Qed.

Lemma ToImage_values (pxs : list Pixel) (cols rows : Z) :
  length pxs = length (traversal cols rows) ->
  Pixels_ToImage (Some <$> pxs) cols rows
  = Ok (painted (image_NewRGBA (image_Rect 0 0 cols rows)) (zip (traversal cols rows) pxs)).
Proof.
  intros Hlen. unfold Pixels_ToImage.
  rewrite (for_each_nested
    (fun col '(idx, img) row =>
       do pix <- slice_index (Some <$> pxs) idx;
       do pix <- deref pix;
       Ok (idx + 1, RGBASet img col row (Pixel_Color pix)))).
  fold (traversal cols rows).
  set (img0 := image_NewRGBA (image_Rect 0 0 cols rows)).
  set (cps := zip (traversal cols rows) pxs).
  pose (sts := fun k : nat => (Z.of_nat k, painted img0 (take k cps))).
  change (0, img0) with (sts O).
  rewrite (for_each_states _ _ sts).
  - unfold sts. cbn [bind]. f_equal. f_equal. apply take_ge.
    unfold cps. rewrite length_zip_with. lia.
  - intros k [x y] Hk. unfold sts. simpl.
    destruct (lookup_lt_is_Some_2 pxs k) as [pix Hpix].
    { apply lookup_lt_Some in Hk. lia. }
    rewrite (slice_index_nat _ k (Some pix)) by (by rewrite list_lookup_fmap, Hpix).
    cbn [bind deref]. f_equal. f_equal; [lia|].
    rewrite (take_S_r cps k (x, y, pix)).
    + unfold painted. by rewrite foldl_app.
    + unfold cps. apply lookup_zip_with_Some. by exists (x, y), pix.
Qed.

(** ** From an image to the buffer and back *)

Lemma scanned_converted (img : Image) :
  (forall x y, 0 <= x < Dx (Bounds img) -> 0 <= y < Dy (Bounds img) ->
     exists c, convertColor (At img x y) = Ok c) ->
  scanned img = Some <$> (converted img <$> traversal (Dx (Bounds img)) (Dy (Bounds img))).
Proof.
  intros Hconv. unfold scanned. rewrite <- list_fmap_compose.
  apply list_fmap_ext. intros j [x y] Hj. simpl.
  apply list_elem_of_lookup_2, traversal_elem in Hj as [Hx Hy].
  destruct (Hconv x y Hx Hy) as [c Hc].
  unfold NewPixel, converted. simpl. rewrite Hc. apply NewPixelRGB_Some.
Qed.

Lemma image_Rect_origin (cols rows : Z) :
  0 <= cols -> 0 <= rows -> image_Rect 0 0 cols rows = mkRect 0 0 cols rows.
Proof.
  intros Hc Hr. unfold image_Rect.
  destruct (Z.ltb_spec cols 0), (Z.ltb_spec rows 0); (lia || done).
Qed.

Lemma roundtrip_points (img : Image) :
  0 <= Dx (Bounds img) -> 0 <= Dy (Bounds img) ->
  (forall x y, 0 <= x < Dx (Bounds img) -> 0 <= y < Dy (Bounds img) ->
     exists c, convertColor (At img x y) = Ok c) ->
  exists out : RGBAImage,
    (do data <- convertPixels img;
     Pixels_ToImage data (Dx (Bounds img)) (Dy (Bounds img))) = Ok out /\
    Rect out = mkRect 0 0 (Dx (Bounds img)) (Dy (Bounds img)) /\
    forall x y, 0 <= x < Dx (Bounds img) -> 0 <= y < Dy (Bounds img) ->
      exists c, convertColor (At img x y) = Ok c /\
                RGBAAt out x y = mkRGBA (cR c) (cG c) (cB c) 255.
Proof.
  intros Hc Hr Hconv.
  set (cols := Dx (Bounds img)) in *. set (rows := Dy (Bounds img)) in *.
  rewrite convertPixels_values by done. cbn [bind].
  rewrite scanned_converted by done. fold cols rows.
  set (pxs := converted img <$> traversal cols rows).
  assert (length pxs = length (traversal cols rows)) as Hlen
    by (unfold pxs; by rewrite length_fmap).
  rewrite ToImage_values by done.
  eexists. split; [done|].
  rewrite painted_Rect. unfold image_NewRGBA. cbn [Rect].
  rewrite image_Rect_origin by done. split; [done|].
  intros x y Hx Hy. destruct (Hconv x y Hx Hy) as [c Hcol]. exists c. split; [done|].
  assert ((x, y) ∈ traversal cols rows) as Hin by (by apply traversal_elem).
  apply list_elem_of_lookup in Hin as [j Hj].
  rewrite (painted_lookup _ _ j x y (converted img (x, y))).
  - unfold converted. simpl. by rewrite Hcol.
  - rewrite fst_zip by lia. apply traversal_NoDup.
  - unfold point_in. simpl.
    destruct (Z.leb_spec 0 x), (Z.ltb_spec x cols), (Z.leb_spec 0 y), (Z.ltb_spec y rows);
      (lia || done).
  - apply lookup_zip_with_Some. exists (x, y), (converted img (x, y)).
    split; [done|]. split; [done|]. unfold pxs. by rewrite list_lookup_fmap, Hj.
Qed.

Lemma point_in_origin (x y : Z) (r : Rectangle) :
  MinX r = 0 -> MinY r = 0 ->
  point_in x y r = true <-> (0 <= x < Dx r) /\ (0 <= y < Dy r).
Proof.
  intros HX HY. unfold point_in, Dx, Dy. rewrite HX, HY, !Z.sub_0_r.
  rewrite !andb_true_iff, !Z.leb_le, !Z.ltb_lt. lia.
Qed.

(** The round trip of an image through the buffer.  (C6, amended to
    images whose bounds start at the origin and to the three colour
    channels.)  For every source image whose bounds start at the origin
    and whose pixels all convert, [convertPixels] succeeds, [ToImage] of
    its buffer with the width and height of the image succeeds, and the
    image it builds has the bounds of the source and, at every point,
    the R, G and B of the source pixel after its conversion to RGBA with
    alpha 255: the very colour of the source wherever the source is
    opaque. *)
Theorem pixels_roundtrip (img : Image) :
  MinX (Bounds img) = 0 -> MinY (Bounds img) = 0 ->
  0 <= MaxX (Bounds img) -> 0 <= MaxY (Bounds img) ->
  (forall x y, point_in x y (Bounds img) = true ->
     exists c, convertColor (At img x y) = Ok c) ->
  exists (data : Pixels) (out : RGBAImage),
    convertPixels img = Ok data /\
    Pixels_ToImage data (Dx (Bounds img)) (Dy (Bounds img)) = Ok out /\
    Rect out = Bounds img /\
    forall x y, point_in x y (Bounds img) = true ->
      exists c, convertColor (At img x y) = Ok c /\
                RGBAAt out x y = mkRGBA (cR c) (cG c) (cB c) 255 /\
                (cA c = 255 -> RGBAAt out x y = c).
Proof.
  intros HX HY HmaxX HmaxY Hconv.
  assert (0 <= Dx (Bounds img)) as Hc by (unfold Dx; lia).
  assert (0 <= Dy (Bounds img)) as Hr by (unfold Dy; lia).
  destruct (roundtrip_points img Hc Hr) as (out & Hout & Hrect & Hat).
  { intros x y Hx Hy. apply Hconv. by apply point_in_origin. }
  rewrite convertPixels_values in Hout by done. cbn [bind] in Hout.
  exists (scanned img), out. split; [by apply convertPixels_values|].
  split; [done|]. split.
  - rewrite Hrect. destruct (Bounds img) as [x0 y0 x1 y1]. unfold Dx, Dy. simpl in *.
    subst. by rewrite !Z.sub_0_r.
  - intros x y Hin. apply point_in_origin in Hin as [Hx Hy]; [|done|done].
    destruct (Hat x y Hx Hy) as (c & Hcol & Hv). exists c.
    split; [done|]. split; [done|]. intros HA. rewrite Hv. destruct c; simpl in *. by subst.
Qed.

(** ** A colour that does not convert *)

Lemma getForegroundMask_nil (p : Pixels) (bg : option Pixel) (op : Option) :
  None ∈ p -> getForegroundMask p bg op = Panic NilDereference.
Proof.
  intros Hnil. unfold getForegroundMask. rewrite slice_make_len. cbn [bind].
  apply (for_each_panics (fun st => length st = length p)).
  - by rewrite length_replicate.
  - intros st [i pix] Hst Hin. apply enumerate_elem in Hin as [Hi Hpix].
    destruct pix as [pix|]; [|by right]. destruct bg as [bg|]; [|by right].
    left. simpl. rewrite <- (Z2Nat.id i) by done.
    rewrite slice_store_nat by (apply lookup_lt_Some in Hpix; lia).
    eexists. split; [done|]. by rewrite length_insert.
  - apply list_elem_of_lookup in Hnil as [k Hk].
    exists (Z.of_nat k, None). split; [|done].
    apply list_elem_of_lookup. exists k. by apply enumerate_lookup.
Qed.

Lemma apply_nil (data : Pixels) (bg : option Pixel) (labels : Pixels) (op : Option) :
  None ∈ data -> apply data bg labels op = Panic NilDereference.
Proof. intros H. unfold apply. by rewrite getForegroundMask_nil. Qed.

Lemma scanned_nil (img : Image) (x y : Z) (e : error) :
  0 <= x < Dx (Bounds img) -> 0 <= y < Dy (Bounds img) ->
  convertColor (At img x y) = Err e -> None ∈ scanned img.
Proof.
  intros Hx Hy He. unfold scanned. apply list_elem_of_fmap. exists (x, y).
  split; [|by apply traversal_elem]. unfold NewPixel. simpl. by rewrite He.
Qed.

Lemma Shrink_not_Ok (img : Image) (op : option Option) (x y : Z) (e : error) :
  0 <= x < Dx (Bounds img) -> 0 <= y < Dy (Bounds img) ->
  convertColor (At img x y) = Err e ->
  forall r, Shrink img op <> Ok r.
Proof.
  intros Hx Hy He r. unfold Shrink.
  rewrite convertPixels_values by lia. cbn [bind].
  destruct (createSample _ _) as [samples| |]; [|done|done]. cbn [bind].
  destruct (createPalette _ _) as [[bg palette]| |]; [|done|done]. cbn [bind].
  by rewrite (apply_nil _ _ _ _ (scanned_nil img x y e Hx Hy He)).
Qed.

(** C4, on the code.  [Shrink] never returns the error of an
    unsupported colour: the only error it returns is the one of the
    shift.  On an image with a pixel that does not convert,
    [convertPixels] stores a nil pixel and returns no error, and the
    run never returns an image: it ends in a panic (at the latest the
    nil dereference of [getForegroundMask] under [apply]) or, for a
    shift of 8 or more, in the error of the shift.  On the image of one
    pixel of type [color.Gray], with the default options, it ends in
    the panic of the nil dereference. *)
Theorem Shrink_unsupported_color_panics :
  (forall (img : Image) (op : option Option) (e : error),
     Shrink img op = Err e -> kind_of e <> UnsupportedColorFormat) /\
  (forall (img : Image) (op : option Option) (x y : Z),
     0 <= x < Dx (Bounds img) -> 0 <= y < Dy (Bounds img) ->
     convertColor (At img x y) = Err ErrNotSupportedColor ->
     (exists pn, Shrink img op = Panic pn) \/ Shrink img op = Err ErrShiftOver8) /\
  (forall y : Z,
     convertColor (ColorGray y) = Err ErrNotSupportedColor /\
     convertPixels (mkImage (mkRect 0 0 1 1) (fun _ _ => ColorGray y)) = Ok [None] /\
     Shrink (mkImage (mkRect 0 0 1 1) (fun _ _ => ColorGray y)) None
     = Panic NilDereference).
Proof.
  split; [|split].
  - intros img op e He. apply Shrink_only_shift in He as <-. done.
  - intros img op x y Hx Hy He.
    destruct (Shrink img op) as [r|e|pn] eqn:HS.
    + by destruct (Shrink_not_Ok img op x y _ Hx Hy He r).
    + right. by apply Shrink_only_shift in HS as <-.
    + left. by exists pn.
  - intros y. split; [done|]. split; [done|].
    unfold Shrink. change (convertPixels _) with (@Ok Pixels [None]). cbn [bind].
    change (int_of_float _) with 0.
    rewrite createSample_none. cbn [bind].
    unfold createPalette.
    destruct (getBackgroundColor [] (default DefaultOption None)) as [bg| |] eqn:Hbg.
    + cbn [bind]. change (getForegroundMask [] bg _) with (@Ok (list bool) []).
      cbn [bind enumerate zip_with for_each].
      destruct (kmeans [] (default DefaultOption None)) as [labels| |] eqn:Hk.
      * reflexivity.
      * by vm_compute in Hk.
      * by vm_compute in Hk.
    + exfalso. revert Hbg. unfold getBackgroundColor.
      change (Pixels_Quantize [] _) with (@Ok Pixels []). cbn [bind].
      destruct (Pixels_Most []) as [a|e0|pn] eqn:HM; simpl; [done| |done].
      by apply (Most_no_error [] e0) in HM.
    + exfalso. revert Hbg. unfold getBackgroundColor.
      change (Pixels_Quantize [] _) with (@Ok Pixels []). cbn [bind].
      unfold Pixels_Most. cbn [for_each bind]. destruct (foldl _ _ _) as [max val].
      by destruct (UnPack val) as [[r g] b].
Qed.

(** * More of the package *)

(** ** Pack and UnPack *)

Lemma uint8_high_bits (v n : Z) : is_uint8 v -> 8 <= n -> Z.testbit v n = false.
Proof.
  clear. intros [H0 H1] Hn. destruct (Z.eq_dec v 0) as [->|Hv]; [apply Z.bits_0|].
  apply Z.bits_above_log2; [done|].
  assert (Z.log2 v < 8); [|lia]. apply Z.log2_lt_pow2; lia.
Qed.

Lemma lor_disjoint_add (a b : Z) : Z.land a b = 0 -> Z.lor a b = a + b.
Proof.
  clear. intros H. rewrite <- Z.lxor_lor by done. symmetry. by apply Z.add_nocarry_lxor.
Qed.

Lemma packed_value (r g b : Z) :
  is_uint8 r -> is_uint8 g -> is_uint8 b ->
  Z.lor (Z.lor (Z.shiftl r 16) (Z.shiftl g 8)) b = r * 65536 + g * 256 + b.
Proof.
  clear. intros Hr Hg Hb.
  assert (Z.land (Z.shiftl r 16) (Z.shiftl g 8) = 0) as H1.
  { apply Z.bits_inj'. intros n Hn. rewrite Z.land_spec, Z.bits_0.
    destruct (Z.lt_ge_cases n 16).
    - rewrite (Z.shiftl_spec_low r) by done. done.
    - rewrite (Z.shiftl_spec g) by done.
      rewrite (uint8_high_bits g) by (done || lia). apply andb_false_r. }
  rewrite (lor_disjoint_add _ _ H1).
  assert (Z.land (Z.shiftl r 16 + Z.shiftl g 8) b = 0) as H2.
  { rewrite <- (lor_disjoint_add _ _ H1).
    apply Z.bits_inj'. intros n Hn. rewrite Z.land_spec, Z.lor_spec, Z.bits_0.
    destruct (Z.lt_ge_cases n 8).
    - rewrite !Z.shiftl_spec_low by lia. done.
    - rewrite (uint8_high_bits b) by (done || lia). apply andb_false_r. }
  rewrite (lor_disjoint_add _ _ H2).
  rewrite !Z.shiftl_mul_pow2 by lia. reflexivity.
Qed.

Lemma UnPack_packed (r g b : Z) :
  is_uint8 r -> is_uint8 g -> is_uint8 b ->
  UnPack (r * 65536 + g * 256 + b) = (r, g, b).
Proof.
  clear. unfold is_uint8, UnPack. intros Hr Hg Hb.
  change 255 with (Z.ones 8). rewrite !Z.land_ones, !Z.shiftr_div_pow2 by lia.
  change (2 ^ 16) with 65536. change (2 ^ 8) with 256.
  f_equal; [f_equal|]; Z.div_mod_to_equations; lia.
Qed.

(** [UnPack] undoes [Pack].  For every pixel with channels in range
    [Pack] returns an integer below 2^24 from which [UnPack] gives the
    three channels back, two such pixels pack to the same integer only
    when they have the same colour, and whatever the integer the three
    values [UnPack] returns are in the range of a [uint8]. *)
Theorem UnPack_Pack (p q : Pixel) :
  wf_pixel p -> wf_pixel q ->
  exists v w : Z,
    Pack (Some p) = Ok v /\ Pack (Some q) = Ok w /\
    0 <= v < 2 ^ 24 /\
    UnPack v = rgb_of p /\
    (v = w <-> rgb_of p = rgb_of q) /\
    forall z : Z,
      is_uint8 (UnPack z).1.1 /\ is_uint8 (UnPack z).1.2 /\ is_uint8 (UnPack z).2.
Proof.
  intros (HR & HG & HB) (HR' & HG' & HB').
  exists (pxR p * 65536 + pxG p * 256 + pxB p), (pxR q * 65536 + pxG q * 256 + pxB q).
  split; [unfold Pack; cbn [deref bind]; by rewrite packed_value|].
  split; [unfold Pack; cbn [deref bind]; by rewrite packed_value|].
  split; [unfold is_uint8 in *; lia|].
  split; [by apply UnPack_packed|]. split.
  - unfold rgb_of. split.
    + intros H. unfold is_uint8 in *.
      assert (pxR p = pxR q /\ pxG p = pxG q /\ pxB p = pxB q) as (-> & -> & ->) by lia.
      done.
    + by intros [= -> -> ->].
  - intros z. unfold UnPack, is_uint8. simpl.
    change 255 with (Z.ones 8). rewrite !Z.land_ones by lia.
    repeat split; apply Z.mod_pos_bound; lia.
Qed.

(** The order of [Sort].  Over pixels with channels in range the
    comparison of [Sort] is the strict order of the sums R + G + B: it
    never panics inside the buffer, no pixel is below itself, and two
    pixels of equal sum are below each other in neither direction. *)
Theorem Sort_less_by_sum (ps : list Pixel) (i j : nat) (a b : Pixel) :
  Forall wf_pixel ps -> ps !! i = Some a -> ps !! j = Some b ->
  Sort_less (Some <$> ps) (Z.of_nat i) (Z.of_nat j)
  = Ok (pxR a + pxG a + pxB a <? pxR b + pxG b + pxB b) /\
  Sort_less (Some <$> ps) (Z.of_nat i) (Z.of_nat i) = Ok false /\
  (pxR a + pxG a + pxB a = pxR b + pxG b + pxB b ->
   Sort_less (Some <$> ps) (Z.of_nat i) (Z.of_nat j) = Ok false /\
   Sort_less (Some <$> ps) (Z.of_nat j) (Z.of_nat i) = Ok false).
Proof.
  intros Hwf Ha Hb.
  assert (forall (n m : nat) (x y : Pixel), ps !! n = Some x -> ps !! m = Some y ->
            Sort_less (Some <$> ps) (Z.of_nat n) (Z.of_nat m)
            = Ok (pxR x + pxG x + pxB x <? pxR y + pxG y + pxB y)) as Hless.
  { intros n m x y Hx Hy. unfold Sort_less.
    rewrite (slice_index_nat _ n (Some x)) by (by rewrite list_lookup_fmap, Hx).
    cbn [bind].
    destruct (Forall_lookup_1 _ _ _ _ Hwf Hx) as (HR & HG & HB).
    destruct (Forall_lookup_1 _ _ _ _ Hwf Hy) as (HR' & HG' & HB').
    unfold Pack. cbn [deref bind]. rewrite packed_value by done. cbn [bind].
    rewrite (slice_index_nat _ m (Some y)) by (by rewrite list_lookup_fmap, Hy).
    cbn [bind deref]. rewrite packed_value by done. cbn [bind].
    pose proof (UnPack_packed _ _ _ HR HG HB) as Hx'.
    pose proof (UnPack_packed _ _ _ HR' HG' HB') as Hy'.
    unfold UnPack in Hx', Hy'. injection Hx' as -> -> ->. injection Hy' as -> -> ->.
    done. }
  split; [by apply Hless|]. split.
  - rewrite (Hless i i a a) by done. by rewrite Z.ltb_irrefl.
  - intros Heq. rewrite (Hless i j a b), (Hless j i b a) by done.
    rewrite Heq, Z.ltb_irrefl. done.
Qed.

(** ** The distance in RGB space *)

(** The RGB distance is symmetric, it is zero exactly between pixels of
    the same colour, and between pixels with channels in range it is at
    most 3 * 255 * 255; a nil argument panics. *)
Theorem DistanceRGB_metric (p q : Pixel) :
  Pixel_DistanceRGB p (Some q) = Pixel_DistanceRGB q (Some p) /\
  (Pixel_DistanceRGB p (Some q) = Ok 0 <-> rgb_of p = rgb_of q) /\
  (wf_pixel p -> wf_pixel q ->
   exists d, Pixel_DistanceRGB p (Some q) = Ok d /\ 0 <= d <= 195075) /\
  Pixel_DistanceRGB p None = Panic NilDereference.
Proof.
  assert (forall a b : Pixel, Pixel_DistanceRGB a (Some b) = Ok (distRGB a b)) as Hd
    by (intros a b; reflexivity).
  rewrite !Hd. split; [|split; [|split; [|done]]].
  - apply (f_equal Ok). unfold distRGB. ring.
  - unfold rgb_of, distRGB. split.
    + intros [= H].
      pose proof (Z.square_nonneg (pxR q - pxR p)) as H1.
      pose proof (Z.square_nonneg (pxG q - pxG p)) as H2.
      pose proof (Z.square_nonneg (pxB q - pxB p)) as H3.
      assert ((pxR q - pxR p) * (pxR q - pxR p) = 0) as H1' by lia.
      assert ((pxG q - pxG p) * (pxG q - pxG p) = 0) as H2' by lia.
      assert ((pxB q - pxB p) * (pxB q - pxB p) = 0) as H3' by lia.
      apply Z.eq_mul_0 in H1', H2', H3'.
      f_equal; [f_equal|]; lia.
    + intros [= -> -> ->]. apply (f_equal Ok). ring.
  - intros (HR & HG & HB) (HR' & HG' & HB'). eexists. split; [done|]. unfold distRGB.
    pose proof (square_diff_bound _ _ HR HR').
    pose proof (square_diff_bound _ _ HG HG').
    pose proof (square_diff_bound _ _ HB HB').
    lia.
Qed.

(** ** closest *)

(** The center [closest] chooses.  Among no center it answers -1.
    Among at least one center (pixels with channels in range) it
    answers the index of a center at minimal distance, and of the first
    one: every center before it is strictly farther. *)
Theorem closest_first_nearest (p : Pixel) (ls : list Pixel) :
  wf_pixel p -> Forall wf_pixel ls ->
  exists i : Z,
    closest (Some p) (Some <$> ls) = Ok i /\
    (ls = [] -> i = -1) /\
    (ls <> [] ->
     exists c : Pixel,
       0 <= i < len ls /\ ls !! Z.to_nat i = Some c /\
       forall (j : nat) (c' : Pixel), ls !! j = Some c' ->
         distRGB p c <= distRGB p c' /\ (Z.of_nat j < i -> distRGB p c < distRGB p c')).
Proof.
  intros Hp Hls. exists (nearest p ls). split; [apply closest_value|]. split.
  - by intros ->.
  - intros Hne. by apply nearest_spec.
Qed.

(** ** The rounding of FloatRGBA and the greys of RGB2HSV *)

Lemma round_channel_integers (v : Z) :
  is_uint8 v ->
  round_channel (float64_of_Z v) = v /\
  round_channel (float64_of_Z v + 0.5) = Z.min (v + 1) 255 /\
  round_channel (next_down (float64_of_Z v + 0.5)) = (if v =? 0 then 1 else v).
Proof.
  intros Hv.
  assert ((round_channel (float64_of_Z v) =? v)
          && (round_channel (float64_of_Z v + 0.5) =? Z.min (v + 1) 255)
          && (round_channel (next_down (float64_of_Z v + 0.5))
              =? (if v =? 0 then 1 else v)) = true) as H.
  { apply (uint8_enum (fun v =>
      (round_channel (float64_of_Z v) =? v)
      && (round_channel (float64_of_Z v + 0.5) =? Z.min (v + 1) 255)
      && (round_channel (next_down (float64_of_Z v + 0.5))
          =? (if v =? 0 then 1 else v)))); [|done].
    vm_compute. reflexivity. }
  apply andb_true_iff in H as [H H3]. apply andb_true_iff in H as [H1 H2].
  by rewrite Z.eqb_eq in H1, H2, H3.
Qed.

(** The rounding of [FloatRGBA].  A channel that is an integer of the
    range comes back as it is; the integer plus one half is rounded up,
    but never above 255; the float just below the half is rounded down,
    except the one just below 0.5, whose sum with 0.5 is 1 in float64
    and which comes back as 1.  The alpha is 255. *)
Theorem FloatRGBA_rounds_half_up (r g b : Z) :
  is_uint8 r -> is_uint8 g -> is_uint8 b ->
  FloatRGBA (float64_of_Z r) (float64_of_Z g) (float64_of_Z b) = mkRGBA r g b 255 /\
  FloatRGBA (float64_of_Z r + 0.5) (float64_of_Z g + 0.5) (float64_of_Z b + 0.5)
  = mkRGBA (Z.min (r + 1) 255) (Z.min (g + 1) 255) (Z.min (b + 1) 255) 255 /\
  FloatRGBA (next_down (float64_of_Z r + 0.5)) (next_down (float64_of_Z g + 0.5))
            (next_down (float64_of_Z b + 0.5))
  = mkRGBA (if r =? 0 then 1 else r) (if g =? 0 then 1 else g)
           (if b =? 0 then 1 else b) 255.
Proof.
  intros Hr Hg Hb. rewrite !FloatRGBA_channels. unfold UIntRGBA.
  destruct (round_channel_integers r Hr) as (-> & -> & ->).
  destruct (round_channel_integers g Hg) as (-> & -> & ->).
  destruct (round_channel_integers b Hb) as (-> & -> & ->).
  done.
Qed.

Lemma uint8_enum_Prop (P : Z -> Prop) :
  Forall P (seqZ 0 256) -> forall v, is_uint8 v -> P v.
Proof.
  clear. intros H v Hv. rewrite Forall_forall in H. apply H.
  apply elem_of_seqZ. unfold is_uint8 in Hv. lia.
Qed.

Lemma RGB2HSV_grey (v : Z) :
  is_uint8 v ->
  RGB2HSV v v v = (0%float, 0%float, (float64_of_Z v / float64_of_Z 255)%float).
Proof.
  clear. revert v. apply uint8_enum_Prop.
  vm_compute seqZ. repeat (apply Forall_cons; split; [vm_compute; reflexivity|]).
  constructor.
Qed.

(** The greys.  A pixel built from three equal channels has hue 0,
    saturation 0 and value v / 255; so between a grey background and a
    grey pixel the saturation distance is 0 and, for a positive
    saturation threshold, the pixel is foreground exactly when the
    difference of the two values reaches the brightness threshold. *)
Theorem grey_pixels (a b : Z) (op : Option) :
  is_uint8 a -> is_uint8 b ->
  NewPixelRGB a a a
  = Some (mkPixel a a a 0 0 (float64_of_Z a / float64_of_Z 255)) /\
  foreground op (pixelRGB a a a) (pixelRGB b b b)
  = (Brightness op <=?
       math_Abs (float64_of_Z a / float64_of_Z 255 - float64_of_Z b / float64_of_Z 255))%float
    || (Saturation op <=? 0)%float.
Proof.
  clear. intros Ha Hb. split.
  - unfold NewPixelRGB. by rewrite RGB2HSV_grey.
  - unfold foreground, pixelRGB. cbn [pxV pxS].
    by rewrite !RGB2HSV_grey.
Qed.

(** ** A nil pixel in a buffer *)

Lemma closest_nil (labels : Pixels) : labels <> [] -> closest None labels = Panic NilDereference.
Proof.
  intros Hne. unfold closest. destruct labels as [|l labels]; [done|].
  unfold upto, len. simpl length.
  rewrite Nat2Z.inj_succ, seqZ_cons by lia. done.
Qed.

Lemma Quantize_nil (p : Pixels) (s : Z) :
  s < 8 -> None ∈ p -> Pixels_Quantize p s = Panic NilDereference.
Proof.
  intros Hs Hnil. unfold Pixels_Quantize. destruct (Z.leb_spec 8 s); [lia|].
  rewrite slice_make_len. cbn [bind].
  apply (for_each_panics (fun st => length st = length p)).
  - by rewrite length_replicate.
  - intros st [i pix] Hst Hin. apply enumerate_elem in Hin as [Hi Hpix].
    destruct pix as [pix|]; [|by right].
    left. simpl. rewrite <- (Z2Nat.id i) by done.
    rewrite slice_store_nat by (apply lookup_lt_Some in Hpix; lia).
    eexists. split; [done|]. by rewrite length_insert.
  - apply list_elem_of_lookup in Hnil as [k Hk].
    exists (Z.of_nat k, None). split; [|done].
    apply list_elem_of_lookup. exists k. by apply enumerate_lookup.
Qed.

Lemma Most_nil (p : Pixels) : None ∈ p -> Pixels_Most p = Panic NilDereference.
Proof.
  intros Hnil. unfold Pixels_Most.
  rewrite (for_each_panics (fun _ => True) _ p ∅ NilDereference); [done|done| |].
  - intros st [pix|] _ _; [left; eexists; by split|by right].
  - by exists None.
Qed.

Lemma Average_nil (p : Pixels) : None ∈ p -> Pixels_Average p = Panic NilDereference.
Proof.
  intros Hnil. unfold Pixels_Average.
  destruct (Z.eqb_spec (len p) 0) as [H0|H0].
  { destruct p; [by apply elem_of_nil in Hnil|]. unfold len in H0. simpl in H0. lia. }
  rewrite (for_each_panics (fun _ => True) _ p _ NilDereference); [done|done| |].
  - intros [[r g] b] [pix|] _ _; [left; eexists; by split|by right].
  - exists None. split; [done|]. by intros [[r g] b].
Qed.

Lemma kmeans_nil (p : Pixels) (op : Option) :
  1 <= ForegroundNum op - 1 -> None ∈ p -> kmeans p op = Panic NilDereference.
Proof.
  intros Hk Hnil. unfold kmeans. rewrite kmeans_init_values by lia. cbn [bind].
  unfold kmeans_from. rewrite slice_make_len. cbn [bind].
  assert (Some <$> initial_centers (ForegroundNum op - 1) <> []) as Hne.
  { intros H. apply (f_equal length) in H.
    unfold initial_centers in H. rewrite !length_fmap, upto_length in H. simpl in H. lia. }
  rewrite (for_each_panics (fun st => length st = length p) _ _ _ NilDereference);
    [done|by rewrite length_replicate| |].
  - intros st [i pix] Hst Hin. apply enumerate_elem in Hin as [Hi Hpix].
    destruct pix as [pix|]; [|right; by rewrite closest_nil].
    left. rewrite closest_value. cbn [bind]. rewrite <- (Z2Nat.id i) by done.
    rewrite slice_store_nat by (apply lookup_lt_Some in Hpix; lia).
    eexists. split; [done|]. by rewrite length_insert.
  - apply list_elem_of_lookup in Hnil as [n Hn].
    exists (Z.of_nat n, None). split.
    + apply list_elem_of_lookup. exists n. by apply enumerate_lookup.
    + intros st. by rewrite closest_nil.
Qed.

(** A nil pixel in a buffer.  Whatever else the buffer holds, [Most],
    [Average], [Quantize] at a shift below 8, [getForegroundMask],
    [apply] and [kmeans] with at least one center end in the panic of a
    nil dereference; no check turns the nil pixel of an unsupported
    colour into an error. *)
Theorem nil_pixel_panics (p : Pixels) :
  None ∈ p ->
  Pixels_Most p = Panic NilDereference /\
  Pixels_Average p = Panic NilDereference /\
  (forall s, s < 8 -> Pixels_Quantize p s = Panic NilDereference) /\
  (forall bg op, getForegroundMask p bg op = Panic NilDereference) /\
  (forall bg labels op, apply p bg labels op = Panic NilDereference) /\
  (forall op, 1 <= ForegroundNum op - 1 -> kmeans p op = Panic NilDereference).
Proof.
  intros Hnil. split; [by apply Most_nil|]. split; [by apply Average_nil|].
  split; [intros s Hs; by apply Quantize_nil|].
  split; [intros bg op; by apply getForegroundMask_nil|].
  split; [intros bg labels op; by apply apply_nil|].
  intros op Hk. by apply kmeans_nil.
Qed.

(** ** createSample *)

Lemma createSample_values (p : Pixels) (num : Z) :
  (forall (i : nat) (n : Z), 0 < n -> 0 <= rand_Intn i n < n) ->
  0 <= num -> p <> [] \/ num = 0 ->
  exists samples : Pixels,
    createSample p num = Ok samples /\
    len samples = num /\
    (forall k : nat, Z.of_nat k < num ->
       samples !! k = p !! Z.to_nat (rand_Intn k (len p))) /\
    (forall x, x ∈ samples -> x ∈ p).
Proof.
  intros Hrand Hnum Hne.
  set (vs := (fun k : Z => default None (p !! Z.to_nat (rand_Intn (Z.to_nat k) (len p))))
               <$> upto num).
  assert (length vs = Z.to_nat num) as Hvs by (unfold vs; by rewrite length_fmap, upto_length).
  assert (forall k : nat, Z.of_nat k < num ->
            p <> [] /\ vs !! k = Some (default None (p !! Z.to_nat (rand_Intn k (len p))))
            /\ is_Some (p !! Z.to_nat (rand_Intn k (len p)))) as Hk.
  { intros k Hlt. destruct Hne as [Hne| ->]; [|lia]. split; [done|]. split.
    - unfold vs. rewrite list_lookup_fmap.
      rewrite (proj2 (upto_lookup num k (Z.of_nat k))) by done. simpl.
      by rewrite Nat2Z.id.
    - apply lookup_lt_is_Some_2.
      assert (0 < len p) as Hp by (destruct p; [done|unfold len; simpl; lia]).
      specialize (Hrand k (len p) Hp). unfold len in *. lia. }
  exists vs. split; [|split; [unfold len; lia|split]].
  + unfold createSample, slice_make. destruct (Z.ltb_spec num 0); [lia|]. cbn [bind].
    set (acc := replicate (Z.to_nat num) (@None Pixel)).
    assert (length acc = Z.to_nat num) as Hacc by (unfold acc; by rewrite length_replicate).
    rewrite <- (filled_start vs acc) at 1.
    rewrite (for_each_states _ _ (filled vs acc)).
    * f_equal. rewrite upto_length. by apply filled_end.
    * intros k i Hi. apply upto_lookup in Hi as [-> Hlt].
      destruct (Hk k Hlt) as (Hp & Hv & [x Hx]).
      assert (0 < len p) as Hlen by (destruct p; [done|unfold len; simpl; lia]).
      destruct (Z.leb_spec (len p) 0); [lia|]. cbn [bind].
      rewrite Nat2Z.id.
      pose proof (Hrand k (len p) Hlen) as Hr.
      rewrite <- (Z2Nat.id (rand_Intn k (len p))) at 1 by lia.
      rewrite (slice_index_nat _ _ x Hx). cbn [bind].
      rewrite slice_store_nat by (rewrite filled_length; lia).
      f_equal. apply filled_step; [lia|]. rewrite Hx in Hv. exact Hv.
  + intros k Hlt. destruct (Hk k Hlt) as (_ & Hv & [x Hx]).
    rewrite Hx in Hv. rewrite Hx. exact Hv.
  + intros x Hx. apply list_elem_of_lookup in Hx as [k Hx].
    assert (Z.of_nat k < num) as Hlt by (apply lookup_lt_Some in Hx; lia).
    destruct (Hk k Hlt) as (_ & Hv & [y Hy]).
    rewrite Hv, Hy in Hx. injection Hx as <-. by eapply list_elem_of_lookup_2.
Qed.

(** The sampling.  With draws in range, a negative count panics in
    [make], a positive count over an empty buffer panics in [rand.Intn],
    and otherwise the sample has exactly [num] elements, the element at
    [k] being the one of the buffer at the [k]-th draw: every element of
    the sample is an element of the buffer, repetitions included. *)
Theorem createSample_draws (p : Pixels) (num : Z) :
  (forall (i : nat) (n : Z), 0 < n -> 0 <= rand_Intn i n < n) ->
  (num < 0 -> createSample p num = Panic MakeSliceLen) /\
  (0 < num -> p = [] -> createSample p num = Panic IntnArgument) /\
  (0 <= num -> p <> [] \/ num = 0 ->
   exists samples : Pixels,
     createSample p num = Ok samples /\
     len samples = num /\
     (forall k : nat, Z.of_nat k < num ->
        samples !! k = p !! Z.to_nat (rand_Intn k (len p))) /\
     (forall x, x ∈ samples -> x ∈ p)).
Proof.
  intros Hrand. split; [|split].
  - intros Hneg. unfold createSample, slice_make. by destruct (Z.ltb_spec num 0); [|lia].
  - intros Hpos ->. unfold createSample, slice_make.
    destruct (Z.ltb_spec num 0); [lia|]. cbn [bind].
    destruct (upto num) as [|i l] eqn:Hu; [|done].
    apply (f_equal length) in Hu. rewrite upto_length in Hu. simpl in Hu. lia.
  - by apply createSample_values.
Qed.

(** ** setGIFPalette *)

Lemma setGIFPalette_values (bg : Pixel) (ls : list Pixel) :
  setGIFPalette (Some bg) (Some <$> ls) = Ok (Pixel_Color bg :: (Pixel_Color <$> ls)).
Proof.
  unfold setGIFPalette, slice_make.
  assert (len (Some <$> ls) = len ls) as -> by (unfold len; by rewrite length_fmap).
  destruct (Z.ltb_spec (len ls + 1) 0); [unfold len in *; lia|]. cbn [bind deref].
  set (vs := Pixel_Color bg :: (Pixel_Color <$> ls)).
  set (acc := replicate (Z.to_nat (len ls + 1)) (mkRGBA 0 0 0 0)).
  assert (length acc = S (length ls)) as Hacc
    by (unfold acc, len; rewrite length_replicate; lia).
  assert (length vs = S (length ls)) as Hvs by (unfold vs; simpl; by rewrite length_fmap).
  change 0 with (Z.of_nat O) at 1.
  rewrite slice_store_nat by lia. cbn [bind].
  rewrite <- (filled_start vs acc) at 1.
  rewrite (filled_step vs acc O (Pixel_Color bg)) by (done || lia).
  rewrite (for_each_states _ _ (fun k => filled vs acc (S k))).
  - f_equal. rewrite enumerate_length, length_fmap. apply filled_end; lia.
  - intros k [i x] Hk. apply enumerate_lookup in Hk as [-> Hx].
    rewrite list_lookup_fmap in Hx. destruct (ls !! k) as [px|] eqn:Hpx; [|done].
    injection Hx as <-. cbn [deref bind].
    replace (Z.of_nat k + 1) with (Z.of_nat (S k)) by lia.
    rewrite slice_store_nat by (rewrite filled_length by lia; apply lookup_lt_Some in Hpx; lia).
    f_equal. apply filled_step; [lia|].
    unfold vs. simpl. by rewrite list_lookup_fmap, Hpx.
Qed.

(** The palette of the GIF.  From a background and centers that are not
    nil the palette is the colour of the background followed by the
    colours of the centers in their order, all opaque, one colour more
    than there are centers; a nil background panics. *)
Theorem setGIFPalette_order (bg : Pixel) (ls : list Pixel) :
  exists palette : list RGBA,
    setGIFPalette (Some bg) (Some <$> ls) = Ok palette /\
    len palette = len ls + 1 /\
    palette !! O = Some (mkRGBA (pxR bg) (pxG bg) (pxB bg) 255) /\
    (forall (i : nat) (c : Pixel), ls !! i = Some c ->
       palette !! S i = Some (mkRGBA (pxR c) (pxG c) (pxB c) 255)) /\
    setGIFPalette None (Some <$> ls) = Panic NilDereference.
Proof.
  exists (Pixel_Color bg :: (Pixel_Color <$> ls)).
  split; [apply setGIFPalette_values|].
  split; [unfold len; simpl; rewrite length_fmap; lia|].
  split; [done|]. split.
  - intros i c Hc. simpl. by rewrite list_lookup_fmap, Hc.
  - unfold setGIFPalette, slice_make.
    by destruct (Z.ltb_spec (len (Some <$> ls) + 1) 0); [unfold len in *; lia|].
Qed.


(** ** The layout of the buffer *)

Lemma bind_lookup_uniform {A B : Type} (f : A -> list B) (n : nat) (l : list A)
    (i j : nat) (x : A) :
  (forall a, length (f a) = n) -> l !! i = Some x -> (j < n)%nat ->
  (l ≫= f) !! (i * n + j)%nat = f x !! j.
Proof.
  clear. intros Hlen. revert i. induction l as [|a l IH]; intros i Hi Hj; [done|].
  rewrite bind_cons. destruct i as [|i].
  - injection Hi as ->. simpl. by rewrite lookup_app_l by (rewrite Hlen; lia).
  - simpl in Hi. rewrite lookup_app_r by (rewrite Hlen; lia).
    rewrite Hlen. replace (S i * n + j - n)%nat with (i * n + j)%nat by lia.
    by apply IH.
Qed.

Lemma traversal_lookup (cols rows col row : Z) :
  0 <= col < cols -> 0 <= row < rows ->
  traversal cols rows !! Z.to_nat (col * rows + row) = Some (col, row).
Proof.
  clear. intros Hc Hr. unfold traversal.
  assert (0 <= col * rows) as Hcr by nia.
  rewrite Z2Nat.inj_add, Z2Nat.inj_mul by lia.
  rewrite (bind_lookup_uniform _ (Z.to_nat rows) _ _ _ col).
  - rewrite list_lookup_fmap.
    rewrite (proj2 (upto_lookup rows (Z.to_nat row) row)) by lia. done.
  - intros a. by rewrite length_fmap, upto_length.
  - apply upto_lookup. lia.
  - lia.
Qed.

(** The layout of the buffer.  For an image of [cols] x [rows] points
    the buffer has [cols * rows] entries, and the entry at
    [col * rows + row] is the pixel of the colour the image answers at
    [(col, row)]: the columns follow one another, each with its rows in
    order.  The coordinates run from 0, whatever the minimum of the
    bounds is.  (The number of points is taken within the range of
    [int], where the product of the source does not wrap.) *)
Theorem convertPixels_layout (img : Image) :
  0 <= Dx (Bounds img) -> 0 <= Dy (Bounds img) ->
  Dx (Bounds img) * Dy (Bounds img) < 2 ^ 63 ->
  exists data : Pixels,
    convertPixels img = Ok data /\
    len data = Dx (Bounds img) * Dy (Bounds img) /\
    forall col row, 0 <= col < Dx (Bounds img) -> 0 <= row < Dy (Bounds img) ->
      data !! Z.to_nat (col * Dy (Bounds img) + row) = Some (NewPixel (At img col row)).
Proof.
  intros Hc Hr _. exists (scanned img). split; [by apply convertPixels_values|]. split.
  - unfold scanned, len. rewrite length_fmap. by apply traversal_length.
  - intros col row Hcol Hrow. unfold scanned.
    etrans; [apply list_lookup_fmap|]. by rewrite traversal_lookup.
Qed.

(** ** The length of the buffer in ToImage *)

Lemma ToImage_loop (pxs : list Pixel) (rest : Pixels) (pts : list (Z * Z))
    (img0 : RGBAImage) :
  (length pts <= length pxs)%nat ->
  for_each (fun st xy =>
              (fun col '(idx, img) row =>
                 do pix <- slice_index ((Some <$> pxs) ++ rest) idx;
                 do pix <- deref pix;
                 Ok (idx + 1, RGBASet img col row (Pixel_Color pix))) xy.1 st xy.2)
           (0, img0) pts
  = Ok (len pts, painted img0 (zip pts pxs)).
Proof.
  intros Hlen.
  set (cps := zip pts pxs).
  pose (sts := fun k : nat => (Z.of_nat k, painted img0 (take k cps))).
  change (0, img0) with (sts O).
  rewrite (for_each_states _ _ sts).
  - unfold sts, len. rewrite take_ge; [done|].
    unfold cps. rewrite length_zip_with. lia.
  - intros k [x y] Hk. unfold sts. simpl.
    destruct (lookup_lt_is_Some_2 pxs k) as [pix Hpix].
    { apply lookup_lt_Some in Hk. lia. }
    rewrite (slice_index_nat _ k (Some pix)).
    2:{ rewrite lookup_app_l by (rewrite length_fmap; by eapply lookup_lt_Some).
        by rewrite list_lookup_fmap, Hpix. }
    cbn [bind deref]. f_equal. f_equal; [lia|].
    rewrite (take_S_r cps k (x, y, pix)).
    + unfold painted. by rewrite foldl_app.
    + unfold cps. apply lookup_zip_with_Some. by exists (x, y), pix.
Qed.

(** The length of the buffer [ToImage] is given.  A buffer of pixels
    shorter than [cols * rows] ends in the panic of an index out of
    range; with [cols * rows] pixels the image is produced with the
    rectangle from the origin, and whatever follows these pixels in the
    buffer is not read.  (The raster is taken within the size
    [image.NewRGBA] accepts: four bytes a point within the range of
    [int].) *)
Theorem ToImage_buffer_length (pxs : list Pixel) (rest : Pixels) (cols rows : Z) :
  0 <= cols -> 0 <= rows -> 4 * (cols * rows) < 2 ^ 63 ->
  (len pxs < cols * rows ->
   Pixels_ToImage (Some <$> pxs) cols rows = Panic IndexOutOfRange) /\
  (len pxs = cols * rows ->
   exists out : RGBAImage,
     Pixels_ToImage (Some <$> pxs) cols rows = Ok out /\
     Pixels_ToImage ((Some <$> pxs) ++ rest) cols rows = Ok out /\
     Rect out = mkRect 0 0 cols rows).
Proof.
  intros Hc Hr _. pose proof (traversal_length cols rows Hc Hr) as Htl. split.
  - intros Hshort. unfold Pixels_ToImage.
    rewrite (for_each_nested
      (fun col '(idx, img) row =>
         do pix <- slice_index (Some <$> pxs) idx;
         do pix <- deref pix;
         Ok (idx + 1, RGBASet img col row (Pixel_Color pix)))).
    fold (traversal cols rows).
    rewrite <- (take_drop (length pxs) (traversal cols rows)).
    rewrite for_each_app.
    rewrite <- (app_nil_r (Some <$> pxs)).
    rewrite ToImage_loop by (rewrite length_take; lia).
    cbn [bind].
    destruct (drop (length pxs) (traversal cols rows)) as [|[x y] tl] eqn:Hd.
    { apply (f_equal length) in Hd. rewrite length_drop in Hd. simpl in Hd.
      unfold len in Hshort. lia. }
    cbn [for_each bind fst snd].
    assert (len (take (length pxs) (traversal cols rows)) = Z.of_nat (length pxs)) as ->.
    { unfold len. rewrite length_take. unfold len in Hshort. lia. }
    unfold slice_index. destruct (Z.ltb_spec (Z.of_nat (length pxs)) 0); [lia|].
    rewrite Nat2Z.id, app_nil_r.
    by rewrite (proj2 (lookup_ge_None _ _)) by (by rewrite length_fmap).
  - intros Hfull.
    assert (length pxs = length (traversal cols rows)) as Hlen by (unfold len in Hfull; lia).
    exists (painted (image_NewRGBA (image_Rect 0 0 cols rows)) (zip (traversal cols rows) pxs)).
    split; [by apply ToImage_values|]. split.
    + unfold Pixels_ToImage.
      rewrite (for_each_nested
        (fun col '(idx, img) row =>
           do pix <- slice_index ((Some <$> pxs) ++ rest) idx;
           do pix <- deref pix;
           Ok (idx + 1, RGBASet img col row (Pixel_Color pix)))).
      fold (traversal cols rows).
      by rewrite ToImage_loop by lia.
    + rewrite painted_Rect. unfold image_NewRGBA. cbn [Rect].
      by apply image_Rect_origin.
Qed.

(** ** The centers kmeans returns *)

Lemma members_elem {A : Type} (index : list Z) (p : list A) (i : Z) (x : A) :
  x ∈ members index p i -> x ∈ p.
Proof.
  clear. unfold members. intros H. apply list_elem_of_fmap in H as [[j y] [-> H]].
  apply list_elem_of_filter in H as [_ H]. simpl. by eapply elem_of_zip_r.
Qed.

Lemma kmeans_iterate_total (n : nat) (ps ls0 ls : list Pixel) (index : list Z) :
  Forall wf_pixel ps -> Forall wf_pixel ls -> ls <> [] ->
  assignment index ps (len ls) ->
  length ls = length ls0 ->
  (forall (i : nat) (c : Pixel), ls !! i = Some c ->
     ls0 !! i = Some c \/
     exists g, g <> [] /\ (forall x, x ∈ g -> x ∈ ps) /\ c = average_of g) ->
  exists ls' : list Pixel,
    kmeans_iterate n (Some <$> ps) (Some <$> ls) index = Ok (Some <$> ls') /\
    length ls' = length ls0 /\ Forall wf_pixel ls' /\
    forall (i : nat) (c : Pixel), ls' !! i = Some c ->
      ls0 !! i = Some c \/
      exists g, g <> [] /\ (forall x, x ∈ g -> x ∈ ps) /\ c = average_of g.
Proof.
  intros Hps. revert ls index.
  induction n as [|n IH]; intros ls index Hls Hne Hasg Hlen Hfrom.
  - by exists ls.
  - rewrite kmeans_iterate_round by done.
    set (ls1 := round_centers ps ls index).
    assert (Forall wf_pixel ls1) as Hwf1 by (by apply round_centers_wf).
    assert (length ls1 = length ls) as Hlen1 by apply round_centers_length.
    assert (forall (i : nat) (c : Pixel), ls1 !! i = Some c ->
              ls0 !! i = Some c \/
              exists g, g <> [] /\ (forall x, x ∈ g -> x ∈ ps) /\ c = average_of g)
      as Hfrom1.
    { intros i c Hc. destruct (ls !! i) as [l|] eqn:Hl.
      - unfold ls1 in Hc. rewrite (round_centers_lookup _ _ _ _ l Hl) in Hc.
        injection Hc as <-.
        destruct (members index ps (Z.of_nat i)) as [|m g] eqn:Hm.
        + simpl. by apply Hfrom.
        + right. exists (m :: g). split; [done|]. split; [|done].
          intros x Hx. rewrite <- Hm in Hx. by eapply members_elem.
      - apply lookup_lt_Some in Hc. apply lookup_ge_None in Hl. lia. }
    destruct (_ =? 0).
    + exists ls1. split; [done|]. split; [lia|]. by split.
    + apply IH; try done.
      * intros Hnil. rewrite Hnil in Hlen1. destruct ls; [done|]. simpl in Hlen1. lia.
      * apply assignment_nearest; try done.
        intros Hnil. rewrite Hnil in Hlen1. destruct ls; [done|]. simpl in Hlen1. lia.
      * lia.
Qed.

Lemma initial_centers_length (k : Z) : length (initial_centers k) = Z.to_nat k.
Proof. clear. unfold initial_centers. by rewrite length_fmap, upto_length. Qed.

Lemma kmeans_centers (ps : list Pixel) (op : Option) :
  Forall wf_pixel ps -> 2 <= ForegroundNum op ->
  exists ls : list Pixel,
    kmeans (Some <$> ps) op = Ok (Some <$> ls) /\
    len ls = ForegroundNum op - 1 /\
    Forall wf_pixel ls /\
    forall (i : nat) (c : Pixel), ls !! i = Some c ->
      initial_centers (ForegroundNum op - 1) !! i = Some c \/
      exists g, g <> [] /\ (forall x, x ∈ g -> x ∈ ps) /\ c = average_of g.
Proof.
  intros Hps Hk. rewrite kmeans_start by lia.
  set (ls0 := initial_centers (ForegroundNum op - 1)).
  assert (length ls0 = Z.to_nat (ForegroundNum op - 1)) as Hl0
    by apply initial_centers_length.
  assert (ls0 <> []) as Hne by (intros H0; rewrite H0 in Hl0; simpl in Hl0; lia).
  destruct (kmeans_iterate_total (Z.to_nat (KMeansIterations op)) ps ls0 ls0
              ((fun pix => nearest pix ls0) <$> ps)) as (ls & Hrun & Hlen & Hwf & Hfrom);
    try done.
  - apply initial_centers_wf.
  - apply assignment_nearest; try done. apply initial_centers_wf.
  - by left.
  - exists ls. split; [done|]. split; [unfold len; lia|]. by split.
Qed.

(** The centers [kmeans] returns.  For a buffer of pixels, empty or
    not, and at least two colours asked for, [kmeans] returns, whatever
    the number of rounds, exactly [ForegroundNum - 1] centers with
    channels in range, and each of them is either the initial center of
    its position or the [Average] of a non-empty group of pixels of the
    buffer. *)
Theorem kmeans_returns_centers (ps : list Pixel) (op : Option) :
  Forall wf_pixel ps -> 2 <= ForegroundNum op ->
  exists ls : list Pixel,
    kmeans (Some <$> ps) op = Ok (Some <$> ls) /\
    len ls = ForegroundNum op - 1 /\
    Forall wf_pixel ls /\
    forall (i : nat) (c : Pixel), ls !! i = Some c ->
      initial_centers (ForegroundNum op - 1) !! i = Some c \/
      exists g, g <> [] /\ (forall x, x ∈ g -> x ∈ ps) /\
                Pixels_Average (Some <$> g) = Ok (Some c).
Proof.
  intros Hps Hk. destruct (kmeans_centers ps op Hps Hk) as (ls & Hrun & Hlen & Hwf & Hfrom).
  exists ls. split; [done|]. split; [done|]. split; [done|].
  intros i c Hc. destruct (Hfrom i c Hc) as [Hi|(g & Hg & Hin & ->)]; [by left|].
  right. exists g. split; [done|]. split; [done|]. by apply Average_nonempty.
Qed.

Lemma round_centers_empty (ls : list Pixel) : round_centers [] ls [] = ls.
Proof.
  apply list_eq. intros i. destruct (ls !! i) as [l|] eqn:Hl.
  - by rewrite (round_centers_lookup _ _ _ _ l Hl).
  - apply lookup_ge_None. rewrite round_centers_length. by apply lookup_ge_None.
Qed.

(** The edges of [kmeans].  With no colour or fewer asked for, [make]
    panics on the negative number of centers.  With at least one, an
    empty buffer, or a number of rounds that is not positive, gives the
    initial centers back.  With exactly one colour there is no center:
    a buffer of pixels that is not empty then panics in the first round,
    on the group of index -1. *)
Theorem kmeans_edges (op : Option) :
  (ForegroundNum op <= 0 -> forall p, kmeans p op = Panic MakeSliceLen) /\
  (1 <= ForegroundNum op ->
   kmeans [] op = Ok (Some <$> initial_centers (ForegroundNum op - 1))) /\
  (1 <= ForegroundNum op -> KMeansIterations op <= 0 ->
   forall ps : list Pixel,
     kmeans (Some <$> ps) op = Ok (Some <$> initial_centers (ForegroundNum op - 1))) /\
  (ForegroundNum op = 1 -> 1 <= KMeansIterations op ->
   forall ps : list Pixel, ps <> [] ->
     kmeans (Some <$> ps) op = Panic IndexOutOfRange).
Proof.
  split; [|split; [|split]].
  - intros Hk p. unfold kmeans, kmeans_init, slice_make.
    by destruct (Z.ltb_spec (ForegroundNum op - 1) 0); [|lia].
  - intros Hk. change (@nil (option Pixel)) with (Some <$> @nil Pixel).
    rewrite kmeans_start by lia.
    destruct (Z.to_nat (KMeansIterations op)) as [|n]; [done|].
    rewrite kmeans_iterate_round by (split; [done|constructor]).
    by rewrite round_centers_empty.
  - intros Hk Hitr ps. rewrite kmeans_start by lia.
    by replace (Z.to_nat (KMeansIterations op)) with O by lia.
  - intros Hk Hitr ps Hne. rewrite kmeans_start by lia. rewrite Hk.
    destruct (Z.to_nat (KMeansIterations op)) as [|n] eqn:Hn; [lia|].
    destruct ps as [|p0 ps]; [done|].
    change (initial_centers (1 - 1)) with (@nil Pixel).
    cbn [kmeans_iterate]. unfold kmeans_round, kmeans_groups.
    unfold enumerate, len. cbn [fmap list_fmap length].
    rewrite Nat2Z.inj_succ, seqZ_cons by lia.
    cbn [zip_with slice_make bind for_each]. by rewrite nearest_empty.
Qed.


(** ** The most frequent colour *)

Lemma Most_scan (ps : list Pixel) :
  Pixels_Most (Some <$> ps)
  = (let '(max, val) := most_scan (range_order (counter_of ps)) in
     let '(r, g, b) := UnPack val in
     Ok (NewPixelRGB r g b)).
Proof.
  unfold Pixels_Most. rewrite for_each_fmap.
  by rewrite (for_each_pure _
    (fun m q => <[packed q := default 0 (m !! packed q) + 1]> m)).
Qed.

Lemma counter_of_lookup (ps : list Pixel) (v : Z) :
  counter_of ps !! v
  = (if decide (filter (fun q => packed q = v) ps = []) then None
     else Some (len (filter (fun q => packed q = v) ps))).
Proof.
  clear. induction ps as [|q ps IH] using rev_ind; [done|].
  unfold counter_of. rewrite foldl_app. simpl. fold (counter_of ps).
  rewrite filter_app. destruct (decide (packed q = v)) as [Hv|Hne].
  - rewrite Hv, lookup_insert_eq, IH. rewrite (filter_cons_True _ q) by done.
    rewrite filter_nil.
    destruct (decide (filter (fun q0 => packed q0 = v) ps = [])) as [Hf|Hf].
    + by rewrite Hf.
    + rewrite decide_False by (intros H; by apply app_eq_nil in H as [H _]).
      simpl. f_equal. unfold len. rewrite length_app. simpl. lia.
  - rewrite lookup_insert_ne by done. rewrite IH.
    rewrite (filter_cons_False _ q) by done. by rewrite filter_nil, app_nil_r.
Qed.

Lemma most_scan_max (l : list (Z * Z)) :
  (forall k c, (k, c) ∈ l -> 0 < c) -> l <> [] ->
  ((most_scan l).2, (most_scan l).1) ∈ l /\
  forall k c, (k, c) ∈ l -> c <= (most_scan l).1.
Proof.
  clear. intros Hpos Hne.
  assert ((l = [] /\ most_scan l = (0, 0)) \/
          (((most_scan l).2, (most_scan l).1) ∈ l /\
           forall k c, (k, c) ∈ l -> c <= (most_scan l).1)) as [[? _]|H]; [|done|done].
  clear Hne. induction l as [|[k c] l IH] using rev_ind; [by left|]. right.
  unfold most_scan. rewrite foldl_app. fold (most_scan l). simpl.
  assert (0 < c) as Hc by (apply (Hpos k); set_solver).
  destruct IH as [[-> Hst]|[Hin Hmax]].
  { intros k' c' H'. apply (Hpos k'). set_solver. }
  - rewrite Hst. destruct (Z.ltb_spec 0 c); [|lia]. simpl. split; [set_solver|].
    intros k' c' H'. apply list_elem_of_singleton in H'. injection H' as -> ->. lia.
  - destruct (most_scan l) as [max val]. simpl in *.
    destruct (Z.ltb_spec max c); simpl.
    + split; [set_solver|]. intros k' c' H'. apply elem_of_app in H' as [H'|H'].
      * specialize (Hmax _ _ H'). lia.
      * apply list_elem_of_singleton in H'. injection H' as -> ->. lia.
    + split; [set_solver|]. intros k' c' H'. apply elem_of_app in H' as [H'|H'].
      * by apply (Hmax k').
      * apply list_elem_of_singleton in H'. injection H' as -> ->. lia.
Qed.

Lemma range_order_elem (m : gmap Z Z) (k c : Z) :
  (k, c) ∈ range_order m <-> m !! k = Some c.
Proof using range_order_perm.
  rewrite (range_order_perm m). apply elem_of_map_to_list.
Qed.

Lemma UnPack_of_packed (q : Pixel) : wf_pixel q -> UnPack (packed q) = rgb_of q.
Proof.
  clear. intros (Hr & Hg & Hb). unfold packed.
  rewrite packed_value by done. by apply UnPack_packed.
Qed.

Lemma packed_rgb (p q : Pixel) :
  wf_pixel p -> wf_pixel q -> packed p = packed q <-> rgb_of p = rgb_of q.
Proof.
  clear. intros Hp Hq. split.
  - intros H. rewrite <- (UnPack_of_packed p), <- (UnPack_of_packed q) by done.
    by rewrite H.
  - unfold rgb_of, packed. intros [= -> -> ->]. done.
Qed.

Lemma count_packed_rgb (ps : list Pixel) (q0 : Pixel) :
  Forall wf_pixel ps -> wf_pixel q0 ->
  length (filter (fun q => packed q = packed q0) ps) = occurrences (rgb_of q0) ps.
Proof.
  clear. intros Hps Hq0. unfold occurrences.
  induction Hps as [|q ps Hq Hps IH]; [done|].
  rewrite !filter_cons.
  destruct (decide (packed q = packed q0)) as [He|Hn],
           (decide (rgb_of q = rgb_of q0)) as [He'|Hn']; simpl; try by rewrite IH.
  - by apply packed_rgb in He.
  - by apply packed_rgb in He'.
Qed.

Lemma Most_values (ps : list Pixel) :
  Forall wf_pixel ps -> ps <> [] ->
  exists q, q ∈ ps /\
    Pixels_Most (Some <$> ps) = Ok (Some (pixelRGB (pxR q) (pxG q) (pxB q))) /\
    forall q', q' ∈ ps ->
      (occurrences (rgb_of q') ps <= occurrences (rgb_of q) ps)%nat.
Proof using range_order_perm.
  intros Hwf Hne. rewrite Most_scan.
  set (l := range_order (counter_of ps)).
  assert (forall q', q' ∈ ps ->
            (packed q', len (filter (fun q => packed q = packed q') ps)) ∈ l) as Hall.
  { intros q' Hq'. apply range_order_elem. rewrite counter_of_lookup.
    rewrite decide_False; [done|]. intros Hf.
    assert (q' ∈ filter (fun q => packed q = packed q') ps) as Hin
      by (by apply list_elem_of_filter).
    rewrite Hf in Hin. by apply elem_of_nil in Hin. }
  destruct (most_scan_max l) as [Hin Hmax].
  { intros k c Hkc. apply range_order_elem in Hkc. rewrite counter_of_lookup in Hkc.
    destruct (decide _) as [|Hf]; [done|]. injection Hkc as <-.
    unfold len. destruct (filter _ ps); [done|simpl; lia]. }
  { destruct ps as [|q0 ps']; [done|]. intros Hl.
    specialize (Hall q0 ltac:(by left)). rewrite Hl in Hall. by apply elem_of_nil in Hall. }
  destruct (most_scan l) as [max val]. simpl in Hin, Hmax.
  apply range_order_elem in Hin. rewrite counter_of_lookup in Hin.
  destruct (decide (filter (fun q => packed q = val) ps = [])) as [|Hf]; [done|].
  injection Hin as Hcount.
  destruct (filter (fun q => packed q = val) ps) as [|q f] eqn:Hfq; [done|].
  assert (q ∈ filter (fun q => packed q = val) ps) as Hq by (rewrite Hfq; by left).
  apply list_elem_of_filter in Hq as [Hq Hqin].
  assert (wf_pixel q) as Hwq by (rewrite Forall_forall in Hwf; by apply Hwf).
  exists q. split; [done|]. split.
  - rewrite <- Hq, UnPack_of_packed by done. unfold rgb_of. by rewrite NewPixelRGB_Some.
  - intros q' Hq'.
    assert (wf_pixel q') as Hwq' by (rewrite Forall_forall in Hwf; by apply Hwf).
    rewrite <- !count_packed_rgb by done.
    specialize (Hmax _ _ (Hall q' Hq')). rewrite Hq, Hfq. unfold len in *. lia.
Qed.

(** The most frequent colour.  On a buffer of pixels that is not empty,
    [Most] returns the pixel of a colour of the buffer that no colour of
    the buffer outnumbers; this holds whatever the order in which the
    range over the table of counts visits its entries (the order only
    chooses among the colours that tie). *)
Theorem Most_most_frequent (ps : list Pixel) :
  Forall wf_pixel ps -> ps <> [] ->
  exists q, q ∈ ps /\
    Pixels_Most (Some <$> ps) = Ok (NewPixelRGB (pxR q) (pxG q) (pxB q)) /\
    forall q', q' ∈ ps ->
      (occurrences (rgb_of q') ps <= occurrences (rgb_of q) ps)%nat.
Proof using range_order_perm.
  intros Hwf Hne. destruct (Most_values ps Hwf Hne) as (q & Hin & Hrun & Hmax).
  exists q. split; [done|]. split; [|done]. by rewrite Hrun, NewPixelRGB_Some.
Qed.

(** ** The background and the shift *)

Lemma shifted_wf (s : Z) (p : Pixel) : wf_pixel (shifted s p).
Proof.
  clear. unfold shifted, wf_pixel, pixelRGB, uint8_shl, is_uint8. cbn [pxR pxG pxB].
  destruct (8 <=? s); [lia|].
  repeat split; apply Z.mod_pos_bound; lia.
Qed.

Lemma shifted_negative (s : Z) (p : Pixel) :
  - 2 ^ 63 <= s < 0 -> shifted (s mod 2 ^ 64) p = pixelRGB 0 0 0.
Proof.
  clear. intros Hs.
  assert (s mod 2 ^ 64 = s + 2 ^ 64) as ->
    by (symmetry; apply (Z.mod_unique _ _ (-1)); lia).
  unfold shifted, uint8_shl, uint8_shr.
  by destruct (Z.leb_spec 8 (s + 2 ^ 64)); [|lia].
Qed.

Lemma getBackgroundColor_values (ps : list Pixel) (op : Option) :
  Shift op < 8 -> ps <> [] ->
  exists q, q ∈ ps /\
    getBackgroundColor (Some <$> ps) op = Ok (Some (shifted (Shift op mod 2 ^ 64) q)) /\
    forall q', q' ∈ ps ->
      (occurrences (rgb_of (shifted (Shift op mod 2 ^ 64) q'))
                   (shifted (Shift op mod 2 ^ 64) <$> ps)
       <= occurrences (rgb_of (shifted (Shift op mod 2 ^ 64) q))
                      (shifted (Shift op mod 2 ^ 64) <$> ps))%nat.
Proof using range_order_perm.
  intros Hs Hne. unfold getBackgroundColor. rewrite Quantize_values by done. cbn [bind].
  set (s := Shift op mod 2 ^ 64).
  destruct (Most_values (shifted s <$> ps)) as (q & Hin & Hrun & Hmax).
  { apply Forall_fmap, Forall_forall. intros x _. apply shifted_wf. }
  { by destruct ps. }
  apply list_elem_of_fmap in Hin as (q0 & -> & Hin0).
  exists q0. split; [done|]. rewrite Hrun. cbn [bind]. split; [done|].
  intros q' Hq'. apply Hmax. apply list_elem_of_fmap. by exists q'.
Qed.

(** The background and the shift.  A shift of 8 or more makes
    [getBackgroundColor] and [createPalette] return the shift error on
    every buffer.  With a shift from 0 to 7 the background of a buffer
    of pixels that is not empty is the quantized colour of one of its
    pixels, and no quantized colour of the buffer occurs more often.  A
    negative shift is accepted: converted to an unsigned count it clears
    every channel, and the background is black. *)
Theorem getBackgroundColor_by_shift (ps : list Pixel) (op : Option) :
  (8 <= Shift op ->
   forall p, getBackgroundColor p op = Err ErrShiftOver8 /\
             createPalette p op = Err ErrShiftOver8) /\
  (0 <= Shift op < 8 -> ps <> [] ->
   exists q, q ∈ ps /\
     getBackgroundColor (Some <$> ps) op = Ok (Some (shifted (Shift op) q)) /\
     forall q', q' ∈ ps ->
       (occurrences (rgb_of (shifted (Shift op) q')) (shifted (Shift op) <$> ps)
        <= occurrences (rgb_of (shifted (Shift op) q)) (shifted (Shift op) <$> ps))%nat) /\
  (- 2 ^ 63 <= Shift op < 0 ->
   getBackgroundColor (Some <$> ps) op = Ok (Some (pixelRGB 0 0 0))).
Proof using range_order_perm.
  split; [|split].
  - intros Hs p. unfold createPalette, getBackgroundColor.
    by rewrite Quantize_fails.
  - intros Hs Hne.
    destruct (getBackgroundColor_values ps op) as (q & Hin & Hrun & Hmax); [lia|done|].
    rewrite (Z.mod_small (Shift op) (2 ^ 64)) in Hrun, Hmax by lia.
    by exists q.
  - intros Hs. destruct ps as [|p0 ps'].
    + unfold getBackgroundColor. rewrite Quantize_values by lia. cbn [bind fmap list_fmap].
      by rewrite Most_empty.
    + destruct (getBackgroundColor_values (p0 :: ps') op) as (q & _ & Hrun & _);
        [lia|done|].
      by rewrite Hrun, shifted_negative.
Qed.


(** ** The palette of a sample *)

Lemma target_values (ss : list Pixel) (bg : Pixel) (op : Option) :
  for_each (fun target '(i, pix) =>
              do m <- slice_index (foreground op bg <$> ss) i;
              Ok (if m : bool then target ++ [pix] else target))
           [] (enumerate (Some <$> ss))
  = Ok (Some <$> filter (fun pix => foreground op bg pix = true) ss).
Proof.
  pose (sts := fun k : nat =>
    Some <$> filter (fun pix => foreground op bg pix = true) (take k ss)).
  change (@nil (option Pixel)) with (sts O).
  rewrite (for_each_states _ _ sts).
  - unfold sts. rewrite enumerate_length, length_fmap. by rewrite take_ge by lia.
  - intros k [i x] Hk. apply enumerate_lookup in Hk as [-> Hx].
    rewrite list_lookup_fmap in Hx. destruct (ss !! k) as [pix|] eqn:Hpix; [|done].
    injection Hx as <-.
    rewrite (slice_index_nat _ k (foreground op bg pix))
      by (by rewrite list_lookup_fmap, Hpix).
    cbn [bind]. f_equal. unfold sts. rewrite (take_S_r ss k pix) by done.
    rewrite filter_app. destruct (foreground op bg pix) eqn:Hfg.
    + rewrite (filter_cons_True _ pix) by done. by rewrite filter_nil, fmap_app.
    + rewrite (filter_cons_False _ pix) by (by rewrite Hfg).
      by rewrite filter_nil, app_nil_r.
Qed.

Lemma getBackgroundColor_total (ss : list Pixel) (op : Option) :
  Shift op < 8 ->
  exists bg : Pixel, getBackgroundColor (Some <$> ss) op = Ok (Some bg) /\ wf_pixel bg.
Proof using range_order_perm.
  intros Hs. destruct ss as [|s0 ss'].
  - exists (pixelRGB 0 0 0). split.
    + unfold getBackgroundColor. rewrite Quantize_values by done.
      cbn [bind fmap list_fmap]. by rewrite Most_empty.
    + unfold wf_pixel, is_uint8. simpl. lia.
  - destruct (getBackgroundColor_values (s0 :: ss') op) as (q & _ & Hrun & _); [done|done|].
    eexists. split; [done|]. apply shifted_wf.
Qed.

Lemma createPalette_values (ss : list Pixel) (op : Option) :
  Forall wf_pixel ss -> Shift op < 8 -> 2 <= ForegroundNum op ->
  exists (bg : Pixel) (ls : list Pixel),
    createPalette (Some <$> ss) op = Ok (Some bg, Some <$> ls) /\
    getBackgroundColor (Some <$> ss) op = Ok (Some bg) /\
    kmeans (Some <$> filter (fun pix => foreground op bg pix = true) ss) op
    = Ok (Some <$> ls) /\
    wf_pixel bg /\ len ls = ForegroundNum op - 1 /\ Forall wf_pixel ls.
Proof using range_order_perm.
  intros Hss Hs Hk.
  destruct (getBackgroundColor_total ss op Hs) as (bg & Hbg & Hwbg).
  destruct (kmeans_centers (filter (fun pix => foreground op bg pix = true) ss) op)
    as (ls & Hrun & Hlen & Hwf & _); [|done|].
  { apply Forall_forall. intros x Hx. apply list_elem_of_filter in Hx as [_ Hx].
    rewrite Forall_forall in Hss. by apply Hss. }
  exists bg, ls. split; [|done].
  unfold createPalette. rewrite Hbg. cbn [bind].
  rewrite getForegroundMask_values. cbn [bind].
  rewrite target_values. cbn [bind]. by rewrite Hrun.
Qed.

(** The palette of a sample.  For a sample of pixels, a shift below 8
    and at least two colours asked for, [createPalette] succeeds: its
    background is the one of [getBackgroundColor] on the sample, and its
    centers are those of [kmeans] on the pixels of the sample that the
    mask of [getForegroundMask] marks against this background, in their
    order; there are [ForegroundNum - 1] of them. *)
Theorem createPalette_of_foreground (ss : list Pixel) (op : Option) :
  Forall wf_pixel ss -> Shift op < 8 -> 2 <= ForegroundNum op ->
  exists (bg : Pixel) (ls : list Pixel) (mask : list bool),
    createPalette (Some <$> ss) op = Ok (Some bg, Some <$> ls) /\
    getBackgroundColor (Some <$> ss) op = Ok (Some bg) /\
    getForegroundMask (Some <$> ss) (Some bg) op = Ok mask /\
    kmeans (Some <$> (zip ss mask ≫= (fun pm : Pixel * bool => if pm.2 then [pm.1] else [])))
           op
    = Ok (Some <$> ls) /\
    len ls = ForegroundNum op - 1.
Proof using range_order_perm.
  intros Hss Hs Hk.
  destruct (createPalette_values ss op Hss Hs Hk)
    as (bg & ls & Hpal & Hbg & Hrun & _ & Hlen & _).
  exists bg, ls, (foreground op bg <$> ss).
  split; [done|]. split; [done|]. split; [apply getForegroundMask_values|]. split; [|done].
  rewrite <- Hrun. f_equal. f_equal. clear.
  induction ss as [|s ss IH]; [done|].
  cbn [fmap list_fmap zip_with]. rewrite bind_cons, filter_cons. cbn [snd fst].
  destruct (foreground op bg s); simpl; by rewrite IH.
Qed.

(** ** Shrink on a supported image *)

Lemma options_of_pixels (l : Pixels) (ds : list Pixel) :
  (forall x, x ∈ l -> x ∈ Some <$> ds) ->
  exists ss : list Pixel, l = Some <$> ss /\ forall s, s ∈ ss -> s ∈ ds.
Proof.
  clear. induction l as [|x l IH]; intros H.
  { exists []. split; [done|]. intros s Hs. by apply elem_of_nil in Hs. }
  destruct IH as (ss & -> & Hss); [intros y Hy; apply H; by right|].
  destruct (proj1 (list_elem_of_fmap _ _ _) (H x ltac:(by left))) as (s & -> & Hs).
  exists (s :: ss). split; [done|].
  intros s' Hs'. apply elem_of_cons in Hs' as [->|Hs']; [done|by apply Hss].
Qed.

Lemma recolor_in_palette (op : Option) (bg : Pixel) (ls : list Pixel) (pix : Pixel) :
  Pixel_Color (recolor op bg ls pix) ∈ Pixel_Color bg :: (Pixel_Color <$> ls).
Proof.
  clear. unfold recolor. destruct (foreground op bg pix); [|by left].
  destruct (ls !! Z.to_nat (nearest pix ls)) as [c|] eqn:Hc; simpl; [|by left].
  right. apply list_elem_of_fmap. exists c. split; [done|]. by eapply list_elem_of_lookup_2.
Qed.

Lemma Shrink_values (img : Image) (op : Option) :
  (forall (i : nat) (n : Z), 0 < n -> 0 <= rand_Intn i n < n) ->
  0 <= Dx (Bounds img) -> 0 <= Dy (Bounds img) ->
  (forall x y, 0 <= x < Dx (Bounds img) -> 0 <= y < Dy (Bounds img) ->
     exists c, convertColor (At img x y) = Ok c /\
               is_uint8 (cR c) /\ is_uint8 (cG c) /\ is_uint8 (cB c)) ->
  0 <= int_of_float (float64_of_Z (Dx (Bounds img) * Dy (Bounds img)) * SamplingRate op) ->
  (0 < Dx (Bounds img) * Dy (Bounds img) \/
   int_of_float (float64_of_Z (Dx (Bounds img) * Dy (Bounds img)) * SamplingRate op) = 0) ->
  Shift op < 8 -> 2 <= ForegroundNum op ->
  exists (out : RGBAImage) (bg : Pixel) (ls : list Pixel),
    Shrink img (Some op) = Ok (out, Pixel_Color bg :: (Pixel_Color <$> ls)) /\
    len ls = ForegroundNum op - 1 /\
    Rect out = mkRect 0 0 (Dx (Bounds img)) (Dy (Bounds img)) /\
    forall x y, 0 <= x < Dx (Bounds img) -> 0 <= y < Dy (Bounds img) ->
      RGBAAt out x y = Pixel_Color (recolor op bg ls (converted img (x, y))).
Proof using range_order_perm.
  intros Hrand Hc Hr Hconv Hnum Hsome Hs Hk.
  set (cols := Dx (Bounds img)) in *. set (rows := Dy (Bounds img)) in *.
  unfold Shrink. change (default DefaultOption (Some op)) with op. cbv zeta.
  rewrite convertPixels_values by done. cbn [bind].
  rewrite scanned_converted
    by (intros x y Hx Hy; destruct (Hconv x y Hx Hy) as (c & Hcol & _); by exists c).
  fold cols rows. set (ds := converted img <$> traversal cols rows).
  assert (length ds = length (traversal cols rows)) as Hlen
    by (unfold ds; by rewrite length_fmap).
  assert (len (Some <$> ds) = cols * rows) as ->.
  { unfold len. rewrite length_fmap, Hlen. by apply traversal_length. }
  assert (Forall wf_pixel ds) as Hds.
  { unfold ds. apply Forall_fmap, Forall_forall. intros [x y] Hxy.
    apply traversal_elem in Hxy as [Hx Hy].
    destruct (Hconv x y Hx Hy) as (c & Hcol & Hrgb).
    unfold converted. simpl. by rewrite Hcol. }
  destruct (createSample_values (Some <$> ds)
              (int_of_float (float64_of_Z (cols * rows) * SamplingRate op)) Hrand Hnum)
    as (samples & Hsam & _ & _ & Hsub).
  { destruct Hsome as [Hpos|H0]; [left|by right].
    intros Hnil. apply (f_equal length) in Hnil. rewrite length_fmap, Hlen in Hnil.
    pose proof (traversal_length cols rows Hc Hr). simpl in Hnil. lia. }
  rewrite Hsam. cbn [bind].
  destruct (options_of_pixels samples ds Hsub) as (ss & -> & Hss).
  assert (Forall wf_pixel ss) as Hwss.
  { apply Forall_forall. intros s Hin. rewrite Forall_forall in Hds. by apply Hds, Hss. }
  destruct (createPalette_values ss op Hwss Hs Hk)
    as (bg & ls & Hpal & _ & _ & Hwbg & Hlls & Hwls).
  rewrite Hpal. cbn [bind].
  assert (ls <> []) as Hne by (intros ->; unfold len in Hlls; simpl in Hlls; lia).
  rewrite apply_values by done. cbn [bind].
  rewrite setGIFPalette_values. cbn [bind].
  rewrite ToImage_values by (by rewrite length_fmap).
  eexists _, bg, ls. split; [done|]. split; [done|].
  rewrite painted_Rect. unfold image_NewRGBA. cbn [Rect].
  rewrite image_Rect_origin by done. split; [done|].
  intros x y Hx Hy.
  assert ((x, y) ∈ traversal cols rows) as Hin by (by apply traversal_elem).
  apply list_elem_of_lookup in Hin as [j Hj].
  apply (painted_lookup _ _ j).
  - rewrite fst_zip by (rewrite length_fmap; lia). apply traversal_NoDup.
  - unfold point_in. simpl.
    destruct (Z.leb_spec 0 x), (Z.ltb_spec x cols), (Z.leb_spec 0 y), (Z.ltb_spec y rows);
      (lia || done).
  - apply lookup_zip_with_Some. exists (x, y), (recolor op bg ls (converted img (x, y))).
    split; [done|]. split; [done|]. unfold ds. by rewrite !list_lookup_fmap, Hj.
Qed.

(** [Shrink] on a supported image.  For an image from the origin whose
    colours all convert, draws in range, a sampling count that is not
    negative, a shift below 8 and at least two colours asked for,
    [Shrink] returns an image and leaves a palette: the palette is the
    background colour followed by the [ForegroundNum - 1] centers, the
    image has the rectangle of the source from the origin, and every
    pixel of it is the colour [apply] chooses for the source pixel, one
    of the [ForegroundNum] opaque colours of the palette.  (The raster
    is taken within the size [image.NewRGBA] accepts.) *)
Theorem Shrink_supported_image (img : Image) (op : Option) :
  (forall (i : nat) (n : Z), 0 < n -> 0 <= rand_Intn i n < n) ->
  0 <= Dx (Bounds img) -> 0 <= Dy (Bounds img) ->
  4 * (Dx (Bounds img) * Dy (Bounds img)) < 2 ^ 63 ->
  (forall x y, 0 <= x < Dx (Bounds img) -> 0 <= y < Dy (Bounds img) ->
     exists c, convertColor (At img x y) = Ok c /\
               is_uint8 (cR c) /\ is_uint8 (cG c) /\ is_uint8 (cB c)) ->
  0 <= int_of_float (float64_of_Z (Dx (Bounds img) * Dy (Bounds img)) * SamplingRate op) ->
  (0 < Dx (Bounds img) * Dy (Bounds img) \/
   int_of_float (float64_of_Z (Dx (Bounds img) * Dy (Bounds img)) * SamplingRate op) = 0) ->
  Shift op < 8 -> 2 <= ForegroundNum op ->
  exists (out : RGBAImage) (gifPalette : list RGBA) (bg : Pixel) (ls : list Pixel),
    Shrink img (Some op) = Ok (out, gifPalette) /\
    gifPalette = Pixel_Color bg :: (Pixel_Color <$> ls) /\
    len gifPalette = ForegroundNum op /\
    (forall c, c ∈ gifPalette -> cA c = 255) /\
    Rect out = mkRect 0 0 (Dx (Bounds img)) (Dy (Bounds img)) /\
    forall x y, 0 <= x < Dx (Bounds img) -> 0 <= y < Dy (Bounds img) ->
      RGBAAt out x y = Pixel_Color (recolor op bg ls (converted img (x, y))) /\
      RGBAAt out x y ∈ gifPalette.
Proof using range_order_perm.
  intros Hrand Hc Hr _ Hconv Hnum Hsome Hs Hk.
  destruct (Shrink_values img op Hrand Hc Hr Hconv Hnum Hsome Hs Hk)
    as (out & bg & ls & Hrun & Hlen & Hrect & Hat).
  exists out, (Pixel_Color bg :: (Pixel_Color <$> ls)), bg, ls.
  split; [done|]. split; [done|]. split.
  { unfold len in *. simpl. rewrite length_fmap. lia. }
  split.
  { intros c Hin. apply elem_of_cons in Hin as [->|Hin]; [done|].
    by apply list_elem_of_fmap in Hin as (p & -> & _). }
  split; [done|]. intros x y Hx Hy. rewrite (Hat x y Hx Hy). split; [done|].
  apply recolor_in_palette.
Qed.


(** ** The generic k-means *)

Lemma SFltb_irrefl (x : SpecFloat.spec_float) : SpecFloat.SFltb x x = false.
Proof.
  clear. unfold SpecFloat.SFltb.
  destruct x as [[]|[]| |[] m e]; simpl; try done.
  - rewrite Z.compare_refl. fold (Pos.compare m m). by rewrite Pos.compare_refl.
  - rewrite Z.compare_refl. fold (Pos.compare m m). by rewrite Pos.compare_refl.
Qed.

Lemma SFltb_trans (x y z : SpecFloat.spec_float) :
  SpecFloat.SFltb x y = true -> SpecFloat.SFltb y z = true -> SpecFloat.SFltb x z = true.
Proof.
  clear. unfold SpecFloat.SFltb.
  destruct x as [[]|[]| |[] m1 e1], y as [[]|[]| |[] m2 e2], z as [[]|[]| |[] m3 e3];
    simpl; try done.
  all: fold (Pos.compare m1 m2); fold (Pos.compare m2 m3); fold (Pos.compare m1 m3).
  all: destruct (Z.compare_spec e1 e2), (Z.compare_spec e2 e3), (Z.compare_spec e1 e3);
    try done; try lia.
  all: destruct (Pos.compare_spec m1 m2), (Pos.compare_spec m2 m3), (Pos.compare_spec m1 m3);
    simpl; try done; try lia.
Qed.

Lemma float_ltb_irrefl (x : float) : (x <? x)%float = false.
Proof. clear. rewrite FloatAxioms.ltb_spec. apply SFltb_irrefl. Qed.

Lemma float_ltb_trans (x y z : float) :
  (x <? y)%float = true -> (y <? z)%float = true -> (x <? z)%float = true.
Proof. clear. rewrite !FloatAxioms.ltb_spec. apply SFltb_trans. Qed.

Lemma closestIndex_loop {V : Type} `{Value V} (v : V) (labels : list (option V))
    (ds : list float) :
  Forall2 (fun elm d => Distance v elm = Ok d) labels ds ->
  exists st : Z * float,
    for_each (fun '(rtn, min) '(idx, elm) =>
                do v' <- deref (Some v);
                do vd <- Distance v' elm;
                Ok (if (vd <? min)%float then (idx, vd) else (rtn, min)))
             (-1, math_MaxFloat64) (enumerate labels) = Ok st /\
    st.1 < len labels /\
    nearest_index_inv ds st.
Proof.
  clear. revert ds. induction labels as [|elm labels IH] using rev_ind; intros ds Hds.
  { apply Forall2_nil_inv_l in Hds as ->. eexists. split; [done|]. split; [done|].
    left. split; [done|]. intros d Hd. by apply elem_of_nil in Hd. }
  apply Forall2_app_inv_l in Hds as (ds1 & ds2 & Hds1 & Hds2 & ->).
  apply Forall2_cons_inv_l in Hds2 as (d & ds3 & Hd & Hnil & ->).
  apply Forall2_nil_inv_l in Hnil as ->.
  destruct (IH ds1 Hds1) as ([rtn min] & Hrun & Hlt & Hinv).
  pose proof (Forall2_length _ _ _ Hds1) as Hlen.
  rewrite enumerate_snoc, for_each_app, Hrun. cbn [bind for_each deref]. rewrite Hd.
  cbn [bind]. eexists. split; [done|].
  assert (len (labels ++ [elm]) = len labels + 1) as ->
    by (unfold len; rewrite length_app; simpl; lia).
  simpl in Hlt.
  destruct (d <? min)%float eqn:Hdm; cbn [fst snd].
  - split; [lia|]. right. cbn [fst snd]. split; [unfold len; lia|].
    split.
    { unfold len. rewrite Nat2Z.id, Hlen. by rewrite lookup_app_r, Nat.sub_diag by lia. }
    destruct Hinv as [[[= -> ->] Hall]|(H0 & Hat & Hmax & Hall & Hties)].
    + split; [done|]. split.
      * intros d' Hd'. apply elem_of_app in Hd' as [Hd'|Hd'].
        -- destruct (d' <? d)%float eqn:Hlt'; [|done].
           pose proof (Hall d' Hd') as Hc.
           by rewrite (float_ltb_trans _ _ _ Hlt' Hdm) in Hc.
        -- apply list_elem_of_singleton in Hd' as ->. apply float_ltb_irrefl.
      * intros j d' Hj Hjlt ->. unfold len in Hjlt.
        rewrite lookup_app_l in Hj by lia.
        apply list_elem_of_lookup_2 in Hj. by rewrite (Hall _ Hj) in Hdm.
    + cbn [fst snd] in *. split; [by apply (float_ltb_trans _ _ _ Hdm)|]. split.
      * intros d' Hd'. apply elem_of_app in Hd' as [Hd'|Hd'].
        -- destruct (d' <? d)%float eqn:Hlt'; [|done].
           pose proof (Hall d' Hd') as Hc.
           by rewrite (float_ltb_trans _ _ _ Hlt' Hdm) in Hc.
        -- apply list_elem_of_singleton in Hd' as ->. apply float_ltb_irrefl.
      * intros j d' Hj Hjlt ->. unfold len in Hjlt.
        rewrite lookup_app_l in Hj by lia.
        apply list_elem_of_lookup_2 in Hj. by rewrite (Hall _ Hj) in Hdm.
  - split; [lia|].
    destruct Hinv as [[[= -> ->] Hall]|(H0 & Hat & Hmax & Hall & Hties)].
    + left. split; [done|]. intros d' Hd'. apply elem_of_app in Hd' as [Hd'|Hd'].
      * by apply Hall.
      * by apply list_elem_of_singleton in Hd' as ->.
    + right. cbn [fst snd] in *. split; [done|].
      split; [by apply lookup_app_l_Some|]. split; [done|]. split.
      * intros d' Hd'. apply elem_of_app in Hd' as [Hd'|Hd'].
        -- by apply Hall.
        -- by apply list_elem_of_singleton in Hd' as ->.
      * intros j d' Hj Hjlt. apply (Hties j d'); [|done].
        rewrite lookup_app_l in Hj; [done|].
        apply lookup_lt_Some in Hat. lia.
Qed.

(** The index [closestIndex] returns.  When the distances of a value to
    the labels are [ds], in order, the index is -1 exactly when no
    distance is below [math.MaxFloat64] (no label, or distances that
    are NaN or infinite); otherwise it is the index of a distance that
    no distance of the list is below, and no earlier distance equals
    it: the first of the nearest.  A nil value panics as soon as there
    is a label. *)
Theorem closestIndex_first_nearest {V : Type} `{Value V} (v : V)
    (labels : list (option V)) (ds : list float) :
  Forall2 (fun elm d => Distance v elm = Ok d) labels ds ->
  exists i : Z,
    closestIndex (Some v) labels = Ok i /\
    -1 <= i < len labels /\
    (i = -1 <-> forall d, d ∈ ds -> (d <? math_MaxFloat64)%float = false) /\
    (0 <= i ->
     exists di : float,
       ds !! Z.to_nat i = Some di /\
       (di <? math_MaxFloat64)%float = true /\
       (forall d, d ∈ ds -> (d <? di)%float = false) /\
       (forall (j : nat) (d : float), ds !! j = Some d -> Z.of_nat j < i -> d <> di)) /\
    (labels <> [] -> closestIndex None labels = Panic NilDereference).
Proof.
  clear. intros Hds.
  destruct (closestIndex_loop v labels ds Hds) as ([rtn min] & Hrun & Hlt & Hinv).
  exists rtn. unfold closestIndex. rewrite Hrun. cbn [bind fst snd] in *.
  split; [done|].
  destruct Hinv as [[[= -> ->] Hall]|(H0 & Hat & Hmax & Hall & Hties)].
  - split; [lia|]. split; [done|]. split; [lia|].
    intros Hne. destruct labels as [|l labels]; [done|].
    unfold enumerate, len. simpl length. by rewrite Nat2Z.inj_succ, seqZ_cons by lia.
  - cbn [fst snd] in *. split; [lia|]. split.
    { split; [lia|]. intros Hno. apply list_elem_of_lookup_2 in Hat.
      rewrite (Hno _ Hat) in Hmax. done. }
    split; [intros _; by exists min|].
    intros Hne. destruct labels as [|l labels]; [done|].
    unfold enumerate, len. simpl length. by rewrite Nat2Z.inj_succ, seqZ_cons by lia.
Qed.

Lemma for_each_total {A St : Type} (I : St -> Prop) (body : St -> A -> result St)
    (l : list A) (st : St) :
  I st ->
  (forall st x, I st -> x ∈ l -> exists st', body st x = Ok st' /\ I st') ->
  exists st', for_each body st l = Ok st' /\ I st'.
Proof.
  clear. revert st. induction l as [|x l IH]; intros st Hst Hstep; [by exists st|].
  destruct (Hstep st x Hst) as (st1 & Hx & Hst1); [by left|].
  simpl. rewrite Hx. cbn [bind]. apply IH; [done|].
  intros st2 y Hst2 Hy. apply Hstep; [done|by right].
Qed.

Lemma for_each_inv {A St : Type} (I : St -> Prop) (body : St -> A -> result St)
    (l : list A) (st st' : St) :
  I st ->
  (forall s x s', I s -> body s x = Ok s' -> I s') ->
  for_each body st l = Ok st' -> I st'.
Proof.
  clear. revert st. induction l as [|x l IH]; intros st Hst Hstep Hrun.
  - by injection Hrun as <-.
  - simpl in Hrun. destruct (body st x) as [s| |] eqn:Hx; try done.
    apply (IH s); [by eapply Hstep|done|done].
Qed.

Lemma slice_store_length {A : Type} (s s' : list A) (i : Z) (v : A) :
  slice_store s i v = Ok s' -> length s' = length s.
Proof.
  clear. unfold slice_store. destruct (_ || _); [done|].
  intros [= <-]. by rewrite length_insert.
Qed.

Lemma kmeansValue_round_length {V : Type} `{Value V}
    (data rtn rtn' : list (option V)) (index index' : list Z) (changes : Z) :
  kmeansValue_round data rtn index = Ok (rtn', index', changes) ->
  length rtn' = length rtn.
Proof.
  clear. unfold kmeansValue_round. intros Hrun.
  destruct (slice_make [] (len rtn)) as [g0| |]; try done. cbn [bind] in Hrun.
  destruct (for_each _ g0 (upto (len rtn))) as [g1| |]; try done. cbn [bind] in Hrun.
  destruct (for_each _ g1 (enumerate data)) as [g2| |]; try done. cbn [bind] in Hrun.
  destruct (for_each _ rtn (upto (len rtn))) as [r1| |] eqn:Hupd; try done.
  cbn [bind] in Hrun.
  destruct (for_each _ (0, index) (enumerate data)) as [[c i]| |]; try done.
  cbn [bind] in Hrun. injection Hrun as <- _ _.
  apply (for_each_inv (fun s => length s = length rtn) _ _ _ _ eq_refl) in Hupd; [done|].
  intros s x s' Hs Hx.
  destruct (slice_index s x) as [label| |]; try done. cbn [bind] in Hx.
  destruct (slice_index g2 x) as [vs| |]; try done. cbn [bind] in Hx.
  destruct label as [label|]; try done. cbn [bind deref] in Hx.
  destruct (Average label vs) as [[ave|]| |]; try done.
  - apply slice_store_length in Hx. lia.
  - by injection Hx as <-.
  - by injection Hx as <-.
Qed.

Lemma kmeansValue_iterate_length {V : Type} `{Value V} (n : nat)
    (data rtn rtn' : list (option V)) (index : list Z) :
  kmeansValue_iterate n data rtn index = Ok rtn' -> length rtn' = length rtn.
Proof.
  clear. revert rtn index. induction n as [|n IH]; intros rtn index Hrun.
  - by injection Hrun as <-.
  - cbn [kmeansValue_iterate] in Hrun.
    destruct (kmeansValue_round data rtn index) as [[[r1 i1] c1]| |] eqn:Hround; try done.
    cbn [bind] in Hrun. apply kmeansValue_round_length in Hround.
    destruct (c1 =? 0).
    + injection Hrun as <-. done.
    + apply IH in Hrun. lia.
Qed.

Lemma copy_values {A : Type} (zero : A) (s : list A) :
  for_each (fun rtn '(idx, x) => slice_store rtn idx x)
           (replicate (length s) zero) (enumerate s) = Ok s.
Proof.
  clear.
  rewrite (for_each_ext _ (fun acc '(idx, x) => do v <- Ok x; slice_store acc idx v))
    by (by intros st [idx x]).
  rewrite (for_each_fill _ id) by (by rewrite ?length_replicate).
  by rewrite list_fmap_id.
Qed.

Lemma closestIndex_total {V : Type} `{Value V} (v : V) (labels : list (option V)) :
  (forall (a : V) (b : option V), exists d, Distance a b = Ok d) ->
  exists i, closestIndex (Some v) labels = Ok i /\ -1 <= i < len labels.
Proof.
  clear. intros Htotal.
  assert (exists ds, Forall2 (fun elm d => Distance v elm = Ok d) labels ds) as [ds Hds].
  { induction labels as [|l labels [ds IH]]; [by exists []|].
    destruct (Htotal v l) as [d Hd]. exists (d :: ds). by constructor. }
  destruct (closestIndex_loop v labels ds Hds) as ([rtn min] & Hrun & Hlt & Hinv).
  exists rtn. unfold closestIndex. rewrite Hrun. split; [done|].
  cbn [fst] in Hlt. destruct Hinv as [[[= -> ->] _]|(H0 & _)]; cbn [fst] in *; lia.
Qed.

Lemma kmeansValue_index {V : Type} `{Value V} (vs : list V) (labels : list (option V)) :
  (forall (a : V) (b : option V), exists d, Distance a b = Ok d) ->
  exists index : list Z,
    for_each (fun index '(idx, datum) =>
                do c <- closestIndex datum labels;
                slice_store index idx c)
             (replicate (length (Some <$> vs)) 0) (enumerate (Some <$> vs)) = Ok index /\
    length index = length vs.
Proof.
  clear. intros Htotal.
  apply (for_each_total (fun index => length index = length vs)).
  - by rewrite length_replicate, length_fmap.
  - intros st [i x] Hst Hin. apply enumerate_elem in Hin as [Hi Hx].
    rewrite list_lookup_fmap in Hx.
    destruct (vs !! Z.to_nat i) as [v|] eqn:Hv; [|done]. injection Hx as <-.
    destruct (closestIndex_total v labels Htotal) as (c & -> & _). cbn [bind].
    rewrite <- (Z2Nat.id i) by done.
    rewrite slice_store_nat by (apply lookup_lt_Some in Hv; lia).
    eexists. split; [done|]. by rewrite length_insert.
Qed.

(** The edges of [kmeansValue].  For data without nil and an
    implementation whose [Distance] always returns: with a number of
    rounds that is not positive the labels come back as they are; with
    no label, data that is not empty and at least one round, the first
    round panics on the group of index -1; and whenever [kmeansValue]
    returns, it returns as many values as there are labels. *)
Theorem kmeansValue_edges {V : Type} `{Value V} (vs : list V)
    (labels : list (option V)) (itr : Z) :
  (forall (a : V) (b : option V), exists d, Distance a b = Ok d) ->
  (itr <= 0 -> kmeansValue (Some <$> vs) labels itr = Ok labels) /\
  (1 <= itr -> vs <> [] -> kmeansValue (Some <$> vs) [] itr = Panic IndexOutOfRange) /\
  (forall rtn, kmeansValue (Some <$> vs) labels itr = Ok rtn -> len rtn = len labels).
Proof.
  clear. intros Htotal. split; [|split].
  - intros Hitr. unfold kmeansValue. rewrite !slice_make_len. cbn [bind].
    destruct (kmeansValue_index vs labels Htotal) as (index & Hindex & _).
    rewrite Hindex. cbn [bind].
    rewrite copy_values. cbn [bind]. by replace (Z.to_nat itr) with O by lia.
  - intros Hitr Hne. unfold kmeansValue. rewrite !slice_make_len. cbn [bind].
    destruct (kmeansValue_index vs [] Htotal) as (index & Hindex & Hlen).
    rewrite Hindex. cbn [bind].
    assert (index = replicate (length vs) (-1)) as ->.
    { revert Hindex.
      rewrite (for_each_ext _
        (fun acc '(idx, x) => do v <- (fun _ : option V => Ok (-1)) x; slice_store acc idx v))
        by (by intros st [idx x]).
      rewrite (for_each_fill _ (fun _ => -1)) by (by rewrite ?length_replicate).
      intros [= <-].
      clear. induction vs as [|v vs IH]; [done|]. simpl. by rewrite <- IH. }
    rewrite copy_values. cbn [bind].
    destruct (Z.to_nat itr) as [|n] eqn:Hn; [lia|].
    destruct vs as [|v vs]; [done|].
    cbn [kmeansValue_iterate]. unfold kmeansValue_round.
    unfold enumerate, len. cbn [fmap list_fmap length].
    rewrite Nat2Z.inj_succ, seqZ_cons by lia. done.
  - intros rtn Hrun. unfold kmeansValue in Hrun.
    rewrite !slice_make_len in Hrun. cbn [bind] in Hrun.
    destruct (kmeansValue_index vs labels Htotal) as (index & Hindex & _).
    rewrite Hindex in Hrun. cbn [bind] in Hrun.
    rewrite copy_values in Hrun. cbn [bind] in Hrun.
    apply kmeansValue_iterate_length in Hrun. unfold len. lia.
Qed.


(** ** From RGB to HSV and back *)

Lemma hsv_inverts_pixel (r g b : Z) :
  hsv_inverts r g b = true ->
  NewPixelHSV (pxH (pixelRGB r g b)) (pxS (pixelRGB r g b)) (pxV (pixelRGB r g b))
  = Some (pixelRGB r g b).
Proof.
  unfold hsv_inverts. rewrite !andb_true_iff, !Z.eqb_eq. intros [[Hr Hg] Hb].
  rewrite NewPixelHSV_Some. unfold pixelHSV. cbn [pxH pxS pxV pixelRGB].
  by rewrite Hr, Hg, Hb.
Qed.

Lemma hsv_inverts_lines (v : Z) :
  is_uint8 v ->
  forallb (fun rgb : Z * Z * Z => hsv_inverts rgb.1.1 rgb.1.2 rgb.2)
    [(v, v, v); (v, 0, 0); (0, v, 0); (0, 0, v);
     (255, v, 0); (v, 255, 0); (0, 255, v); (0, v, 255); (v, 0, 255); (255, 0, v)]
  = true.
Proof.
  intros Hv.
  apply (uint8_enum (fun v =>
    forallb (fun rgb : Z * Z * Z => hsv_inverts rgb.1.1 rgb.1.2 rgb.2)
      [(v, v, v); (v, 0, 0); (0, v, 0); (0, 0, v);
       (255, v, 0); (v, 255, 0); (0, 255, v); (0, v, 255); (v, 0, 255); (255, 0, v)]));
    [|done].
  vm_compute. reflexivity.
Qed.

(** From RGB to HSV and back.  On the greys, on the three axes of the
    primary colours and on the six edges of the fully saturated hues, a
    pixel built again by [NewPixelHSV] from its own hue, saturation and
    value is the pixel itself: [HSV2RGBA] inverts [RGB2HSV] there. *)
Theorem NewPixelHSV_inverts_RGB2HSV (v : Z) (p : Pixel) :
  is_uint8 v ->
  p ∈ [pixelRGB v v v; pixelRGB v 0 0; pixelRGB 0 v 0; pixelRGB 0 0 v;
       pixelRGB 255 v 0; pixelRGB v 255 0; pixelRGB 0 255 v;
       pixelRGB 0 v 255; pixelRGB v 0 255; pixelRGB 255 0 v] ->
  NewPixelHSV (pxH p) (pxS p) (pxV p) = Some p.
Proof.
  intros Hv Hp. pose proof (hsv_inverts_lines v Hv) as Hall.
  cbn [forallb fst snd] in Hall. rewrite !andb_true_iff in Hall.
  destruct Hall as (H1 & H2 & H3 & H4 & H5 & H6 & H7 & H8 & H9 & H10 & _).
  repeat (apply elem_of_cons in Hp as [->|Hp]; [by apply hsv_inverts_pixel|]).
  by apply elem_of_nil in Hp.
Qed.


(** ** The name of the output file *)

Lemma LastIndex_absent (s : gostring) (c : Byte.byte) :
  c ∉ s -> strings_LastIndex s c = -1.
Proof.
  clear. induction s as [|x s IH] using rev_ind; intros Hc; [done|].
  unfold strings_LastIndex. rewrite enumerate_snoc, foldl_app. cbn [foldl snd fst].
  destruct (Byte.eqb x c) eqn:Hx.
  - apply Byte.byte_dec_bl in Hx as ->. exfalso. apply Hc. set_solver.
  - apply IH. set_solver.
Qed.

Lemma LastIndex_last (base tail : gostring) (c : Byte.byte) :
  c ∉ tail -> strings_LastIndex (base ++ c :: tail) c = len base.
Proof.
  clear. induction tail as [|x tail IH] using rev_ind; intros Hc.
  - unfold strings_LastIndex. rewrite enumerate_snoc, foldl_app. cbn [foldl snd fst].
    by rewrite (Byte.byte_dec_lb (eq_refl c)).
  - unfold strings_LastIndex.
    rewrite app_comm_cons, app_assoc, enumerate_snoc, foldl_app. cbn [foldl snd fst].
    destruct (Byte.eqb x c) eqn:Hx.
    + apply Byte.byte_dec_bl in Hx as ->. exfalso. apply Hc. set_solver.
    + apply IH. set_solver.
Qed.

(** The name of the output file.  A name without a dot gets the suffix
    and the extension appended.  Otherwise everything from the last dot
    on is replaced by them, whatever follows that dot (an extension, or
    the rest of a path whose directory has a dot): two inputs that
    differ only after their last dot get the same output name.  In both
    cases the name is a prefix of the input followed by the suffix and
    the extension. *)
Theorem run_output_name (f suffix : gostring) (gif : bool) :
  (Byte.x2e ∉ f -> run_output f suffix gif = f ++ suffix ++ run_extension gif) /\
  (forall base tail : gostring,
     f = base ++ Byte.x2e :: tail -> Byte.x2e ∉ tail ->
     run_output f suffix gif = base ++ suffix ++ run_extension gif /\
     forall tail' : gostring, Byte.x2e ∉ tail' ->
       run_output (base ++ Byte.x2e :: tail') suffix gif = run_output f suffix gif) /\
  (exists stem rest : gostring,
     f = stem ++ rest /\ run_output f suffix gif = stem ++ suffix ++ run_extension gif).
Proof.
  clear.
  assert (forall base tail : gostring, Byte.x2e ∉ tail ->
            run_output (base ++ Byte.x2e :: tail) suffix gif
            = base ++ suffix ++ run_extension gif) as Hdot.
  { intros base tail Htail. unfold run_output. rewrite LastIndex_last by done.
    destruct (Z.eqb_spec (len base) (-1)) as [Hl|_]; [unfold len in Hl; lia|].
    unfold len. by rewrite Nat2Z.id, take_app_length. }
  split; [|split].
  - intros Hno. unfold run_output. by rewrite LastIndex_absent.
  - intros base tail -> Htail. split; [by apply Hdot|].
    intros tail' Htail'. by rewrite !Hdot.
  - unfold run_output. destruct (_ =? -1).
    + exists f, []. by rewrite app_nil_r.
    + exists (take (Z.to_nat (strings_LastIndex f Byte.x2e)) f),
             (drop (Z.to_nat (strings_LastIndex f Byte.x2e)) f).
      by rewrite take_drop.
Qed.

End Notescan.

(** * Evaluation on concrete inputs *)

(** The listed order visits the entries of the map. *)
Lemma listed_order_perm : forall m, listed_order m ≡ₚ map_to_list m.
Proof. intros m. reflexivity. Defined.

(** The channels of the sample pixels are in range. *)
Ltac wf_pixels :=
  repeat (apply Forall_cons; split); try apply Forall_nil;
  unfold wf_pixel, is_uint8; cbn [pxR pxG pxB pixelRGB white black paper red blue ink];
  lia.

(** The palette applied on an empty palette: a foreground pixel finds
    no center, [closest] answers -1 and the index panics.  (C1 as
    stated, at the empty palette.) *)
Lemma apply_empty_palette_panics :
  foreground DefaultOption black white = true /\
  closest (Some white) [] = Ok (-1) /\
  apply [Some white] (Some black) [] DefaultOption = Panic IndexOutOfRange /\
  ~ (exists out, apply [Some white] (Some black) [] DefaultOption = Ok out).
Proof.
  assert (apply [Some white] (Some black) [] DefaultOption = Panic IndexOutOfRange) as H
    by (vm_compute; reflexivity).
  split; [vm_compute; reflexivity|]. split; [reflexivity|]. split; [exact H|].
  intros [out Hout]. rewrite H in Hout. discriminate.
Qed.

(** [apply_palette] on two pixels over the paper and two centers. *)
Lemma apply_palette_witness :
  exists out : list Pixel,
    apply (Some <$> [white; ink]) (Some paper) (Some <$> [red; blue]) DefaultOption
    = Ok (Some <$> out) /\
    length out = 2%nat /\
    (forall (i : nat) (pix : Pixel), [white; ink] !! i = Some pix ->
       exists o : Pixel, out !! i = Some o /\
         (foreground DefaultOption paper pix = false -> o = paper) /\
         (foreground DefaultOption paper pix = true ->
            o ∈ [red; blue] /\ forall c, c ∈ [red; blue] -> distRGB pix o <= distRGB pix c)) /\
    (forall o, o ∈ out -> o = paper \/ o ∈ [red; blue]) /\
    (length (remove_dups (rgb_of <$> out)) <= 3)%nat /\
    (len [red; blue] = ForegroundNum DefaultOption - 1 ->
     len (remove_dups (rgb_of <$> out)) <= ForegroundNum DefaultOption).
Proof.
  apply (apply_palette [white; ink] paper [red; blue] DefaultOption);
    [wf_pixels|wf_pixels|discriminate].
Defined.

(** [Quantize_shift_range] at the shifts 8 and 2. *)
Lemma Quantize_shift_range_witness :
  (exists e, Pixels_Quantize [None] 8 = Err e /\ kind_of e = InvalidParameter) /\
  (exists qs : list Pixel,
     Pixels_Quantize (Some <$> [ink]) 2 = Ok (Some <$> qs) /\
     length qs = 1%nat /\
     forall (i : nat) (px : Pixel), [ink] !! i = Some px ->
       exists q : Pixel, qs !! i = Some q /\
         pxR q = Z.shiftl (Z.shiftr (pxR px) 2) 2 /\
         pxG q = Z.shiftl (Z.shiftr (pxG px) 2) 2 /\
         pxB q = Z.shiftl (Z.shiftr (pxB px) 2) 2 /\
         Z.land (pxR q) (Z.ones 2) = 0 /\
         Z.land (pxG q) (Z.ones 2) = 0 /\
         Z.land (pxB q) (Z.ones 2) = 0 /\
         Z.shiftr (pxR q) 2 = Z.shiftr (pxR px) 2 /\
         Z.shiftr (pxG q) 2 = Z.shiftr (pxG px) 2 /\
         Z.shiftr (pxB q) 2 = Z.shiftr (pxB px) 2 /\
         (pxH q, pxS q, pxV q) = RGB2HSV (pxR q) (pxG q) (pxB q)).
Proof.
  split.
  - apply (proj1 (Quantize_shift_range [None] [ink] 8)). lia.
  - apply (proj2 (Quantize_shift_range [None] [ink] 2)); [lia|wf_pixels].
Defined.

(** [Quantize_idempotent] on two pixels at the shift 3. *)
Lemma Quantize_idempotent_witness :
  exists q : Pixels,
    Pixels_Quantize (Some <$> [ink; white]) 3 = Ok q /\
    (do q' <- Pixels_Quantize (Some <$> [ink; white]) 3; Pixels_Quantize q' 3) = Ok q.
Proof. apply (Quantize_idempotent [ink; white] 3). lia. Defined.

(** [Average_single_and_empty] on one pixel. *)
Lemma Average_single_and_empty_witness :
  (exists a : Pixel,
     Pixels_Average luma_YCbCrToRGB zero_unspecified [Some ink] = Ok (Some a) /\
     pxR a = pxR ink /\ pxG a = pxG ink /\ pxB a = pxB ink) /\
  (exists e, Pixels_Average luma_YCbCrToRGB zero_unspecified [] = Err e /\
             kind_of e = EmptyInput).
Proof.
  apply (Average_single_and_empty luma_YCbCrToRGB zero_unspecified ink).
  unfold wf_pixel, is_uint8. cbn [pxR pxG pxB pixelRGB ink]. lia.
Defined.



(** [kmeans_update_rule] in the first round of a run over three pixels
    from two centers. *)
Lemma kmeans_update_rule_witness :
  exists (ls' : list Pixel) (index' : list Z) (changes : Z),
    kmeans_round luma_YCbCrToRGB zero_unspecified
      (Some <$> [ink; red; blue]) (Some <$> [white; black])
      ((fun pix => nearest pix [white; black]) <$> [ink; red; blue])
    = Ok (Some <$> ls', index', changes) /\
    length ls' = 2%nat /\
    forall (i : nat) (l : Pixel), [white; black] !! i = Some l ->
      exists l' : Pixel, ls' !! i = Some l' /\
        (members ((fun pix => nearest pix [white; black]) <$> [ink; red; blue])
           [ink; red; blue] (Z.of_nat i) = [] -> l' = l) /\
        (members ((fun pix => nearest pix [white; black]) <$> [ink; red; blue])
           [ink; red; blue] (Z.of_nat i) <> [] ->
         Pixels_Average luma_YCbCrToRGB zero_unspecified
           (Some <$> members ((fun pix => nearest pix [white; black]) <$> [ink; red; blue])
                       [ink; red; blue] (Z.of_nat i)) = Ok (Some l')).
Proof.
  apply (kmeans_update_rule luma_YCbCrToRGB zero_unspecified
           [ink; red; blue] [white; black] [white; black]);
    [wf_pixels|wf_pixels|discriminate|apply run_start].
Defined.

(** [Most_empty_is_black] with the keys of the map in listed order. *)
Lemma Most_empty_is_black_witness :
  exists b : Pixel,
    Pixels_Most listed_order [] = Ok (Some b) /\
    pxR b = 0 /\ pxG b = 0 /\ pxB b = 0 /\
    b = mkPixel 0 0 0 0 0 0 /\
    (forall p : Pixels, createSample walking_Intn p 0 = Ok []) /\
    (forall img : Image, Dx (Bounds img) = 0 -> convertPixels luma_YCbCrToRGB img = Ok []) /\
    (forall op : Option, Shift op < 8 ->
       getBackgroundColor listed_order [] op = Ok (Some b)).
Proof.
  apply (Most_empty_is_black luma_YCbCrToRGB walking_Intn listed_order listed_order_perm).
Defined.

(** [pixels_roundtrip] on the 3 x 2 image. *)
Lemma pixels_roundtrip_witness :
  exists (data : Pixels) (out : RGBAImage),
    convertPixels luma_YCbCrToRGB opaque_image = Ok data /\
    Pixels_ToImage data (Dx (Bounds opaque_image)) (Dy (Bounds opaque_image)) = Ok out /\
    Rect out = Bounds opaque_image /\
    forall x y, point_in x y (Bounds opaque_image) = true ->
      exists c, convertColor luma_YCbCrToRGB (At opaque_image x y) = Ok c /\
                RGBAAt out x y = mkRGBA (cR c) (cG c) (cB c) 255 /\
                (cA c = 255 -> RGBAAt out x y = c).
Proof.
  apply (pixels_roundtrip luma_YCbCrToRGB opaque_image);
    [reflexivity|reflexivity|simpl; lia|simpl; lia|].
  intros x y _. eexists. reflexivity.
Defined.

(** The round trip as C6 states it, at these two images: the alpha of
    the translucent pixel comes back as 255, and the pixel of the
    offset image is never read: the result has other bounds and holds
    the colour the source answers outside its bounds. *)
Lemma roundtrip_not_identical :
  (exists out : RGBAImage,
     (do data <- convertPixels luma_YCbCrToRGB translucent_image;
      Pixels_ToImage data (Dx (Bounds translucent_image)) (Dy (Bounds translucent_image)))
     = Ok out /\
     convertColor luma_YCbCrToRGB (At translucent_image 0 0) = Ok (mkRGBA 10 20 30 128) /\
     RGBAAt out 0 0 = mkRGBA 10 20 30 255 /\
     RGBAAt out 0 0 <> mkRGBA 10 20 30 128) /\
  (exists out : RGBAImage,
     (do data <- convertPixels luma_YCbCrToRGB offset_image;
      Pixels_ToImage data (Dx (Bounds offset_image)) (Dy (Bounds offset_image)))
     = Ok out /\
     point_in 5 5 (Bounds offset_image) = true /\
     convertColor luma_YCbCrToRGB (At offset_image 5 5) = Ok (mkRGBA 200 0 0 255) /\
     RGBAAt out 5 5 = mkRGBA 0 0 0 0 /\
     RGBAAt out 0 0 = mkRGBA 0 0 0 255 /\
     Rect out <> Bounds offset_image).
Proof.
  split.
  - eexists. split; [vm_compute; reflexivity|].
    split; [reflexivity|]. split; [vm_compute; reflexivity|]. vm_compute. discriminate.
  - eexists. split; [vm_compute; reflexivity|].
    split; [reflexivity|]. split; [reflexivity|].
    split; [vm_compute; reflexivity|]. split; [vm_compute; reflexivity|].
    vm_compute. discriminate.
Qed.

(** ** More of the package on concrete inputs *)

(** [UnPack_Pack] on the ink and the blue. *)
Lemma UnPack_Pack_witness :
  exists v w : Z,
    Pack (Some ink) = Ok v /\
    Pack (Some blue) = Ok w /\
    0 <= v < 2 ^ 24 /\
    UnPack v = rgb_of ink /\
    (v = w <-> rgb_of ink = rgb_of blue) /\
    forall z, is_uint8 (UnPack z).1.1 /\ is_uint8 (UnPack z).1.2 /\ is_uint8 (UnPack z).2.
Proof. apply (UnPack_Pack ink blue); wf_pixels. Defined.

(** [Sort_less_by_sum] on the ink and the red of a buffer of three. *)
Lemma Sort_less_by_sum_witness :
  Sort_less (Some <$> [white; ink; red]) (Z.of_nat 1) (Z.of_nat 2)
  = Ok (pxR ink + pxG ink + pxB ink <? pxR red + pxG red + pxB red) /\
  Sort_less (Some <$> [white; ink; red]) (Z.of_nat 1) (Z.of_nat 1) = Ok false /\
  (pxR ink + pxG ink + pxB ink = pxR red + pxG red + pxB red ->
   Sort_less (Some <$> [white; ink; red]) (Z.of_nat 1) (Z.of_nat 2) = Ok false /\
   Sort_less (Some <$> [white; ink; red]) (Z.of_nat 2) (Z.of_nat 1) = Ok false).
Proof.
  apply (Sort_less_by_sum [white; ink; red] 1 2 ink red);
    [wf_pixels|reflexivity|reflexivity].
Defined.

(** [closest_first_nearest] for the ink among three centers. *)
Lemma closest_first_nearest_witness :
  exists i : Z,
    closest (Some ink) (Some <$> [white; red; blue]) = Ok i /\
    ([white; red; blue] = [] -> i = -1) /\
    ([white; red; blue] <> [] ->
     exists c : Pixel,
       0 <= i < len [white; red; blue] /\
       [white; red; blue] !! Z.to_nat i = Some c /\
       forall (j : nat) (c' : Pixel), [white; red; blue] !! j = Some c' ->
         distRGB ink c <= distRGB ink c' /\
         (Z.of_nat j < i -> distRGB ink c < distRGB ink c')).
Proof. apply (closest_first_nearest ink [white; red; blue]); wf_pixels. Defined.

(** [FloatRGBA_rounds_half_up] at 12, 0 and 255. *)
Lemma FloatRGBA_rounds_half_up_witness :
  FloatRGBA zero_unspecified (float64_of_Z 12) (float64_of_Z 0) (float64_of_Z 255)
  = mkRGBA 12 0 255 255 /\
  FloatRGBA zero_unspecified (float64_of_Z 12 + 0.5) (float64_of_Z 0 + 0.5)
    (float64_of_Z 255 + 0.5)
  = mkRGBA (Z.min (12 + 1) 255) (Z.min (0 + 1) 255) (Z.min (255 + 1) 255) 255 /\
  FloatRGBA zero_unspecified (next_down (float64_of_Z 12 + 0.5))
    (next_down (float64_of_Z 0 + 0.5)) (next_down (float64_of_Z 255 + 0.5))
  = mkRGBA (if 12 =? 0 then 1 else 12) (if 0 =? 0 then 1 else 0)
           (if 255 =? 0 then 1 else 255) 255.
Proof.
  apply (FloatRGBA_rounds_half_up zero_unspecified 12 0 255); unfold is_uint8; lia.
Defined.

(** [grey_pixels] for the paper grey against black. *)
Lemma grey_pixels_witness :
  NewPixelRGB 200 200 200
  = Some (mkPixel 200 200 200 0 0 (float64_of_Z 200 / float64_of_Z 255)) /\
  foreground DefaultOption (pixelRGB 200 200 200) (pixelRGB 0 0 0)
  = (Brightness DefaultOption <=?
       math_Abs (float64_of_Z 200 / float64_of_Z 255 - float64_of_Z 0 / float64_of_Z 255))%float
    || (Saturation DefaultOption <=? 0)%float.
Proof. apply (grey_pixels 200 0 DefaultOption); unfold is_uint8; lia. Defined.

(** [nil_pixel_panics] on a buffer whose second pixel is nil. *)
Lemma nil_pixel_panics_witness :
  Pixels_Most listed_order [Some ink; None] = Panic NilDereference /\
  Pixels_Average luma_YCbCrToRGB zero_unspecified [Some ink; None] = Panic NilDereference /\
  (forall s, s < 8 -> Pixels_Quantize [Some ink; None] s = Panic NilDereference) /\
  (forall bg op, getForegroundMask [Some ink; None] bg op = Panic NilDereference) /\
  (forall bg labels op, apply [Some ink; None] bg labels op = Panic NilDereference) /\
  (forall op, 1 <= ForegroundNum op - 1 ->
     kmeans luma_YCbCrToRGB zero_unspecified [Some ink; None] op = Panic NilDereference).
Proof.
  apply (nil_pixel_panics luma_YCbCrToRGB zero_unspecified listed_order [Some ink; None]).
  right. left.
Defined.

(** The draws that walk through the buffer are in range. *)
Lemma walking_Intn_range (i : nat) (n : Z) : 0 < n -> 0 <= walking_Intn i n < n.
Proof. intros Hn. unfold walking_Intn. apply Z.mod_pos_bound. exact Hn. Defined.

(** [createSample_draws] for three draws from two pixels. *)
Lemma createSample_draws_witness :
  (3 < 0 -> createSample walking_Intn [Some ink; Some red] 3 = Panic MakeSliceLen) /\
  (0 < 3 -> [Some ink; Some red] = [] ->
   createSample walking_Intn [Some ink; Some red] 3 = Panic IntnArgument) /\
  (0 <= 3 -> [Some ink; Some red] <> [] \/ 3 = 0 ->
   exists samples : Pixels,
     createSample walking_Intn [Some ink; Some red] 3 = Ok samples /\
     len samples = 3 /\
     (forall k : nat, Z.of_nat k < 3 ->
        samples !! k
        = [Some ink; Some red] !! Z.to_nat (walking_Intn k (len [Some ink; Some red]))) /\
     (forall x, x ∈ samples -> x ∈ [Some ink; Some red])).
Proof.
  apply (createSample_draws walking_Intn [Some ink; Some red] 3 walking_Intn_range).
Defined.

(** [convertPixels_layout] on the 3 x 2 image. *)
Lemma convertPixels_layout_witness :
  exists data : Pixels,
    convertPixels luma_YCbCrToRGB opaque_image = Ok data /\
    len data = Dx (Bounds opaque_image) * Dy (Bounds opaque_image) /\
    forall col row,
      0 <= col < Dx (Bounds opaque_image) -> 0 <= row < Dy (Bounds opaque_image) ->
      data !! Z.to_nat (col * Dy (Bounds opaque_image) + row)
      = Some (NewPixel luma_YCbCrToRGB (At opaque_image col row)).
Proof.
  apply (convertPixels_layout luma_YCbCrToRGB opaque_image);
    [vm_compute; discriminate|vm_compute; discriminate|vm_compute; reflexivity].
Defined.

(** [ToImage_buffer_length] for a raster of 2 x 1. *)
Lemma ToImage_buffer_length_witness :
  (len [ink; red] < 2 * 1 ->
   Pixels_ToImage (Some <$> [ink; red]) 2 1 = Panic IndexOutOfRange) /\
  (len [ink; red] = 2 * 1 ->
   exists out : RGBAImage,
     Pixels_ToImage (Some <$> [ink; red]) 2 1 = Ok out /\
     Pixels_ToImage ((Some <$> [ink; red]) ++ [None]) 2 1 = Ok out /\
     Rect out = mkRect 0 0 2 1).
Proof.
  apply (ToImage_buffer_length [ink; red] [None] 2 1);
    [lia|lia|vm_compute; reflexivity].
Defined.

(** [kmeans_returns_centers] on three pixels with the default options. *)
Lemma kmeans_returns_centers_witness :
  exists ls : list Pixel,
    kmeans luma_YCbCrToRGB zero_unspecified (Some <$> [ink; red; blue]) DefaultOption
    = Ok (Some <$> ls) /\
    len ls = ForegroundNum DefaultOption - 1 /\
    Forall wf_pixel ls /\
    forall (i : nat) (c : Pixel), ls !! i = Some c ->
      initial_centers zero_unspecified (ForegroundNum DefaultOption - 1) !! i = Some c \/
      exists g, g <> [] /\ (forall x, x ∈ g -> x ∈ [ink; red; blue]) /\
                Pixels_Average luma_YCbCrToRGB zero_unspecified (Some <$> g) = Ok (Some c).
Proof.
  apply (kmeans_returns_centers luma_YCbCrToRGB zero_unspecified
           [ink; red; blue] DefaultOption);
    [wf_pixels|cbn [ForegroundNum DefaultOption]; lia].
Defined.

(** [Most_most_frequent] on a buffer with the ink twice. *)
Lemma Most_most_frequent_witness :
  exists q, q ∈ [ink; red; ink] /\
    Pixels_Most listed_order (Some <$> [ink; red; ink])
    = Ok (NewPixelRGB (pxR q) (pxG q) (pxB q)) /\
    forall q', q' ∈ [ink; red; ink] ->
      (occurrences (rgb_of q') [ink; red; ink]
       <= occurrences (rgb_of q) [ink; red; ink])%nat.
Proof.
  apply (Most_most_frequent listed_order listed_order_perm [ink; red; ink]);
    [wf_pixels|discriminate].
Defined.

(** [getBackgroundColor_by_shift] on the same buffer with the default
    options. *)
Lemma getBackgroundColor_by_shift_witness :
  (8 <= Shift DefaultOption ->
   forall p, getBackgroundColor listed_order p DefaultOption = Err ErrShiftOver8 /\
             createPalette luma_YCbCrToRGB zero_unspecified listed_order p DefaultOption
             = Err ErrShiftOver8) /\
  (0 <= Shift DefaultOption < 8 -> [ink; red; ink] <> [] ->
   exists q, q ∈ [ink; red; ink] /\
     getBackgroundColor listed_order (Some <$> [ink; red; ink]) DefaultOption
     = Ok (Some (shifted (Shift DefaultOption) q)) /\
     forall q', q' ∈ [ink; red; ink] ->
       (occurrences (rgb_of (shifted (Shift DefaultOption) q'))
          (shifted (Shift DefaultOption) <$> [ink; red; ink])
        <= occurrences (rgb_of (shifted (Shift DefaultOption) q))
             (shifted (Shift DefaultOption) <$> [ink; red; ink]))%nat) /\
  (- 2 ^ 63 <= Shift DefaultOption < 0 ->
   getBackgroundColor listed_order (Some <$> [ink; red; ink]) DefaultOption
   = Ok (Some (pixelRGB 0 0 0))).
Proof.
  apply (getBackgroundColor_by_shift luma_YCbCrToRGB zero_unspecified
           listed_order listed_order_perm [ink; red; ink] DefaultOption).
Defined.

(** [createPalette_of_foreground] on a sample of paper and red. *)
Lemma createPalette_of_foreground_witness :
  exists (bg : Pixel) (ls : list Pixel) (mask : list bool),
    createPalette luma_YCbCrToRGB zero_unspecified listed_order
      (Some <$> [paper; paper; red]) one_center
    = Ok (Some bg, Some <$> ls) /\
    getBackgroundColor listed_order (Some <$> [paper; paper; red]) one_center
    = Ok (Some bg) /\
    getForegroundMask (Some <$> [paper; paper; red]) (Some bg) one_center = Ok mask /\
    kmeans luma_YCbCrToRGB zero_unspecified
      (Some <$> (zip [paper; paper; red] mask
                 ≫= (fun pm : Pixel * bool => if pm.2 then [pm.1] else [])))
      one_center
    = Ok (Some <$> ls) /\
    len ls = ForegroundNum one_center - 1.
Proof.
  apply (createPalette_of_foreground luma_YCbCrToRGB zero_unspecified
           listed_order listed_order_perm [paper; paper; red] one_center);
    [wf_pixels|cbn [Shift one_center]; lia|cbn [ForegroundNum one_center]; lia].
Defined.

(** The colours of the page convert, with channels in range. *)
Lemma page_converts (x y : Z) :
  exists c, convertColor luma_YCbCrToRGB (At page x y) = Ok c /\
            is_uint8 (cR c) /\ is_uint8 (cG c) /\ is_uint8 (cB c).
Proof.
  unfold page, is_uint8. cbn [At]. destruct (x <? 8); eexists; (split; [reflexivity|]);
    cbn [cR cG cB]; lia.
Defined.

(** [Shrink_supported_image] on the page reduced to two colours. *)
Lemma Shrink_supported_image_witness :
  exists (out : RGBAImage) (gifPalette : list RGBA) (bg : Pixel) (ls : list Pixel),
    Shrink luma_YCbCrToRGB zero_unspecified zero_unspecified walking_Intn listed_order
      page (Some one_center)
    = Ok (out, gifPalette) /\
    gifPalette = Pixel_Color bg :: (Pixel_Color <$> ls) /\
    len gifPalette = ForegroundNum one_center /\
    (forall c, c ∈ gifPalette -> cA c = 255) /\
    Rect out = mkRect 0 0 (Dx (Bounds page)) (Dy (Bounds page)) /\
    forall x y, 0 <= x < Dx (Bounds page) -> 0 <= y < Dy (Bounds page) ->
      RGBAAt out x y
      = Pixel_Color (recolor one_center bg ls (converted luma_YCbCrToRGB page (x, y))) /\
      RGBAAt out x y ∈ gifPalette.
Proof.
  apply (Shrink_supported_image luma_YCbCrToRGB zero_unspecified zero_unspecified
           walking_Intn listed_order listed_order_perm page one_center
           walking_Intn_range).
  - vm_compute. discriminate.
  - vm_compute. discriminate.
  - vm_compute. reflexivity.
  - intros x y _ _. apply page_converts.
  - vm_compute. discriminate.
  - left. vm_compute. reflexivity.
  - cbn [Shift one_center]. lia.
  - cbn [ForegroundNum one_center]. lia.
Defined.

(** [NewPixelHSV_inverts_RGB2HSV] on an orange of the hue circle. *)
Lemma NewPixelHSV_inverts_RGB2HSV_witness :
  NewPixelHSV zero_unspecified (pxH (pixelRGB 255 100 0)) (pxS (pixelRGB 255 100 0))
    (pxV (pixelRGB 255 100 0))
  = Some (pixelRGB 255 100 0).
Proof.
  apply (NewPixelHSV_inverts_RGB2HSV zero_unspecified 100 (pixelRGB 255 100 0)).
  - unfold is_uint8. lia.
  - do 4 right. left.
Defined.

(** [closestIndex_first_nearest] for the integer 5 among 9, 3 and 7. *)
Lemma closestIndex_first_nearest_witness :
  exists i : Z,
    @closestIndex Z line_Value (Some 5) [Some 9; Some 3; Some 7] = Ok i /\
    -1 <= i < len [Some 9; Some 3; Some 7] /\
    (i = -1 <->
     forall d, d ∈ [float64_of_Z 4; float64_of_Z 2; float64_of_Z 2] ->
       (d <? math_MaxFloat64)%float = false) /\
    (0 <= i ->
     exists di : float,
       [float64_of_Z 4; float64_of_Z 2; float64_of_Z 2] !! Z.to_nat i = Some di /\
       (di <? math_MaxFloat64)%float = true /\
       (forall d, d ∈ [float64_of_Z 4; float64_of_Z 2; float64_of_Z 2] ->
          (d <? di)%float = false) /\
       (forall (j : nat) (d : float),
          [float64_of_Z 4; float64_of_Z 2; float64_of_Z 2] !! j = Some d ->
          Z.of_nat j < i -> d <> di)) /\
    ([Some 9; Some 3; Some 7] <> [] ->
     @closestIndex Z line_Value None [Some 9; Some 3; Some 7] = Panic NilDereference).
Proof.
  apply (@closestIndex_first_nearest Z line_Value 5 [Some 9; Some 3; Some 7]
           [float64_of_Z 4; float64_of_Z 2; float64_of_Z 2]).
  repeat constructor.
Defined.

(** The distance of the integers always returns. *)
Lemma line_Value_total (a : Z) (b : option Z) :
  exists d, @Distance Z line_Value a b = Ok d.
Proof. eexists. reflexivity. Defined.

(** [kmeansValue_edges] on two integers, two labels and one round. *)
Lemma kmeansValue_edges_witness :
  (1 <= 0 ->
   @kmeansValue Z line_Value (Some <$> [5; 1]) [Some 9; Some 3] 1 = Ok [Some 9; Some 3]) /\
  (1 <= 1 -> [5; 1] <> [] ->
   @kmeansValue Z line_Value (Some <$> [5; 1]) [] 1 = Panic IndexOutOfRange) /\
  (forall rtn,
     @kmeansValue Z line_Value (Some <$> [5; 1]) [Some 9; Some 3] 1 = Ok rtn ->
     len rtn = len [Some 9; Some 3]).
Proof.
  apply (@kmeansValue_edges Z line_Value [5; 1] [Some 9; Some 3] 1 line_Value_total).
Defined.

(** ** The model on small runs *)

(** The five initial centers of the default six colours. *)
Example initial_centers_default :
  rgb_of <$> initial_centers zero_unspecified (ForegroundNum DefaultOption - 1)
  = [(255, 0, 0); (128, 255, 0); (0, 255, 255); (128, 0, 255); (255, 0, 4)].
Proof. vm_compute. reflexivity. Qed.

(** The distance in [Z] is the [float64] of the source on the sample
    pixels, the two extreme ones among them, and [MaxFloat64] is the
    value of the float constant. *)
Example DistanceRGB_float64_agrees :
  forallb (fun p =>
    forallb (fun q =>
      PrimFloat.Leibniz.eqb (DistanceRGB_float64 p q) (float64_of_Z (distRGB p q)))
      [white; black; paper; red; blue; ink])
    [white; black; paper; red; blue; ink] = true /\
  float_trunc 0x1.fffffffffffffp+1023 = Some MaxFloat64.
Proof. split; vm_compute; reflexivity. Qed.

Example Shrink_page :
  match Shrink luma_YCbCrToRGB zero_unspecified zero_unspecified walking_Intn
          listed_order page (Some one_center) with
  | Ok (out, gifPalette) =>
      gifPalette = [mkRGBA 200 200 200 255; mkRGBA 255 0 0 255] /\
      forallb (fun xy : Z * Z =>
                 if xy.1 <? 8 then cG (RGBAAt out xy.1 xy.2) =? 200
                 else cG (RGBAAt out xy.1 xy.2) =? 0)
              (traversal 10 10) = true
  | _ => False
  end.
Proof. vm_compute. split; reflexivity. Qed.
